(** * The stable-fluids solver of simulator.js, embedded in Rocq

    The Simulator object of [simulator.js] keeps a velocity field and a
    density field on an (N+2) x (N+2) x 3 grid and advances them with four
    operators: [addSource], [diffuse], [advect] and [project], all of which
    rely on [setBoundary] to fill the one-cell border ring.

    The embedding follows the JavaScript text:
    - every field is a JavaScript array of arrays of arrays, here a nested
      list indexed with integers; the fields live in a heap and the
      operators receive references to them, so that two arguments may name
      the same array exactly as in the source;
    - an operator is a computation in a state-and-error monad over that
      heap; an access outside an allocated array (which in JavaScript
      yields [undefined] and then a TypeError or a NaN) stops the
      computation with an error;
    - the arithmetic of JavaScript numbers is kept abstract behind the
      class [Number]; the structural results hold for every interpretation
      of the operations, and the results that need the order and the floor
      function hold for every interpretation that rounds only when it has
      to ([rounding_laws]), on numbers that are finite. *)

From Stdlib Require Import ZArith QArith Qround Lia Lqa.
From stdpp Require Import base tactics option list list_numbers.

Local Open Scope Z_scope.

(** ** Numbers *)

(** The operations the solver applies to JavaScript numbers. *)
Class Number (num : Type) := {
  of_Z : Z → num;                (* an integer literal or an integer variable *)
  half : num;                    (* the literal 0.5 *)
  nadd : num → num → num;
  nsub : num → num → num;
  nmul : num → num → num;
  ndiv : num → num → num;
  nneg : num → num;              (* unary minus *)
  nlt : num → num → bool;        (* x < y *)
  nfloor : num → Z               (* Math.floor; the result is used as an index *)
}.

Declare Scope num_scope.
Delimit Scope num_scope with num.
Infix "+" := nadd : num_scope.
Infix "-" := nsub : num_scope.
Infix "*" := nmul : num_scope.
Infix "/" := ndiv : num_scope.
Notation "- x" := (nneg x) : num_scope.
Notation "x <? y" := (nlt x y) : num_scope.
Notation "x >? y" := (nlt y x) : num_scope.

(** The exact rationals as an instance. *)
Definition Qltb (x y : Q) : bool :=
  match (x ?= y)%Q with Lt => true | _ => false end.

#[export] Instance Q_Number : Number Q := {|
  of_Z := inject_Z;
  half := (1 # 2)%Q;
  nadd := Qplus;
  nsub := Qminus;
  nmul := Qmult;
  ndiv := Qdiv;
  nneg := Qopp;
  nlt := Qltb;
  nfloor := Qfloor
|}.

(** JavaScript numbers without rounding: the rationals, the two
    infinities and NaN, with the rules of IEEE 754 for them. The two zeros
    are one number here, and a result is never rounded; the type serves
    for runs in which neither matters. [Math.floor] of NaN or of an
    infinity is no index of any array, which -1 stands for. *)
Inductive js : Type :=
  | Fin (q : Q)
  | PInf
  | NInf
  | NaN.

Definition js_neg (x : js) : js :=
  match x with
  | Fin q => Fin (- q)
  | PInf => NInf
  | NInf => PInf
  | NaN => NaN
  end.

Definition js_add (x y : js) : js :=
  match x, y with
  | NaN, _ | _, NaN => NaN
  | PInf, NInf | NInf, PInf => NaN
  | PInf, _ | _, PInf => PInf
  | NInf, _ | _, NInf => NInf
  | Fin p, Fin q => Fin (Qred (p + q))
  end.

(** An infinity with the sign of [q] times the sign of [x]; NaN for zero. *)
Definition js_scale (x : js) (q : Q) : js :=
  if Qltb 0 q then x else if Qltb q 0 then js_neg x else NaN.

Definition js_mul (x y : js) : js :=
  match x, y with
  | NaN, _ | _, NaN => NaN
  | Fin p, Fin q => Fin (Qred (p * q))
  | Fin p, _ => js_scale y p
  | _, Fin q => js_scale x q
  | PInf, PInf | NInf, NInf => PInf
  | PInf, NInf | NInf, PInf => NInf
  end.

Definition js_div (x y : js) : js :=
  match x, y with
  | NaN, _ | _, NaN => NaN
  | Fin p, Fin q =>
      if Qeq_bool q 0 then js_scale PInf p else Fin (Qred (p / q))
  | Fin _, _ => Fin 0
  | _, Fin q => if Qltb q 0 then js_neg x else x
  | _, _ => NaN
  end.

Definition js_lt (x y : js) : bool :=
  match x, y with
  | NaN, _ | _, NaN => false
  | Fin p, Fin q => Qltb p q
  | NInf, NInf => false
  | NInf, _ => true
  | _, PInf => match x with PInf => false | _ => true end
  | _, _ => false
  end.

Definition js_floor (x : js) : Z :=
  match x with
  | Fin q => Qfloor q
  | _ => -1
  end.

#[export] Instance js_Number : Number js := {|
  of_Z := λ n, Fin (inject_Z n);
  half := Fin (1 # 2);
  nadd := js_add;
  nsub := λ x y, js_add x (js_neg y);
  nmul := js_mul;
  ndiv := js_div;
  nneg := js_neg;
  nlt := js_lt;
  nfloor := js_floor
|}.

(** ** Numbers and their values *)

(** The value of a number that is not NaN: a rational or an infinity. *)
Inductive value : Type :=
  | Finite (q : Q)
  | Minus_infinity
  | Plus_infinity.

Section Values.
Context {num : Type} `{Number num}.

(** [val x] is the value of the number [x], and [None] when [x] is NaN. *)
Variable val : num → option value.

Definition is_val (x : num) (q : Q) : Prop :=
  ∃ r, val x = Some (Finite r) ∧ (r == q)%Q.

Definition is_finite (x : num) : Prop := ∃ q, is_val x q.

(** [x] is not NaN. *)
Definition is_number (x : num) : Prop := val x ≠ None.

(** The rationals that are values of numbers. *)
Definition representable (q : Q) : Prop := ∃ x, is_val x q.

(** What the results on [advect] assume of the arithmetic. An operation
    on finite numbers returns the exact result whenever that result is a
    number of the format, the comparison and the floor of finite numbers
    are those of their values, minus infinity is below and plus infinity
    above every finite number, and the integers up to [exact] and their
    halves are numbers. IEEE 754 arithmetic has these properties, with
    [exact] = 2^51 for JavaScript's numbers, and so has every arithmetic
    that rounds correctly. Nothing is assumed of an operation whose exact
    result is not a number, of the arithmetic of the infinities, or of
    NaN. *)
Record rounding_laws (exact : Z) : Prop := {
  law_of_Z : ∀ n, - exact ≤ n ≤ exact → is_val (of_Z n) (inject_Z n);
  law_half : is_val half (1 # 2);
  law_half_integer : ∀ n, 0 ≤ n ≤ exact → representable (inject_Z n + (1 # 2));
  law_add : ∀ x y p q, is_val x p → is_val y q → representable (p + q) →
                       is_val (x + y)%num (p + q);
  law_sub : ∀ x y p q, is_val x p → is_val y q → representable (p - q) →
                       is_val (x - y)%num (p - q);
  law_mul : ∀ x y p q, is_val x p → is_val y q → representable (p * q) →
                       is_val (x * y)%num (p * q);
  law_neg : ∀ x p, is_val x p → is_val (- x)%num (- p);
  law_lt : ∀ x y p q, is_val x p → is_val y q → (x <? y)%num = Qltb p q;
  law_lt_minus : ∀ x y q, val x = Some Minus_infinity → is_val y q →
                          (x <? y)%num = true;
  law_lt_plus : ∀ x y p, is_val x p → val y = Some Plus_infinity →
                         (x <? y)%num = true;
  law_plus_lt : ∀ x y q, val x = Some Plus_infinity → is_val y q →
                         (x <? y)%num = false;
  law_floor : ∀ x q, is_val x q → nfloor x = Qfloor q
}.

End Values.

(** The value [c] is the value [q] clamped into [0.5, n + 0.5]. *)
Definition clamped_to (n : Z) (q c : Q) : Prop :=
  ((1 # 2) <= c <= inject_Z n + (1 # 2))%Q ∧
  (((1 # 2) <= q <= inject_Z n + (1 # 2))%Q → (c == q)%Q) ∧
  ((q < 1 # 2)%Q → (c == 1 # 2)%Q) ∧
  ((inject_Z n + (1 # 2) < q)%Q → (c == inject_Z n + (1 # 2))%Q).

(** The same for the value of a number that is not NaN: minus infinity
    is clamped to 0.5 and plus infinity to n + 0.5. *)
Definition clamped_value (n : Z) (v : option value) (c : Q) : Prop :=
  match v with
  | Some (Finite q) => clamped_to n q c
  | Some Minus_infinity => (c == 1 # 2)%Q
  | Some Plus_infinity => (c == inject_Z n + (1 # 2))%Q
  | None => False
  end.

(** The values of the two instances. *)
Definition Q_val (x : Q) : option value := Some (Finite x).

Definition js_val (x : js) : option value :=
  match x with
  | Fin q => Some (Finite q)
  | PInf => Some Plus_infinity
  | NInf => Some Minus_infinity
  | NaN => None
  end.

(** ** Constants of the source *)

Definition N_SOLVER_ITERS : Z := 20.

Definition BOUNDARY_MIRROR : Z := 0.
Definition BOUNDARY_OPPOSE_X : Z := 1.
Definition BOUNDARY_OPPOSE_Y : Z := 2.

(** Modelled from the spec: the dimension indices [X_DIM], [Y_DIM] and
    [Z_DIM] are declared next to the Grid object, whose file is not part of
    the sources. A vector field is "an ordered collection of scalar fields,
    one per spatial dimension (X, Y, and an unused Z)". *)
Definition X_DIM : Z := 0.
Definition Y_DIM : Z := 1.
Definition Z_DIM : Z := 2.

(** ** Arrays, fields and the heap *)

(** [l[i]] for a JavaScript array [l] and an integer [i]; [None] stands for
    [undefined]. *)
Definition idx {A} (l : list A) (i : Z) : option A :=
  if i <? 0 then None else l !! Z.to_nat i.

(** [l[i] = x] for an index inside the array. *)
Definition upd {A} (l : list A) (i : Z) (x : A) : list A :=
  <[Z.to_nat i := x]> l.

(** A field is an array of arrays of arrays of numbers. *)
Definition field (num : Type) : Type := list (list (list num)).

(** References to fields, and the heap that holds the fields. *)
Abbreviation loc := nat (only parsing).
Abbreviation heap num := (list (field num)) (only parsing).

Section Solver.
Context {num : Type} `{Number num}.

Local Abbreviation field := (field num).
Local Abbreviation heap := (heap num).

Definition cell (f : field) (i j k : Z) : option num :=
  r ← idx f i; c ← idx r j; idx c k.

Definition cell_upd (f : field) (i j k : Z) (v : num) : option field :=
  r ← idx f i; c ← idx r j; _ ← idx c k;
  Some (upd f i (upd r j (upd c k v))).

(** ** The monad of the operators: a heap is threaded through, and an
    access outside an array is an error. *)

Definition M (A : Type) : Type := heap → option (A * heap).

Definition ret {A} (a : A) : M A := λ h, Some (a, h).

Definition bind {A B} (m : M A) (k : A → M B) : M B :=
  λ h, match m h with
       | Some (a, h') => k a h'
       | None => None
       end.

Local Notation "x <- m ;; k" := (bind m (λ x, k))
  (at level 100, m at next level, right associativity).
Local Notation "m ;;; k" := (bind m (λ _, k))
  (at level 100, right associativity).

(** [X[i][j][k]] as an expression. *)
Definition get (X : loc) (i j k : Z) : M num :=
  λ h, f ← h !! X; v ← cell f i j k; Some (v, h).

(** [X[i][j][k] = v]. A write outside the innermost array, which
    JavaScript performs by extending the array, is an error here as well:
    the fields of the model never change their dimensions. *)
Definition put (X : loc) (i j k : Z) (v : num) : M unit :=
  λ h, f ← h !! X; f' ← cell_upd f i j k v; Some (tt, <[X := f']> h).

(** [vel[d]] for a vector field [vel], an array of references. *)
Definition component (vel : list loc) (d : Z) : M loc :=
  λ h, l ← idx vel d; Some (l, h).

(** Loops. [for_each l body] runs [body] for the elements of [l] in order. *)
Fixpoint for_each (l : list Z) (body : Z → M unit) : M unit :=
  match l with
  | [] => ret tt
  | i :: l' => body i ;;; for_each l' body
  end.

(** [for (var i = lo; i < hi; i++) body] *)
Definition for_lt (lo hi : Z) (body : Z → M unit) : M unit :=
  for_each (seqZ lo (hi - lo)) body.

(** [for (var i = lo; i <= hi; i++) body] *)
Definition for_le (lo hi : Z) (body : Z → M unit) : M unit :=
  for_each (seqZ lo (hi + 1 - lo)) body.

(** ** The Grid and the Simulator objects *)

(** Modelled from the spec: the Grid object is not part of the sources.
    It "owns the discretized fields — current and previous velocity (one
    scalar field per spatial dimension) and current/previous density — plus
    grid dimensions"; [Nx], [Ny] and [Nz] stand for [grid.N[X_DIM]],
    [grid.N[Y_DIM]] and [grid.N[Z_DIM]]. *)
Record Grid : Type := mkGrid {
  Nx : Z;
  Ny : Z;
  Nz : Z;
  vel : list loc;
  prev_vel : list loc;
  dens : loc;
  prev_dens : loc
}.

Record Simulator : Type := mkSimulator {
  diff : num;
  visc : num;
  timeStep : num;
  grid : Grid;
  v_src : list loc
}.

Section Operators.
Variable this : Simulator.

(** [addSource(dest, source)], lines 35-40. *)
Definition addSource (dest source : loc) : M unit :=
  for_lt 0 (Nx (grid this) + 2) (λ i,
    for_lt 0 (Ny (grid this) + 2) (λ j,
      for_lt 0 (Nz (grid this) + 2) (λ k,
        d <- get dest i j k ;;
        s <- get source i j k ;;
        put dest i j k (d + timeStep this * s)%num))).

(** [setBoundary(X, mode = BOUNDARY_MIRROR)], lines 146-180; the argument
    is [None] when the caller leaves the mode out. *)
Definition setBoundary (X : loc) (mode_arg : option Z) : M unit :=
  let mode := default BOUNDARY_MIRROR mode_arg in
  let lastX := Nx (grid this) in
  let lastY := Ny (grid this) in
  let edgeX := lastX + 1 in
  let edgeY := lastY + 1 in
  for_le 1 lastY (λ j,
    if mode =? BOUNDARY_OPPOSE_X then
      (a <- get X 1 j 1 ;; put X 0 j 1 (- a)%num ;;;
       b <- get X lastX j 1 ;; put X edgeX j 1 (- b)%num)
    else
      (a <- get X 1 j 1 ;; put X 0 j 1 a ;;;
       b <- get X lastX j 1 ;; put X edgeX j 1 b)) ;;;
  for_le 1 lastX (λ i,
    if mode =? BOUNDARY_OPPOSE_Y then
      (a <- get X i 1 1 ;; put X i 0 1 (- a)%num ;;;
       b <- get X i lastY 1 ;; put X i edgeY 1 (- b)%num)
    else
      (a <- get X i 1 1 ;; put X i 0 1 a ;;;
       b <- get X i lastY 1 ;; put X i edgeY 1 b)) ;;;
  (a <- get X 1 0 1 ;; b <- get X 0 1 1 ;;
   put X 0 0 1 (half * (a + b))%num) ;;;
  (a <- get X 1 edgeY 1 ;; b <- get X 0 lastY 1 ;;
   put X 0 edgeY 1 (half * (a + b))%num) ;;;
  (a <- get X lastX 0 1 ;; b <- get X edgeX 1 1 ;;
   put X edgeX 0 1 (half * (a + b))%num) ;;;
  (a <- get X lastX edgeY 1 ;; b <- get X edgeX lastY 1 ;;
   put X edgeX edgeY 1 (half * (a + b))%num).

(** The right-hand side of the assignment in [diffuse], lines 52-55. *)
Definition diffuse_rhs (a p0 c1 c2 c3 c4 : num) : num :=
  ((p0 + a * (c1 + c2 + c3 + c4)) / (of_Z 1 + of_Z 4 * a))%num.

(** The coefficient [a] of [diffuse], line 48. *)
Definition diffuse_coeff (k : num) : num :=
  (timeStep this * k * of_Z (Nx (grid this)) * of_Z (Ny (grid this)))%num.

(** [diffuse(cur, prev, k, bMode)], lines 47-60. *)
Definition diffuse (cur prev : loc) (k : num) (bMode : Z) : M unit :=
  let a := diffuse_coeff k in
  for_lt 0 N_SOLVER_ITERS (λ iter,
    for_le 1 (Nx (grid this)) (λ i,
      for_le 1 (Ny (grid this)) (λ j,
        p0 <- get prev i j 1 ;;
        c1 <- get cur (i - 1) j 1 ;;
        c2 <- get cur (i + 1) j 1 ;;
        c3 <- get cur i (j - 1) 1 ;;
        c4 <- get cur i (j + 1) 1 ;;
        put cur i j 1 (diffuse_rhs a p0 c1 c2 c3 c4))) ;;;
    setBoundary cur (Some bMode)).

(** The two [if] statements that follow the backtracking in [advect],
    lines 72-75 and 80-83, for an axis with [n] active cells. *)
Definition clamp_coord (n : Z) (x : num) : num :=
  let x := if (x <? half)%num then half else x in
  if (x >? of_Z n + half)%num then (of_Z n + half)%num else x.

(** The backtracked and clamped coordinate, lines 71-75. *)
Definition backtrack (n i : Z) (u : num) : num :=
  clamp_coord n (of_Z i - of_Z n * u)%num.

(** The bilinear interpolation of lines 87-92. *)
Definition bilerp (x y : num) (i0 j0 : Z) (p00 p01 p10 p11 : num) : num :=
  let s1 := (x - of_Z i0)%num in
  let s0 := (of_Z 1 - s1)%num in
  let t1 := (y - of_Z j0)%num in
  let t0 := (of_Z 1 - t1)%num in
  (s0 * (t0 * p00 + t1 * p01) + s1 * (t0 * p10 + t1 * p11))%num.

(** [advect(cur, prev, vel, bMode)], lines 65-96. *)
Definition advect (cur prev : loc) (vel : list loc) (bMode : Z) : M unit :=
  for_le 1 (Nx (grid this)) (λ i,
    for_le 1 (Ny (grid this)) (λ j,
      velX <- component vel X_DIM ;;
      u <- get velX i j 1 ;;
      let x := backtrack (Nx (grid this)) i u in
      let i0 := nfloor x in
      let i1 := i0 + 1 in
      velY <- component vel Y_DIM ;;
      v <- get velY i j 1 ;;
      let y := backtrack (Ny (grid this)) j v in
      let j0 := nfloor y in
      let j1 := j0 + 1 in
      p00 <- get prev i0 j0 1 ;;
      p01 <- get prev i0 j1 1 ;;
      p10 <- get prev i1 j0 1 ;;
      p11 <- get prev i1 j1 1 ;;
      put cur i j 1 (bilerp x y i0 j0 p00 p01 p10 p11))) ;;;
  setBoundary cur (Some bMode).

(** The divergence of line 107-108. *)
Definition divergence_rhs (Lx Ly xr xl yu yd : num) : num :=
  ((- half) * (Lx * (xr - xl) + Ly * (yu - yd)))%num.

(** The relaxation of lines 118-121. *)
Definition relax_rhs (d p1 p2 p3 p4 : num) : num :=
  ((d + p1 + p2 + p3 + p4) / of_Z 4)%num.

(** The gradient subtraction of lines 129-130. *)
Definition gradient_rhs (L u pr pl : num) : num :=
  (u - half * (pr - pl) / L)%num.

(** [project(vel, buf)], lines 99-135. *)
Definition project (vel buf : list loc) : M unit :=
  let Lx := (of_Z 1 / of_Z (Nx (grid this)))%num in
  let Ly := (of_Z 1 / of_Z (Ny (grid this)))%num in
  p <- component buf X_DIM ;;
  div <- component buf Y_DIM ;;
  for_le 1 (Nx (grid this)) (λ i,
    for_le 1 (Ny (grid this)) (λ j,
      velX <- component vel X_DIM ;;
      xr <- get velX (i + 1) j 1 ;;
      xl <- get velX (i - 1) j 1 ;;
      velY <- component vel Y_DIM ;;
      yu <- get velY i (j + 1) 1 ;;
      yd <- get velY i (j - 1) 1 ;;
      put div i j 1 (divergence_rhs Lx Ly xr xl yu yd) ;;;
      put p i j 1 (of_Z 0))) ;;;
  setBoundary div None ;;;
  setBoundary p None ;;;
  for_lt 0 N_SOLVER_ITERS (λ iter,
    for_le 1 (Nx (grid this)) (λ i,
      for_le 1 (Ny (grid this)) (λ j,
        d <- get div i j 1 ;;
        p1 <- get p (i - 1) j 1 ;;
        p2 <- get p (i + 1) j 1 ;;
        p3 <- get p i (j - 1) 1 ;;
        p4 <- get p i (j + 1) 1 ;;
        put p i j 1 (relax_rhs d p1 p2 p3 p4))) ;;;
    setBoundary p None) ;;;
  for_le 1 (Nx (grid this)) (λ i,
    for_le 1 (Ny (grid this)) (λ j,
      velX <- component vel X_DIM ;;
      u <- get velX i j 1 ;;
      pr <- get p (i + 1) j 1 ;;
      pl <- get p (i - 1) j 1 ;;
      put velX i j 1 (gradient_rhs Lx u pr pl) ;;;
      velY <- component vel Y_DIM ;;
      v <- get velY i j 1 ;;
      pu <- get p i (j + 1) 1 ;;
      pd <- get p i (j - 1) 1 ;;
      put velY i j 1 (gradient_rhs Ly v pu pd))) ;;;
  velX <- component vel X_DIM ;;
  setBoundary velX (Some BOUNDARY_OPPOSE_X) ;;;
  velY <- component vel Y_DIM ;;
  setBoundary velY (Some BOUNDARY_OPPOSE_Y).

End Operators.

(** ** The velocity step *)

(** Modelled from the spec: [swapV] is a method of the Grid object, which
    is not part of the sources; it is one of the "field-swap operations
    (promote current to previous for the next integration sub-step)", here
    the exchange of the two velocity references. *)
Definition swapV (g : Grid) : Grid :=
  {| Nx := Nx g; Ny := Ny g; Nz := Nz g;
     vel := prev_vel g; prev_vel := vel g;
     dens := dens g; prev_dens := prev_dens g |}.

(** The assignment to [this.grid] that [this.grid.swapV()] amounts to. *)
Definition with_grid (this : Simulator) (g : Grid) : Simulator :=
  {| diff := diff this; visc := visc this; timeStep := timeStep this;
     grid := g; v_src := v_src this |}.

(** [vStep()], lines 183-199. The number of dimensions [N_DIMS] is a
    constant declared outside the sources and is a parameter here. The
    result is the simulator after the two swaps. *)
Definition vStep (N_DIMS : Z) (this : Simulator) : M Simulator :=
  for_lt 0 N_DIMS (λ dim,
    v <- component (vel (grid this)) dim ;;
    pv <- component (prev_vel (grid this)) dim ;;
    addSource this v pv ;;;
    v <- component (vel (grid this)) dim ;;
    s <- component (v_src this) dim ;;
    addSource this v s) ;;;
  let this := with_grid this (swapV (grid this)) in
  for_lt 0 N_DIMS (λ dim,
    v <- component (vel (grid this)) dim ;;
    pv <- component (prev_vel (grid this)) dim ;;
    diffuse this v pv (visc this) (dim + 1)) ;;;
  project this (vel (grid this)) (prev_vel (grid this)) ;;;
  let this := with_grid this (swapV (grid this)) in
  for_lt 0 N_DIMS (λ dim,
    v <- component (vel (grid this)) dim ;;
    pv <- component (prev_vel (grid this)) dim ;;
    advect this v pv (vel (grid this)) (dim + 1)) ;;;
  project this (vel (grid this)) (prev_vel (grid this)) ;;;
  ret this.

(** ** Construction *)

(** Allocation of a new array in the heap. *)
Definition alloc (f : field) : M loc :=
  λ h, Some (length h, h ++ [f]).

(** Modelled from the spec: [zeros4d] is a helper defined outside the
    sources; "fields are allocated once ... sized to the configured
    resolution" and start from zero, so [zeros3d a b c] is the a x b x c
    array of zeros and [zeros4d n a b c] allocates [n] of them. *)
Definition zeros3d (a b c : Z) : field :=
  replicate (Z.to_nat a) (replicate (Z.to_nat b) (replicate (Z.to_nat c) (of_Z 0))).

Fixpoint zeros4d (n : nat) (a b c : Z) : M (list loc) :=
  match n with
  | O => ret []
  | S n' => l <- alloc (zeros3d a b c) ;;
            ls <- zeros4d n' a b c ;;
            ret (l :: ls)
  end.

(** Modelled from the spec: the constructor of the Grid object, which is
    not part of the sources: "each field is allocated with
    (Nx+2) x (Ny+2) x (Nz+2) cells", a current and a previous velocity with
    one field per dimension and a current and a previous density. *)
Definition Grid_alloc (nx ny nz : Z) (width height depth : num) : M Grid :=
  v <- zeros4d 3 (nx + 2) (ny + 2) (nz + 2) ;;
  pv <- zeros4d 3 (nx + 2) (ny + 2) (nz + 2) ;;
  d <- alloc (zeros3d (nx + 2) (ny + 2) (nz + 2)) ;;
  pd <- alloc (zeros3d (nx + 2) (ny + 2) (nz + 2)) ;;
  ret {| Nx := nx; Ny := ny; Nz := nz;
         vel := v; prev_vel := pv; dens := d; prev_dens := pd |}.

(** [Simulator(N, width, height, visc, diff, timeStep)], lines 24-30 and
    214-216, with the constructor of the Grid as a parameter. *)
Definition new_Simulator
    (new_Grid : Z → Z → Z → num → num → num → M Grid)
    (N : Z) (width height visc diff timeStep : num) : M Simulator :=
  g <- new_Grid N N 1 width height (of_Z 0) ;;
  src <- zeros4d 3 (Nx g + 2) (Ny g + 2) (Nz g + 2) ;;
  sx <- component src X_DIM ;;
  put sx 5 25 1 (of_Z 500) ;;;
  ret {| diff := diff; visc := visc; timeStep := timeStep;
         grid := g; v_src := src |}.

(** ** Reading a heap, and the heaps the operators expect *)

(** The value of [X[i][j][k]] in the heap [h]. *)
Definition rd (h : heap) (X : loc) (i j k : Z) : num :=
  default (of_Z 0) (f ← h !! X; cell f i j k).

(** A field has the dimensions of the grid. *)
Definition shape_ok (g : Grid) (f : field) : bool :=
  (Z.of_nat (length f) =? Nx g + 2) &&
  forallb (λ r, (Z.of_nat (length r) =? Ny g + 2) &&
                forallb (λ c, Z.of_nat (length c) =? Nz g + 2) r) f.

(** The grid has at least one active cell on the X and Y axes and every
    field of the heap has the dimensions of the grid. *)
Definition wf (g : Grid) (h : heap) : bool :=
  (1 <=? Nx g) && (1 <=? Ny g) && (0 <=? Nz g) && forallb (shape_ok g) h.

(** An index of an allocated cell on an axis with [n] active cells. *)
Definition in_grid (n i : Z) : Prop := 0 ≤ i ≤ n + 1.

(** An index of an active cell. *)
Definition active (n i : Z) : Prop := 1 ≤ i ≤ n.

(** *** The boundary fill in closed form *)

(** The value an edge cell receives from its nearest active neighbour [v]:
    the opposite when the mode names the axis [oppose], a copy otherwise. *)
Definition edge_value (mode oppose : Z) (v : num) : num :=
  if mode =? oppose then (- v)%num else v.

(** The plane [k = 1] of a field after the two edge passes: the left and
    right columns and the bottom and top rows are refreshed from the active
    cells next to them, every other cell keeps its value. *)
Definition edges_filled (g : Grid) (mode : Z) (old : Z → Z → num) (a b : Z) : num :=
  if decide ((a = 0 ∨ a = Nx g + 1) ∧ 1 ≤ b ≤ Ny g) then
    edge_value mode BOUNDARY_OPPOSE_X (old (if decide (a = 0) then 1 else Nx g) b)
  else if decide ((b = 0 ∨ b = Ny g + 1) ∧ 1 ≤ a ≤ Nx g) then
    edge_value mode BOUNDARY_OPPOSE_Y (old a (if decide (b = 0) then 1 else Ny g))
  else old a b.

(** The plane [k = 1] after the whole fill: each corner is the average of
    the two edge cells next to it. *)
Definition boundary_filled (g : Grid) (mode : Z) (old : Z → Z → num) (a b : Z) : num :=
  let e := edges_filled g mode old in
  let lastX := Nx g in
  let lastY := Ny g in
  let edgeX := lastX + 1 in
  let edgeY := lastY + 1 in
  if decide (a = 0 ∧ b = 0) then
    (half * (e 1 0 + e 0 1))%num
  else if decide (a = 0 ∧ b = edgeY) then
    (half * (e 1 edgeY + e 0 lastY))%num
  else if decide (a = edgeX ∧ b = 0) then
    (half * (e lastX 0 + e edgeX 1))%num
  else if decide (a = edgeX ∧ b = edgeY) then
    (half * (e lastX edgeY + e edgeX lastY))%num
  else e a b.

(** *** Sweeps and iterations as relations between heaps *)

(** One Gauss-Seidel sweep over the active cells of [cur]: the new value
    of a cell is [rhs] of the value of [src] at the cell and of the four
    neighbours in [cur], where the cells visited earlier in the sweep (the
    left and the lower neighbour) are read after and the others (the right
    and the upper neighbour) before the sweep. Nothing else changes. *)
Definition gauss_seidel_sweep (g : Grid) (rhs : num → num → num → num → num → num)
    (cur src : loc) (h h' : heap) : Prop :=
  length h' = length h ∧
  (∀ Y, Y ≠ cur → h' !! Y = h !! Y) ∧
  (∀ i j k, ¬ (active (Nx g) i ∧ active (Ny g) j ∧ k = 1) →
            rd h' cur i j k = rd h cur i j k) ∧
  (∀ i j, active (Nx g) i → active (Ny g) j →
     rd h' cur i j 1 =
       rhs (rd h src i j 1)
           (rd h' cur (i - 1) j 1) (rd h cur (i + 1) j 1)
           (rd h' cur i (j - 1) 1) (rd h cur i (j + 1) 1)).

(** The loop of [advect] over the active cells of [cur]: every active
    cell receives the bilinear interpolation of [prev] at its backtracked
    and clamped position, whose lower sample indices are the floors of the
    two coordinates. Nothing else changes. *)
Definition advected (g : Grid) (cur prev velX velY : loc) (h h' : heap) : Prop :=
  length h' = length h ∧
  (∀ Y, Y ≠ cur → h' !! Y = h !! Y) ∧
  (∀ i j k, ¬ (active (Nx g) i ∧ active (Ny g) j ∧ k = 1) →
            rd h' cur i j k = rd h cur i j k) ∧
  (∀ i j, active (Nx g) i → active (Ny g) j →
     let x := backtrack (Nx g) i (rd h velX i j 1) in
     let y := backtrack (Ny g) j (rd h velY i j 1) in
     let i0 := nfloor x in
     let j0 := nfloor y in
     rd h' cur i j 1 =
       bilerp x y i0 j0
         (rd h prev i0 j0 1) (rd h prev i0 (j0 + 1) 1)
         (rd h prev (i0 + 1) j0 1) (rd h prev (i0 + 1) (j0 + 1) 1)).

(** The first loop of [project]: every active cell of [div] receives the
    central-difference divergence of the velocity scaled by the cell
    widths [Lx] and [Ly], and every active cell of [p] receives zero.
    Nothing else changes. *)
Definition divergence_computed (g : Grid) (Lx Ly : num) (velX velY div p : loc)
    (h h' : heap) : Prop :=
  length h' = length h ∧
  (∀ Y, Y ≠ div → Y ≠ p → h' !! Y = h !! Y) ∧
  (∀ i j k, ¬ (active (Nx g) i ∧ active (Ny g) j ∧ k = 1) →
            rd h' div i j k = rd h div i j k ∧ rd h' p i j k = rd h p i j k) ∧
  (∀ i j, active (Nx g) i → active (Ny g) j →
     rd h' div i j 1 =
       divergence_rhs Lx Ly (rd h velX (i + 1) j 1) (rd h velX (i - 1) j 1)
                            (rd h velY i (j + 1) 1) (rd h velY i (j - 1) 1) ∧
     rd h' p i j 1 = of_Z 0).

(** The last loop of [project]: the pressure gradient is subtracted from
    both velocity components at every active cell. Nothing else changes. *)
Definition gradient_subtracted (g : Grid) (Lx Ly : num) (velX velY p : loc)
    (h h' : heap) : Prop :=
  length h' = length h ∧
  (∀ Y, Y ≠ velX → Y ≠ velY → h' !! Y = h !! Y) ∧
  (∀ i j k, ¬ (active (Nx g) i ∧ active (Ny g) j ∧ k = 1) →
            rd h' velX i j k = rd h velX i j k ∧
            rd h' velY i j k = rd h velY i j k) ∧
  (∀ i j, active (Nx g) i → active (Ny g) j →
     rd h' velX i j 1 =
       gradient_rhs Lx (rd h velX i j 1) (rd h p (i + 1) j 1) (rd h p (i - 1) j 1) ∧
     rd h' velY i j 1 =
       gradient_rhs Ly (rd h velY i j 1) (rd h p i (j + 1) 1) (rd h p i (j - 1) 1)).

(** [n] steps of a relation, one after the other. *)
Fixpoint iterated (n : nat) (R : heap → heap → Prop) (h h' : heap) : Prop :=
  match n with
  | O => h' = h
  | S n' => ∃ m, R h m ∧ iterated n' R m h'
  end.

(** The steps [step d] for the dimensions [d] of a list, in the order of
    the list. *)
Fixpoint in_turn (ds : list Z) (step : Z → heap → heap → Prop) (h h' : heap) : Prop :=
  match ds with
  | [] => h' = h
  | d :: ds' => ∃ m, step d h m ∧ in_turn ds' step m h'
  end.

(** Total correctness of a computation. *)
Definition hoare {A} (P : heap → Prop) (m : M A) (Q : A → heap → Prop) : Prop :=
  ∀ h, P h → ∃ a h', m h = Some (a, h') ∧ Q a h'.

End Solver.

Arguments M : clear implicits.

Notation "x <- m ;; k" := (bind m (λ x, k))
  (at level 100, m at next level, right associativity).
Notation "m ;;; k" := (bind m (λ _, k))
  (at level 100, right associativity).
Arguments Simulator : clear implicits.

(** The floors of the clamped coordinates that the velocity
    [(velX, velY)] gives for the active cells are indices of the grid: the
    condition under which every read of [advect] is inside its arrays. *)
Definition samples_in_grid {num : Type} `{Number num}
    (g : Grid) (h : heap num) (velX velY : loc) : Prop :=
  ∀ i j, active (Nx g) i → active (Ny g) j →
    let x0 := (of_Z i - of_Z (Nx g) * rd h velX i j 1)%num in
    let x1 := if (x0 <? half)%num then half else x0 in
    let x := if (x1 >? of_Z (Nx g) + half)%num then (of_Z (Nx g) + half)%num else x1 in
    let y0 := (of_Z j - of_Z (Ny g) * rd h velY i j 1)%num in
    let y1 := if (y0 <? half)%num then half else y0 in
    let y := if (y1 >? of_Z (Ny g) + half)%num then (of_Z (Ny g) + half)%num else y1 in
    0 ≤ nfloor x ≤ Nx g ∧ 0 ≤ nfloor y ≤ Ny g.

(** ** A small simulator over the rationals, on which the results are
    exercised: a grid of 2 x 2 active cells and eleven fields whose cells
    all hold different values. *)

Definition demo_grid : Grid :=
  {| Nx := 2; Ny := 2; Nz := 1;
     vel := [0; 1; 2]%nat; prev_vel := [3; 4; 5]%nat;
     dens := 6%nat; prev_dens := 7%nat |}.

Definition demo_sim : Simulator Q :=
  {| diff := (1 # 10)%Q; visc := (1 # 10)%Q; timeStep := (1 # 10)%Q;
     grid := demo_grid; v_src := [8; 9; 10]%nat |}.

Definition demo_field (s : Z) : field Q :=
  (λ i, (λ j, (λ k, inject_Z (64 * s + 16 * i + 4 * j + k)) <$> seqZ 0 3)
          <$> seqZ 0 4) <$> seqZ 0 4.

Definition demo_heap : heap Q := demo_field <$> seqZ 0 11.

(** The demo heap with another value in the corner [(0, 0)] of the plane
    [k = 1] of its first field. *)
Definition demo_heap_border : heap Q :=
  match cell_upd (demo_field 0) 0 0 1 (999 # 1)%Q with
  | Some f => <[0%nat := f]> demo_heap
  | None => demo_heap
  end.

(** The demo heap with a velocity that is zero everywhere. *)
Definition demo_heap_at_rest : heap Q :=
  replicate 3 (zeros3d 4 4 3) ++ drop 3 demo_heap.

(** ** A small simulator over the numbers without rounding, for the runs
    in which a field holds NaN: the same grid, no viscosity and no
    diffusion, and eleven fields of zeros. *)

Definition js_sim : Simulator js :=
  {| diff := Fin 0; visc := Fin 0; timeStep := Fin (1 # 10);
     grid := demo_grid; v_src := [8; 9; 10]%nat |}.

Definition js_heap : heap js := replicate 11 (zeros3d 4 4 3).

(** The heap [h] after the assignment [X[i][j][k] = v]. *)
Definition poke {num : Type} `{Number num} (h : heap num) (X : loc) (i j k : Z)
    (v : num) : heap num :=
  match put X i j k v h with
  | Some (_, h') => h'
  | None => h
  end.

(** The heap of zeros with NaN in the cell [(1, 1)] of the X component of
    the velocity. *)
Definition js_heap_NaN : heap js := poke js_heap 0%nat 1 1 1 NaN.

(** The heap of zeros with plus infinity in the cell [(1, 1)] of the X
    component of the velocity. *)
Definition js_heap_infinite : heap js := poke js_heap 0%nat 1 1 1 PInf.

(** The heap of zeros with NaN in the cell [(2, 2)] of the Y component of
    the velocity. *)
Definition js_heap_NaN_last : heap js := poke js_heap 1%nat 2 2 1 NaN.

(** The heap of zeros whose previous density holds 7 in the cell [(1, 1)]
    and NaN in the cell [(1, 2)] above it. *)
Definition js_heap_NaN_beside : heap js :=
  poke (poke js_heap 7%nat 1 1 1 (Fin 7)) 7%nat 1 2 1 NaN.

(** The plane [k = 1] of the field [X] after a run, in lowest terms; the
    empty list when the run stopped with an error. *)
Definition plane (n : Z) (r : option (unit * heap Q)) (X : loc) : list (list Q) :=
  match r with
  | Some (_, h) => (λ i, (λ j, Qred (rd h X i j 1)) <$> seqZ 0 (n + 2)) <$> seqZ 0 (n + 2)
  | None => []
  end.

(** The configurations that the specification calls invalid: a
    non-positive grid resolution, a non-positive time step, or a negative
    viscosity or diffusion. *)
Definition invalid_config (N : Z) (visc diff timeStep : Q) : Prop :=
  N ≤ 0 ∨ (timeStep <= 0)%Q ∨ (visc < 0)%Q ∨ (diff < 0)%Q.

(** ** The density step *)

Section DensityStep.
Context {num : Type} `{Number num}.

(** Modelled from the spec: [swapD], like [swapV] a method of the Grid
    object, exchanges the two density references. *)
Definition swapD (g : Grid) : Grid :=
  {| Nx := Nx g; Ny := Ny g; Nz := Nz g;
     vel := vel g; prev_vel := prev_vel g;
     dens := prev_dens g; prev_dens := dens g |}.

(** [dStep()], lines 202-211. The result is the simulator after the two
    swaps. *)
Definition dStep (this : Simulator num) : M num (Simulator num) :=
  addSource this (dens (grid this)) (prev_dens (grid this)) ;;;
  let this := with_grid this (swapD (grid this)) in
  diffuse this (dens (grid this)) (prev_dens (grid this)) (diff this)
    BOUNDARY_MIRROR ;;;
  let this := with_grid this (swapD (grid this)) in
  advect this (dens (grid this)) (prev_dens (grid this)) (vel (grid this))
    BOUNDARY_MIRROR ;;;
  ret this.

End DensityStep.

(** ** Planes of a field over the rationals *)

(** Every allocated cell of the plane is zero. *)
Definition plane_zero (g : Grid) (h : heap Q) (X : loc) : Prop :=
  ∀ a b, in_grid (Nx g) a → in_grid (Ny g) b → (rd h X a b 1 == 0)%Q.

(** ** The mouse state of the UI object (ui.js) *)

(** [this.source]: not set by the constructor, later an object [{x, y}]. *)
Inductive js_source : Type :=
  | Unset
  | Position (x y : Z).

(** What [getSource] returns: [null] or the value of [this.source]. *)
Inductive js_result : Type :=
  | Null
  | Source (s : js_source).

(** The fields of the UI object that the mouse handlers read and write. *)
Record UI : Type := mkUI {
  mouse_dragging : bool;
  source : js_source
}.

(** A mouse event: the page coordinates of the pointer, and what
    [$(this.canvas).position()] returns when the event is handled. *)
Record MouseEvent : Type := mkMouseEvent {
  pageX : Q;
  pageY : Q;
  canvas_left : Q;
  canvas_top : Q
}.

(** The mouse state after the constructor, line 19. *)
Definition UI_new : UI := {| mouse_dragging := false; source := Unset |}.

(** [getPositionOnCanvas(event)], lines 86-90. *)
Definition getPositionOnCanvas (event : MouseEvent) : Z * Z :=
  (Qfloor (pageX event - canvas_left event),
   Qfloor (pageY event - canvas_top event)).

(** [mousemove(event)], lines 104-108. *)
Definition mousemove (ui : UI) (event : MouseEvent) : UI :=
  if negb (mouse_dragging ui) then ui
  else {| mouse_dragging := mouse_dragging ui;
          source := Position (fst (getPositionOnCanvas event))
                             (snd (getPositionOnCanvas event)) |}.

(** [mousedown(event)], lines 93-96. *)
Definition mousedown (ui : UI) (event : MouseEvent) : UI :=
  mousemove {| mouse_dragging := true; source := source ui |} event.

(** [mouseup(event)], lines 99-101. *)
Definition mouseup (ui : UI) (event : MouseEvent) : UI :=
  {| mouse_dragging := false; source := source ui |}.

(** [getSource()], lines 111-116. *)
Definition getSource (ui : UI) : js_result :=
  if mouse_dragging ui then Source (source ui) else Null.

(** The three listeners of lines 74-82 and the effect of a sequence of
    mouse events on the UI object. *)
Inductive MouseAction : Type :=
  | Down (event : MouseEvent)
  | Up (event : MouseEvent)
  | Move (event : MouseEvent).

Definition event_of (a : MouseAction) : MouseEvent :=
  match a with Down event | Up event | Move event => event end.

Definition handle (ui : UI) (a : MouseAction) : UI :=
  match a with
  | Down event => mousedown ui event
  | Up event => mouseup ui event
  | Move event => mousemove ui event
  end.

Definition handle_all (ui : UI) (actions : list MouseAction) : UI :=
  fold_left handle actions ui.

(** Whether the button is held after a sequence of actions: the last
    action that is not a move is a press. *)
Fixpoint held (actions : list MouseAction) (before : bool) : bool :=
  match actions with
  | [] => before
  | Down _ :: rest => held rest true
  | Up _ :: rest => held rest false
  | Move _ :: rest => held rest before
  end.

(** * Proofs *)

(** ** Arrays *)

Section Arrays.
Context {A : Type}.
Implicit Types (l : list A) (i j : Z) (x : A).

Lemma idx_Some l i x : idx l i = Some x ↔ 0 ≤ i ∧ l !! Z.to_nat i = Some x.
Proof.
  unfold idx. destruct (Z.ltb_spec i 0); [| by intuition].
  split; [done | lia].
Qed.

Lemma idx_is_Some l i : is_Some (idx l i) ↔ 0 ≤ i < Z.of_nat (length l).
Proof.
  unfold is_Some. setoid_rewrite idx_Some. split.
  - intros (x & ? & Hx). apply lookup_lt_Some in Hx. lia.
  - intros [? ?]. destruct (lookup_lt_is_Some_2 l (Z.to_nat i)) as [x Hx]; [lia |].
    eauto.
Qed.

Lemma idx_upd_eq l i x : 0 ≤ i < Z.of_nat (length l) → idx (upd l i x) i = Some x.
Proof.
  intros. apply idx_Some. split; [lia |].
  unfold upd. apply list_lookup_insert_eq. lia.
Qed.

Lemma idx_upd_ne l i j x : 0 ≤ i → i ≠ j → idx (upd l i x) j = idx l j.
Proof.
  intros. unfold idx, upd. destruct (Z.ltb_spec j 0); [done |].
  apply list_lookup_insert_ne. lia.
Qed.

Lemma length_upd l i x : length (upd l i x) = length l.
Proof. apply length_insert. Qed.

Lemma forallb_upd (P : A → bool) l i x y :
  idx l i = Some y → P x = P y → forallb P (upd l i x) = forallb P l.
Proof.
  intros [Hi Hl]%idx_Some HP. unfold upd. revert Hl. generalize (Z.to_nat i).
  induction l as [| z l IH]; intros [| n]; simpl; intros Hl; try done.
  - injection Hl as ->. by rewrite HP.
  - by rewrite IH.
Qed.

Lemma forallb_idx (P : A → bool) l i x :
  forallb P l = true → idx l i = Some x → P x = true.
Proof.
  intros Hall [_ Hl]%idx_Some. rewrite forallb_forall in Hall.
  apply Hall. apply list_elem_of_In. eapply list_elem_of_lookup_2, Hl.
Qed.

End Arrays.

(** ** Fields and heaps *)

Section Heaps.
Context {num : Type} `{Number num}.
Implicit Types (f : field num) (h : heap num) (g : Grid) (X Y : loc)
  (i j k a b c : Z) (v : num).

Lemma shape_ok_rows g f i r :
  shape_ok g f = true → idx f i = Some r →
  Z.of_nat (length r) = Ny g + 2 ∧
  forallb (λ col, Z.of_nat (length col) =? Nz g + 2) r = true.
Proof.
  unfold shape_ok. intros [_ Hrows]%andb_true_iff Hr.
  pose proof (forallb_idx _ _ _ _ Hrows Hr) as [? ?]%andb_true_iff.
  split; [lia | done].
Qed.

Lemma shape_ok_cols g f i j r col :
  shape_ok g f = true → idx f i = Some r → idx r j = Some col →
  Z.of_nat (length col) = Nz g + 2.
Proof.
  intros Hf Hr Hc. destruct (shape_ok_rows _ _ _ _ Hf Hr) as [_ Hcols].
  pose proof (forallb_idx _ _ _ _ Hcols Hc). simpl in *. lia.
Qed.

Lemma shape_ok_length g f : shape_ok g f = true → Z.of_nat (length f) = Nx g + 2.
Proof. unfold shape_ok. intros [? _]%andb_true_iff. lia. Qed.

Lemma cell_upd_spec g f i j k v :
  shape_ok g f = true →
  in_grid (Nx g) i → in_grid (Ny g) j → in_grid (Nz g) k →
  ∃ f', cell_upd f i j k v = Some f' ∧ shape_ok g f' = true ∧
        cell f' i j k = Some v ∧
        ∀ a b c, a ≠ i ∨ b ≠ j ∨ c ≠ k → cell f' a b c = cell f a b c.
Proof.
  unfold in_grid. intros Hf Hi Hj Hk.
  pose proof (shape_ok_length _ _ Hf) as Hlen.
  destruct (proj2 (idx_is_Some f i)) as [r Hr]; [lia |].
  destruct (shape_ok_rows _ _ _ _ Hf Hr) as [Hrlen Hcols].
  destruct (proj2 (idx_is_Some r j)) as [col Hc]; [lia |].
  pose proof (shape_ok_cols _ _ _ _ _ _ Hf Hr Hc) as Hclen.
  destruct (proj2 (idx_is_Some col k)) as [w Hw]; [lia |].
  eexists. unfold cell_upd. rewrite Hr. simpl. rewrite Hc. simpl.
  rewrite Hw. simpl. split; [done |]. split; [| split].
  - unfold shape_ok in *. apply andb_true_iff in Hf as [Hl Hrows].
    rewrite length_upd, Hl. simpl.
    rewrite (forallb_upd _ _ _ _ _ Hr); [done |].
    rewrite length_upd. f_equal.
    rewrite (forallb_upd _ _ _ _ _ Hc); [done |].
    by rewrite length_upd.
  - unfold cell. rewrite idx_upd_eq by lia. simpl.
    rewrite idx_upd_eq by lia. simpl. apply idx_upd_eq. lia.
  - intros a b c Hne. unfold cell.
    destruct (decide (a = i)) as [-> |];
      [| by rewrite idx_upd_ne by lia].
    rewrite idx_upd_eq by lia. rewrite Hr. simpl.
    destruct (decide (b = j)) as [-> |];
      [| by rewrite idx_upd_ne by lia].
    rewrite idx_upd_eq by lia. rewrite Hc. simpl.
    apply idx_upd_ne; lia.
Qed.

Lemma cell_in_grid g f i j k :
  shape_ok g f = true →
  in_grid (Nx g) i → in_grid (Ny g) j → in_grid (Nz g) k →
  is_Some (cell f i j k).
Proof.
  unfold in_grid. intros Hf Hi Hj Hk.
  pose proof (shape_ok_length _ _ Hf) as Hlen.
  destruct (proj2 (idx_is_Some f i)) as [r Hr]; [lia |].
  destruct (shape_ok_rows _ _ _ _ Hf Hr) as [Hrlen Hcols].
  destruct (proj2 (idx_is_Some r j)) as [col Hc]; [lia |].
  pose proof (shape_ok_cols _ _ _ _ _ _ Hf Hr Hc) as Hclen.
  unfold cell. rewrite Hr. simpl. rewrite Hc. simpl.
  apply idx_is_Some. lia.
Qed.

Lemma wf_grid g h : wf g h = true → 1 ≤ Nx g ∧ 1 ≤ Ny g ∧ 0 ≤ Nz g.
Proof. unfold wf. rewrite !andb_true_iff. lia. Qed.

Lemma wf_lookup g h X :
  wf g h = true → (X < length h)%nat →
  ∃ f, h !! X = Some f ∧ shape_ok g f = true.
Proof.
  unfold wf. rewrite !andb_true_iff. intros [_ Hall] HX.
  destruct (lookup_lt_is_Some_2 h X HX) as [f Hf]. exists f. split; [done |].
  rewrite forallb_forall in Hall. apply Hall, list_elem_of_In.
  eapply list_elem_of_lookup_2, Hf.
Qed.

Lemma wf_insert g h X f :
  wf g h = true → shape_ok g f = true → wf g (<[X := f]> h) = true.
Proof.
  unfold wf. rewrite !andb_true_iff. intros [Hg Hall] Hf. split; [done |].
  rewrite forallb_forall in *. intros f' Hin%list_elem_of_In.
  apply list_elem_of_lookup_1 in Hin as [Y HY].
  destruct (decide (X = Y)) as [-> |].
  - destruct (decide (Y < length h)%nat).
    + rewrite list_lookup_insert_eq in HY by done. by injection HY as <-.
    + rewrite list_insert_ge in HY by lia.
      apply Hall, list_elem_of_In. eapply list_elem_of_lookup_2, HY.
  - rewrite list_lookup_insert_ne in HY by done.
    apply Hall, list_elem_of_In. eapply list_elem_of_lookup_2, HY.
Qed.

(** Reading an allocated cell succeeds and leaves the heap as it is. *)
Lemma get_ok g h X i j k :
  wf g h = true → (X < length h)%nat →
  in_grid (Nx g) i → in_grid (Ny g) j → in_grid (Nz g) k →
  get X i j k h = Some (rd h X i j k, h).
Proof.
  intros Hwf HX Hi Hj Hk. destruct (wf_lookup _ _ _ Hwf HX) as (f & Hf & Hs).
  destruct (cell_in_grid _ _ _ _ _ Hs Hi Hj Hk) as [v Hv].
  unfold get, rd. rewrite Hf. simpl. by rewrite Hv.
Qed.

(** Writing an allocated cell succeeds and changes that cell only. *)
Lemma put_ok g h X i j k v :
  wf g h = true → (X < length h)%nat →
  in_grid (Nx g) i → in_grid (Ny g) j → in_grid (Nz g) k →
  ∃ h', put X i j k v h = Some (tt, h') ∧
        wf g h' = true ∧ length h' = length h ∧
        (∀ Y, Y ≠ X → h' !! Y = h !! Y) ∧
        rd h' X i j k = v ∧
        (∀ a b c, a ≠ i ∨ b ≠ j ∨ c ≠ k → rd h' X a b c = rd h X a b c).
Proof.
  intros Hwf HX Hi Hj Hk. destruct (wf_lookup _ _ _ Hwf HX) as (f & Hf & Hs).
  destruct (cell_upd_spec _ _ _ _ _ v Hs Hi Hj Hk) as (f' & Hu & Hs' & Hv & Hfr).
  exists (<[X := f']> h). unfold put. rewrite Hf. simpl. rewrite Hu. simpl.
  split; [done |]. split; [by apply wf_insert |].
  split; [apply length_insert |]. split; [| split].
  - intros Y HY. by apply list_lookup_insert_ne.
  - unfold rd. rewrite list_lookup_insert_eq by done. simpl. by rewrite Hv.
  - intros a b c Hne. unfold rd. rewrite list_lookup_insert_eq by done.
    rewrite Hf. simpl. by rewrite Hfr.
Qed.

Lemma rd_frame h h' X i j k : h' !! X = h !! X → rd h' X i j k = rd h X i j k.
Proof. unfold rd. by intros ->. Qed.

End Heaps.

(** ** Running the monad *)

Section Running.
Context {num : Type} `{Number num}.
Implicit Types (h : heap num) (g : Grid) (X Y : loc) (i j k a b c : Z) (v : num).

Lemma hoare_ret {A} (P : heap num → Prop) (x : A) : hoare P (ret x) (λ _, P).
Proof. intros h HP. by exists x, h. Qed.

Lemma hoare_bind {A B} (P : heap num → Prop) (Q : A → heap num → Prop)
    (R : B → heap num → Prop) (m : M num A) (f : A → M num B) :
  hoare P m Q → (∀ x, hoare (Q x) (f x) R) → hoare P (bind m f) R.
Proof.
  intros Hm Hf h HP. destruct (Hm h HP) as (x & h1 & Hrun & HQ).
  destruct (Hf x h1 HQ) as (y & h2 & Hrun2 & HR).
  exists y, h2. unfold bind. by rewrite Hrun.
Qed.

Lemma hoare_conseq {A} (P P' : heap num → Prop) (Q Q' : A → heap num → Prop)
    (m : M num A) :
  (∀ h, P' h → P h) → (∀ x h, Q x h → Q' x h) → hoare P m Q → hoare P' m Q'.
Proof.
  intros HP HQ Hm h Hh. destruct (Hm h (HP h Hh)) as (x & h1 & Hrun & Hpost).
  exists x, h1. auto.
Qed.

(** A loop with invariant [I]: [I i] holds before the iteration for [i]. *)
Lemma hoare_for_each (I : Z → heap num → Prop) (body : Z → M num unit) n lo :
  (∀ i, lo ≤ i < lo + Z.of_nat n → hoare (I i) (body i) (λ _, I (i + 1))) →
  hoare (I lo) (for_each (seqZ lo (Z.of_nat n)) body) (λ _, I (lo + Z.of_nat n)).
Proof.
  revert lo. induction n as [| n IH]; intros lo Hbody.
  - rewrite seqZ_nil by lia. simpl. replace (lo + Z.of_nat 0) with lo by lia.
    apply hoare_ret.
  - rewrite seqZ_cons by lia. simpl.
    eapply hoare_bind; [apply Hbody; lia |]. intros [].  simpl.
    replace (Z.pred (Z.of_nat (S n))) with (Z.of_nat n) by lia.
    replace (lo + Z.of_nat (S n)) with (Z.succ lo + Z.of_nat n) by lia.
    replace (lo + 1) with (Z.succ lo) by lia.
    apply IH. intros i Hi. apply Hbody. lia.
Qed.

Lemma hoare_for_le (I : Z → heap num → Prop) (body : Z → M num unit) lo hi :
  lo ≤ hi + 1 →
  (∀ i, lo ≤ i ≤ hi → hoare (I i) (body i) (λ _, I (i + 1))) →
  hoare (I lo) (for_le lo hi body) (λ _, I (hi + 1)).
Proof.
  intros Hle Hbody. unfold for_le.
  pose proof (hoare_for_each I body (Z.to_nat (hi + 1 - lo)) lo) as Hloop.
  rewrite Z2Nat.id in Hloop by lia.
  replace (lo + (hi + 1 - lo)) with (hi + 1) in Hloop by lia.
  apply Hloop. intros i Hi. apply Hbody. lia.
Qed.

Lemma hoare_for_lt (I : Z → heap num → Prop) (body : Z → M num unit) lo hi :
  lo ≤ hi →
  (∀ i, lo ≤ i < hi → hoare (I i) (body i) (λ _, I (i + 1))) →
  hoare (I lo) (for_lt lo hi body) (λ _, I hi).
Proof.
  intros Hle Hbody. unfold for_lt.
  pose proof (hoare_for_each I body (Z.to_nat (hi - lo)) lo) as Hloop.
  rewrite Z2Nat.id in Hloop by lia.
  replace (lo + (hi - lo)) with hi in Hloop by lia.
  apply Hloop. intros i Hi. apply Hbody. lia.
Qed.

(** Symbolic execution of a read, of a write and of the selection of a
    component in front of a continuation. *)
Lemma bind_get {B} g h X i j k (f : num → M num B) :
  wf g h = true → (X < length h)%nat →
  in_grid (Nx g) i → in_grid (Ny g) j → in_grid (Nz g) k →
  bind (get X i j k) f h = f (rd h X i j k) h.
Proof. intros. unfold bind. by erewrite get_ok. Qed.

Lemma bind_put {B} g h X i j k v (f : unit → M num B) :
  wf g h = true → (X < length h)%nat →
  in_grid (Nx g) i → in_grid (Ny g) j → in_grid (Nz g) k →
  ∃ h', bind (put X i j k v) f h = f tt h' ∧
        wf g h' = true ∧ length h' = length h ∧
        (∀ Y, Y ≠ X → h' !! Y = h !! Y) ∧
        (∀ a b c, rd h' X a b c =
                  if decide (a = i ∧ b = j ∧ c = k) then v else rd h X a b c).
Proof.
  intros Hwf HX Hi Hj Hk.
  destruct (put_ok g h X i j k v Hwf HX Hi Hj Hk)
    as (h' & Hrun & Hwf' & Hlen & Hfr & Hnew & Hold).
  exists h'. split; [unfold bind; by rewrite Hrun |].
  repeat split; try done.
  intros a b c. case_decide as Hc.
  - by destruct Hc as (-> & -> & ->).
  - apply Hold. lia.
Qed.

Lemma bind_run {A B} (m : M num A) (f : A → M num B) h x h' :
  m h = Some (x, h') → bind m f h = f x h'.
Proof. intros Hrun. unfold bind. by rewrite Hrun. Qed.

Lemma bind_component {B} (vs : list loc) d X h (f : loc → M num B) :
  idx vs d = Some X → bind (component vs d) f h = f X h.
Proof. intros Hd. unfold bind, component. by rewrite Hd. Qed.

End Running.

(** ** The boundary fill *)

Ltac grid_bounds := unfold in_grid, active in *; lia.

(** Case analysis on the position of a cell in the closed form of the fill. *)
Ltac corner_cases :=
  unfold boundary_filled; cbv zeta; repeat (case_decide; try lia).
Ltac fill_cases :=
  unfold boundary_filled, edges_filled, active in *; cbv zeta;
  repeat (case_decide; try lia); try done.

Section Boundary.
Context {num : Type} `{Number num}.
Implicit Types (h : heap num) (g : Grid) (X Y : loc) (i j k a b c : Z) (v : num).

(** One iteration of an edge pass: two cells are read and two are written. *)
Lemma edge_step g X h (ev : num → num) i1 j1 i2 j2 i3 j3 i4 j4 :
  wf g h = true → (X < length h)%nat →
  in_grid (Nx g) i1 → in_grid (Ny g) j1 → in_grid (Nx g) i2 → in_grid (Ny g) j2 →
  in_grid (Nx g) i3 → in_grid (Ny g) j3 → in_grid (Nx g) i4 → in_grid (Ny g) j4 →
  i3 ≠ i2 ∨ j3 ≠ j2 →
  ∃ h', (x <- get X i1 j1 1 ;; put X i2 j2 1 (ev x) ;;;
         y <- get X i3 j3 1 ;; put X i4 j4 1 (ev y)) h = Some (tt, h') ∧
        wf g h' = true ∧ length h' = length h ∧
        (∀ Y, Y ≠ X → h' !! Y = h !! Y) ∧
        (∀ a b c, rd h' X a b c =
           if decide (a = i4 ∧ b = j4 ∧ c = 1) then ev (rd h X i3 j3 1)
           else if decide (a = i2 ∧ b = j2 ∧ c = 1) then ev (rd h X i1 j1 1)
           else rd h X a b c).
Proof.
  intros Hwf HX ? ? ? ? ? ? ? ? Hne.
  pose proof (wf_grid _ _ Hwf) as (? & ? & ?).
  rewrite (bind_get g) by (done || grid_bounds).
  destruct (bind_put g h X i2 j2 1 (ev (rd h X i1 j1 1))
              (λ _, y <- get X i3 j3 1 ;; put X i4 j4 1 (ev y)))
    as (h1 & -> & Hwf1 & Hlen1 & Hfr1 & Hrd1); try (done || grid_bounds).
  rewrite (bind_get g) by (done || grid_bounds || congruence).
  destruct (put_ok g h1 X i4 j4 1 (ev (rd h1 X i3 j3 1)))
    as (h2 & -> & Hwf2 & Hlen2 & Hfr2 & Hnew2 & Hold2);
    try (done || grid_bounds || congruence).
  exists h2. split; [done |]. split; [done |]. split; [congruence |].
  split; [intros Y HY; rewrite Hfr2, Hfr1; done |].
  intros a b c. case_decide as Hc.
  - destruct Hc as (-> & -> & ->). rewrite Hnew2, Hrd1.
    case_decide; [lia | done].
  - rewrite Hold2 by lia. apply Hrd1.
Qed.

(** The assignment of one corner. *)
Lemma corner_step g X h i1 j1 i2 j2 i3 j3 :
  wf g h = true → (X < length h)%nat →
  in_grid (Nx g) i1 → in_grid (Ny g) j1 → in_grid (Nx g) i2 → in_grid (Ny g) j2 →
  in_grid (Nx g) i3 → in_grid (Ny g) j3 →
  ∃ h', (x <- get X i1 j1 1 ;; y <- get X i2 j2 1 ;;
         put X i3 j3 1 (half * (x + y))%num) h = Some (tt, h') ∧
        wf g h' = true ∧ length h' = length h ∧
        (∀ Y, Y ≠ X → h' !! Y = h !! Y) ∧
        (∀ a b c, rd h' X a b c =
           if decide (a = i3 ∧ b = j3 ∧ c = 1)
           then (half * (rd h X i1 j1 1 + rd h X i2 j2 1))%num
           else rd h X a b c).
Proof.
  intros Hwf HX ? ? ? ? ? ?.
  pose proof (wf_grid _ _ Hwf) as (? & ? & ?).
  rewrite (bind_get g) by (done || grid_bounds).
  rewrite (bind_get g) by (done || grid_bounds).
  destruct (bind_put g h X i3 j3 1 (half * (rd h X i1 j1 1 + rd h X i2 j2 1))%num ret)
    as (h1 & Hrun & Hwf1 & Hlen1 & Hfr1 & Hrd1); try (done || grid_bounds).
  exists h1. split; [| done].
  unfold bind, ret in Hrun. destruct (put _ _ _ _ _ h) as [[[] ?] |]; [| done].
  done.
Qed.

(** The pass over the left and right columns, lines 154-163. *)
Lemma left_right_pass g X mode h :
  wf g h = true → (X < length h)%nat →
  hoare (eq h)
    (for_le 1 (Ny g) (λ j,
       if mode =? BOUNDARY_OPPOSE_X then
         (a <- get X 1 j 1 ;; put X 0 j 1 (- a)%num ;;;
          b <- get X (Nx g) j 1 ;; put X (Nx g + 1) j 1 (- b)%num)
       else
         (a <- get X 1 j 1 ;; put X 0 j 1 a ;;;
          b <- get X (Nx g) j 1 ;; put X (Nx g + 1) j 1 b)))
    (λ _ h',
       wf g h' = true ∧ length h' = length h ∧
       (∀ Y, Y ≠ X → h' !! Y = h !! Y) ∧
       (∀ a b c, rd h' X a b c =
          if decide (c = 1 ∧ (a = 0 ∨ a = Nx g + 1) ∧ 1 ≤ b ≤ Ny g)
          then edge_value mode BOUNDARY_OPPOSE_X
                 (rd h X (if decide (a = 0) then 1 else Nx g) b 1)
          else rd h X a b c)).
Proof.
  intros Hwf HX. pose proof (wf_grid _ _ Hwf) as (? & ? & ?).
  eapply hoare_conseq; [| | apply (hoare_for_le (λ j h',
       wf g h' = true ∧ length h' = length h ∧
       (∀ Y, Y ≠ X → h' !! Y = h !! Y) ∧
       (∀ a b c, rd h' X a b c =
          if decide (c = 1 ∧ (a = 0 ∨ a = Nx g + 1) ∧ 1 ≤ b < j)
          then edge_value mode BOUNDARY_OPPOSE_X
                 (rd h X (if decide (a = 0) then 1 else Nx g) b 1)
          else rd h X a b c)))]; [| | lia |].
  - intros h' <-. repeat split; try done.
    intros a b c. case_decide; [lia | done].
  - intros _ h' (Hwf' & Hlen & Hfr & Hrd). repeat split; try done.
    intros a b c. rewrite Hrd. repeat case_decide; (done || lia).
  - intros j Hj h1 (Hwf1 & Hlen1 & Hfr1 & Hrd1).
    destruct (edge_step g X h1 (edge_value mode BOUNDARY_OPPOSE_X)
                1 j 0 j (Nx g) j (Nx g + 1) j)
      as (h2 & Hrun & Hwf2 & Hlen2 & Hfr2 & Hrd2);
      try (done || grid_bounds || congruence).
    exists tt, h2. split.
    { rewrite <- Hrun. unfold edge_value. by destruct (mode =? _). }
    split; [done |]. split; [congruence |].
    split; [intros Y HY; rewrite Hfr2, Hfr1; done |].
    intros a b c. rewrite Hrd2, !Hrd1.
    repeat case_decide; try (done || lia); repeat f_equal; lia.
Qed.

(** The pass over the bottom and top rows, lines 165-174. *)
Lemma bottom_top_pass g X mode h :
  wf g h = true → (X < length h)%nat →
  hoare (eq h)
    (for_le 1 (Nx g) (λ i,
       if mode =? BOUNDARY_OPPOSE_Y then
         (a <- get X i 1 1 ;; put X i 0 1 (- a)%num ;;;
          b <- get X i (Ny g) 1 ;; put X i (Ny g + 1) 1 (- b)%num)
       else
         (a <- get X i 1 1 ;; put X i 0 1 a ;;;
          b <- get X i (Ny g) 1 ;; put X i (Ny g + 1) 1 b)))
    (λ _ h',
       wf g h' = true ∧ length h' = length h ∧
       (∀ Y, Y ≠ X → h' !! Y = h !! Y) ∧
       (∀ a b c, rd h' X a b c =
          if decide (c = 1 ∧ (b = 0 ∨ b = Ny g + 1) ∧ 1 ≤ a ≤ Nx g)
          then edge_value mode BOUNDARY_OPPOSE_Y
                 (rd h X a (if decide (b = 0) then 1 else Ny g) 1)
          else rd h X a b c)).
Proof.
  intros Hwf HX. pose proof (wf_grid _ _ Hwf) as (? & ? & ?).
  eapply hoare_conseq; [| | apply (hoare_for_le (λ i h',
       wf g h' = true ∧ length h' = length h ∧
       (∀ Y, Y ≠ X → h' !! Y = h !! Y) ∧
       (∀ a b c, rd h' X a b c =
          if decide (c = 1 ∧ (b = 0 ∨ b = Ny g + 1) ∧ 1 ≤ a < i)
          then edge_value mode BOUNDARY_OPPOSE_Y
                 (rd h X a (if decide (b = 0) then 1 else Ny g) 1)
          else rd h X a b c)))]; [| | lia |].
  - intros h' <-. repeat split; try done.
    intros a b c. case_decide; [lia | done].
  - intros _ h' (Hwf' & Hlen & Hfr & Hrd). repeat split; try done.
    intros a b c. rewrite Hrd. repeat case_decide; (done || lia).
  - intros i Hi h1 (Hwf1 & Hlen1 & Hfr1 & Hrd1).
    destruct (edge_step g X h1 (edge_value mode BOUNDARY_OPPOSE_Y)
                i 1 i 0 i (Ny g) i (Ny g + 1))
      as (h2 & Hrun & Hwf2 & Hlen2 & Hfr2 & Hrd2);
      try (done || grid_bounds || congruence).
    exists tt, h2. split.
    { rewrite <- Hrun. unfold edge_value. by destruct (mode =? _). }
    split; [done |]. split; [congruence |].
    split; [intros Y HY; rewrite Hfr2, Hfr1; done |].
    intros a b c. rewrite Hrd2, !Hrd1.
    repeat case_decide; try (done || lia); repeat f_equal; lia.
Qed.

(** [setBoundary] computes the closed form [boundary_filled] on the plane
    [k = 1] of [X] and changes nothing else. *)
Lemma setBoundary_fill this X mode_arg h :
  wf (grid this) h = true → (X < length h)%nat →
  ∃ h', setBoundary this X mode_arg h = Some (tt, h') ∧
        wf (grid this) h' = true ∧ length h' = length h ∧
        (∀ Y, Y ≠ X → h' !! Y = h !! Y) ∧
        (∀ a b c, rd h' X a b c =
           if decide (c = 1)
           then boundary_filled (grid this) (default BOUNDARY_MIRROR mode_arg)
                  (λ a' b', rd h X a' b' 1) a b
           else rd h X a b c).
Proof.
  intros Hwf HX. pose proof (wf_grid _ _ Hwf) as (? & ? & ?).
  unfold setBoundary. cbv zeta.
  set (g := grid this) in *. set (mode := default BOUNDARY_MIRROR mode_arg).
  destruct (left_right_pass g X mode h Hwf HX h eq_refl)
    as ([] & h1 & Hrun1 & Hwf1 & Hlen1 & Hfr1 & Hrd1).
  rewrite (bind_run _ _ _ _ _ Hrun1).
  destruct (bottom_top_pass g X mode h1 Hwf1 ltac:(lia) h1 eq_refl)
    as ([] & h2 & Hrun2 & Hwf2 & Hlen2 & Hfr2 & Hrd2).
  rewrite (bind_run _ _ _ _ _ Hrun2).
  destruct (corner_step g X h2 1 0 0 1 0 0)
    as (h3 & Hrun3 & Hwf3 & Hlen3 & Hfr3 & Hrd3); try (done || grid_bounds).
  rewrite (bind_run _ _ _ _ _ Hrun3).
  destruct (corner_step g X h3 1 (Ny g + 1) 0 (Ny g) 0 (Ny g + 1))
    as (h4 & Hrun4 & Hwf4 & Hlen4 & Hfr4 & Hrd4); try (done || grid_bounds).
  rewrite (bind_run _ _ _ _ _ Hrun4).
  destruct (corner_step g X h4 (Nx g) 0 (Nx g + 1) 1 (Nx g + 1) 0)
    as (h5 & Hrun5 & Hwf5 & Hlen5 & Hfr5 & Hrd5); try (done || grid_bounds).
  rewrite (bind_run _ _ _ _ _ Hrun5).
  destruct (corner_step g X h5 (Nx g) (Ny g + 1) (Nx g + 1) (Ny g) (Nx g + 1) (Ny g + 1))
    as (h6 & Hrun6 & Hwf6 & Hlen6 & Hfr6 & Hrd6); try (done || grid_bounds).
  exists h6. split; [done |]. split; [done |]. split; [lia |].
  split; [intros Y HY; rewrite Hfr6, Hfr5, Hfr4, Hfr3, Hfr2, Hfr1; done |].
  assert (Hedges : ∀ a b, rd h2 X a b 1 =
            edges_filled g mode (λ a' b', rd h X a' b' 1) a b).
  { intros a b. rewrite Hrd2, !Hrd1. unfold edges_filled.
    repeat (case_decide; try lia); try done. }
  assert (Hother : ∀ a b c, c ≠ 1 → rd h2 X a b c = rd h X a b c).
  { intros a b c Hc. rewrite Hrd2, !Hrd1. repeat (case_decide; try lia); done. }
  rewrite (Hrd5 (Nx g) (Ny g + 1) 1), (Hrd4 (Nx g) (Ny g + 1) 1),
    (Hrd3 (Nx g) (Ny g + 1) 1), (Hrd5 (Nx g + 1) (Ny g) 1),
    (Hrd4 (Nx g + 1) (Ny g) 1), (Hrd3 (Nx g + 1) (Ny g) 1) in Hrd6.
  rewrite (Hrd4 (Nx g) 0 1), (Hrd3 (Nx g) 0 1),
    (Hrd4 (Nx g + 1) 1 1), (Hrd3 (Nx g + 1) 1 1) in Hrd5.
  rewrite (Hrd3 1 (Ny g + 1) 1), (Hrd3 0 (Ny g) 1) in Hrd4.
  repeat (case_decide; try lia).
  intros a b c. rewrite Hrd6, Hrd5, Hrd4, Hrd3.
  destruct (decide (c = 1)) as [-> | Hc].
  - rewrite !Hedges. unfold boundary_filled. cbv zeta. fold g.
    repeat (case_decide; try lia); done.
  - repeat (case_decide; try lia). by apply Hother.
Qed.

(** The fill leaves the active cells as they are. *)
Lemma setBoundary_interior this X mode_arg h :
  wf (grid this) h = true → (X < length h)%nat →
  ∃ h', setBoundary this X mode_arg h = Some (tt, h') ∧
    wf (grid this) h' = true ∧ length h' = length h ∧
    (∀ i j k, active (Nx (grid this)) i → active (Ny (grid this)) j →
              rd h' X i j k = rd h X i j k) ∧
    (∀ Y, Y ≠ X → h' !! Y = h !! Y).
Proof.
  intros Hwf HX. pose proof (wf_grid _ _ Hwf) as (? & ? & ?).
  destruct (setBoundary_fill this X mode_arg h Hwf HX)
    as (h' & Hrun & Hwf' & Hlen' & Hfr & Hrd).
  exists h'. split; [done |]. split; [done |]. split; [done |]. split; [| done].
  intros i j k Hi Hj. rewrite Hrd. case_decide as Hk; [subst k | done].
  fill_cases.
Qed.

End Boundary.

(** C4: after [setBoundary(field, mode)] returns, for every active [j] the
    cells [field[0][j]] and [field[N+1][j]] hold the opposites of
    [field[1][j]] and [field[N][j]] when the mode is OPPOSE_X and copies of
    them otherwise; the same holds for the bottom and top rows with
    OPPOSE_Y; and each corner is the average of its two adjacent edge
    cells, whatever the mode. The call returns on every heap whose fields
    have the dimensions of the grid. *)
Theorem setBoundary_edges_and_corners {num : Type} `{Number num}
    (this : Simulator num) (X : loc) (mode_arg : option Z) (h : heap num) :
  wf (grid this) h = true → (X < length h)%nat →
  ∃ h', setBoundary this X mode_arg h = Some (tt, h') ∧
    wf (grid this) h' = true ∧ length h' = length h ∧
    let mode := default BOUNDARY_MIRROR mode_arg in
    let lastX := Nx (grid this) in
    let lastY := Ny (grid this) in
    let edgeX := lastX + 1 in
    let edgeY := lastY + 1 in
    (∀ j, active lastY j →
       rd h' X 0 j 1 = edge_value mode BOUNDARY_OPPOSE_X (rd h' X 1 j 1) ∧
       rd h' X edgeX j 1 = edge_value mode BOUNDARY_OPPOSE_X (rd h' X lastX j 1)) ∧
    (∀ i, active lastX i →
       rd h' X i 0 1 = edge_value mode BOUNDARY_OPPOSE_Y (rd h' X i 1 1) ∧
       rd h' X i edgeY 1 = edge_value mode BOUNDARY_OPPOSE_Y (rd h' X i lastY 1)) ∧
    rd h' X 0 0 1 = (half * (rd h' X 1 0 1 + rd h' X 0 1 1))%num ∧
    rd h' X 0 edgeY 1 = (half * (rd h' X 1 edgeY 1 + rd h' X 0 lastY 1))%num ∧
    rd h' X edgeX 0 1 = (half * (rd h' X lastX 0 1 + rd h' X edgeX 1 1))%num ∧
    rd h' X edgeX edgeY 1 =
      (half * (rd h' X lastX edgeY 1 + rd h' X edgeX lastY 1))%num.
Proof.
  intros Hwf HX. pose proof (wf_grid _ _ Hwf) as (? & ? & ?).
  destruct (setBoundary_fill this X mode_arg h Hwf HX)
    as (h' & Hrun & Hwf' & Hlen' & _ & Hrd).
  exists h'. split; [done |]. split; [done |]. split; [done |]. cbv zeta.
  assert (Hplane : ∀ a b, rd h' X a b 1 =
            boundary_filled (grid this) (default BOUNDARY_MIRROR mode_arg)
              (λ a' b', rd h X a' b' 1) a b).
  { intros a b. rewrite Hrd. by case_decide. }
  repeat split.
  - rewrite !Hplane. fill_cases.
  - rewrite !Hplane. fill_cases.
  - rewrite !Hplane. fill_cases.
  - rewrite !Hplane. fill_cases.
  - rewrite (Hplane 0 0). corner_cases.
    do 2 f_equal; rewrite Hplane; corner_cases; done.
  - rewrite (Hplane 0 (Ny (grid this) + 1)). corner_cases.
    do 2 f_equal; rewrite Hplane; corner_cases; done.
  - rewrite (Hplane (Nx (grid this) + 1) 0). corner_cases.
    do 2 f_equal; rewrite Hplane; corner_cases; done.
  - rewrite (Hplane (Nx (grid this) + 1) (Ny (grid this) + 1)). corner_cases.
    do 2 f_equal; rewrite Hplane; corner_cases; done.
Qed.

(** ** A loop over the active cells *)

(** The loop of a body that returns on the heaps the loop can reach: when
    the iteration for [(i, j)] starts, the fields outside [T] and the cells
    not visited yet are as they were in [h0]. The loop visits the active
    cells row by row. Every cell keeps the value it is given; the heap [hm]
    in which that value is computed has the final values in the cells
    visited before and the initial values everywhere else. *)
Section GuardedCellLoop.
Context {num : Type} `{Number num}.
Implicit Types (h : heap num) (X Y : loc) (i j k a b c : Z) (v : num).

Variables (g : Grid) (len : nat).
Variables (T : loc → Prop) (F : loc → Z → Z → heap num → num).
Variable body : Z → Z → M num unit.
Variable h0 : heap num.

Hypothesis body_ok : ∀ i j hm,
  active (Nx g) i → active (Ny g) j → wf g hm = true → length hm = len →
  (∀ Y, ¬ T Y → hm !! Y = h0 !! Y) →
  (∀ Y a b c, T Y →
     ¬ (active (Nx g) a ∧ active (Ny g) b ∧ c = 1 ∧ (a < i ∨ a = i ∧ b < j)) →
     rd hm Y a b c = rd h0 Y a b c) →
  ∃ hm', body i j hm = Some (tt, hm') ∧
         wf g hm' = true ∧ length hm' = len ∧
         (∀ Y, ¬ T Y → hm' !! Y = hm !! Y) ∧
         (∀ Y a b c, T Y → rd hm' Y a b c =
            if decide (a = i ∧ b = j ∧ c = 1) then F Y i j hm else rd hm Y a b c).

Lemma guarded_cells_loop :
  wf g h0 = true → length h0 = len →
  ∃ h', for_le 1 (Nx g) (λ i, for_le 1 (Ny g) (λ j, body i j)) h0 = Some (tt, h') ∧
        wf g h' = true ∧ length h' = len ∧
        (∀ Y, ¬ T Y → h' !! Y = h0 !! Y) ∧
        (∀ Y a b c, T Y → ¬ (active (Nx g) a ∧ active (Ny g) b ∧ c = 1) →
                    rd h' Y a b c = rd h0 Y a b c) ∧
        (∀ i j, active (Nx g) i → active (Ny g) j →
           ∃ hm, wf g hm = true ∧ length hm = len ∧
                 (∀ Y, ¬ T Y → hm !! Y = h0 !! Y) ∧
                 (∀ Y a b c, T Y → rd hm Y a b c =
                    if decide (active (Nx g) a ∧ active (Ny g) b ∧ c = 1 ∧
                               (a < i ∨ a = i ∧ b < j))
                    then rd h' Y a b c else rd h0 Y a b c) ∧
                 (∀ Y, T Y → rd h' Y i j 1 = F Y i j hm)).
Proof.
  intros Hwf0 Hlen0. pose proof (wf_grid _ _ Hwf0) as (? & ? & ?).
  set (Inv := λ i j h,
    wf g h = true ∧ length h = len ∧
    (∀ Y, ¬ T Y → h !! Y = h0 !! Y) ∧
    (∀ Y a b c, T Y →
       ¬ (active (Nx g) a ∧ active (Ny g) b ∧ c = 1 ∧ (a < i ∨ a = i ∧ b < j)) →
       rd h Y a b c = rd h0 Y a b c) ∧
    (∀ a b, active (Nx g) a → active (Ny g) b → a < i ∨ a = i ∧ b < j →
       ∃ hm, wf g hm = true ∧ length hm = len ∧
             (∀ Y, ¬ T Y → hm !! Y = h0 !! Y) ∧
             (∀ Y a' b' c, T Y → rd hm Y a' b' c =
                if decide (active (Nx g) a' ∧ active (Ny g) b' ∧ c = 1 ∧
                           (a' < a ∨ a' = a ∧ b' < b))
                then rd h Y a' b' c else rd h0 Y a' b' c) ∧
             (∀ Y, T Y → rd h Y a b 1 = F Y a b hm))).
  assert (Hloop : hoare (Inv 1 1)
            (for_le 1 (Nx g) (λ i, for_le 1 (Ny g) (λ j, body i j)))
            (λ _, Inv (Nx g + 1) 1)).
  { apply (hoare_for_le (λ i, Inv i 1)); [lia |]. intros i Hi.
    eapply hoare_conseq; [| | apply (hoare_for_le (λ j, Inv i j))];
      [done | | lia |].
    - intros _ h (Hwf & Hlen & Hfr & Hold & Hnew). repeat split; try done.
      + intros Y a b c HT Hn. apply Hold; [done |]. unfold active in *. lia.
      + intros a b Ha Hb Hbef. apply Hnew; [done | done |]. unfold active in *. lia.
    - intros j Hj h (Hwf & Hlen & Hfr & Hold & Hnew).
      destruct (body_ok i j h) as (h2 & Hrun & Hwf2 & Hlen2 & Hfr2 & Hrd2);
        [done | done | done | done | done | done |].
      exists tt, h2. split; [done |]. repeat split; try done.
      + intros Y HT. rewrite Hfr2 by done. by apply Hfr.
      + intros Y a b c HT Hn. rewrite Hrd2 by done.
        case_decide; [unfold active in *; lia |].
        apply Hold; [done |]. unfold active in *. lia.
      + intros a b Ha Hb Hbef.
        destruct (decide (a = i ∧ b = j)) as [[-> ->] | Hne].
        * exists h. repeat split; try done.
          -- intros Y a' b' c HT. rewrite Hrd2 by done.
             repeat case_decide; try (unfold active in *; lia); try done.
             apply Hold; [done |]. unfold active in *. lia.
          -- intros Y HT. rewrite Hrd2 by done. case_decide; [done | lia].
        * destruct (Hnew a b Ha Hb ltac:(lia))
            as (hm & Hwfm & Hlenm & Hfrm & Hrdm & Hval).
          exists hm. repeat split; try done.
          -- intros Y a' b' c HT. rewrite Hrdm by done.
             case_decide; [| done]. rewrite Hrd2 by done.
             case_decide; [unfold active in *; lia | done].
          -- intros Y HT. rewrite Hrd2 by done.
             case_decide; [lia | by apply Hval]. }
  destruct (Hloop h0) as ([] & h' & Hrun & Hwf' & Hlen' & Hfr & Hold & Hnew).
  { repeat split; try done. intros a b Ha Hb Hbef. unfold active in *. lia. }
  exists h'. split; [done |]. repeat split; try done.
  - intros Y a b c HT Hn. apply Hold; [done |]. tauto.
  - intros i j Hi Hj. apply Hnew; [done | done |]. unfold active in *. lia.
Qed.

End GuardedCellLoop.

(** The same for a body that returns on every well-formed heap. *)
Section CellLoop.
Context {num : Type} `{Number num}.
Implicit Types (h : heap num) (X Y : loc) (i j k a b c : Z) (v : num).

Variables (g : Grid) (len : nat).
(** The fields the loop writes, and the value that the iteration for
    [(i, j)] stores in [Y[i][j][1]] as a function of the heap it starts from. *)
Variables (T : loc → Prop) (F : loc → Z → Z → heap num → num).
Variable body : Z → Z → M num unit.

Hypothesis body_ok : ∀ i j hm,
  active (Nx g) i → active (Ny g) j → wf g hm = true → length hm = len →
  ∃ hm', body i j hm = Some (tt, hm') ∧
         wf g hm' = true ∧ length hm' = len ∧
         (∀ Y, ¬ T Y → hm' !! Y = hm !! Y) ∧
         (∀ Y a b c, T Y → rd hm' Y a b c =
            if decide (a = i ∧ b = j ∧ c = 1) then F Y i j hm else rd hm Y a b c).

(** The loop visits the active cells row by row. Every cell keeps the
    value it is given; the heap [hm] in which that value is computed has
    the final values in the cells visited before and the initial values
    everywhere else. *)
Lemma cells_loop h0 :
  wf g h0 = true → length h0 = len →
  ∃ h', for_le 1 (Nx g) (λ i, for_le 1 (Ny g) (λ j, body i j)) h0 = Some (tt, h') ∧
        wf g h' = true ∧ length h' = len ∧
        (∀ Y, ¬ T Y → h' !! Y = h0 !! Y) ∧
        (∀ Y a b c, T Y → ¬ (active (Nx g) a ∧ active (Ny g) b ∧ c = 1) →
                    rd h' Y a b c = rd h0 Y a b c) ∧
        (∀ i j, active (Nx g) i → active (Ny g) j →
           ∃ hm, wf g hm = true ∧ length hm = len ∧
                 (∀ Y, ¬ T Y → hm !! Y = h0 !! Y) ∧
                 (∀ Y a b c, T Y → rd hm Y a b c =
                    if decide (active (Nx g) a ∧ active (Ny g) b ∧ c = 1 ∧
                               (a < i ∨ a = i ∧ b < j))
                    then rd h' Y a b c else rd h0 Y a b c) ∧
                 (∀ Y, T Y → rd h' Y i j 1 = F Y i j hm)).
Proof.
  intros Hwf0 Hlen0.
  apply (guarded_cells_loop g len T F body h0); [| done | done].
  intros i j hm Hi Hj Hwfm Hlenm _ _. by apply body_ok.
Qed.

End CellLoop.

(** ** Relaxation sweeps *)

Section Sweeps.
Context {num : Type} `{Number num}.
Implicit Types (h : heap num) (g : Grid) (X Y : loc) (i j k a b c : Z) (v : num).

Lemma iterated_snoc n (R : heap num → heap num → Prop) h m h' :
  iterated n R h m → R m h' → iterated (S n) R h h'.
Proof.
  revert h. induction n as [| n IH]; simpl; intros h.
  - intros -> HR. by exists h'.
  - intros (m1 & HR1 & Hit) HR. exists m1. split; [done |]. by apply IH.
Qed.

(** The double loop shared by [diffuse] and [project] is a Gauss-Seidel
    sweep. *)
Lemma sweep_ok g (rhs : num → num → num → num → num → num) cur src h :
  wf g h = true → (cur < length h)%nat → (src < length h)%nat →
  ∃ h', for_le 1 (Nx g) (λ i, for_le 1 (Ny g) (λ j,
          p0 <- get src i j 1 ;;
          c1 <- get cur (i - 1) j 1 ;;
          c2 <- get cur (i + 1) j 1 ;;
          c3 <- get cur i (j - 1) 1 ;;
          c4 <- get cur i (j + 1) 1 ;;
          put cur i j 1 (rhs p0 c1 c2 c3 c4))) h = Some (tt, h') ∧
        wf g h' = true ∧ gauss_seidel_sweep g rhs cur src h h'.
Proof.
  intros Hwf Hcur Hsrc. pose proof (wf_grid _ _ Hwf) as (? & ? & ?).
  destruct (cells_loop g (length h) (eq cur)
              (λ _ i j hm, rhs (rd hm src i j 1)
                 (rd hm cur (i - 1) j 1) (rd hm cur (i + 1) j 1)
                 (rd hm cur i (j - 1) 1) (rd hm cur i (j + 1) 1))
              (λ i j, p0 <- get src i j 1 ;;
                      c1 <- get cur (i - 1) j 1 ;;
                      c2 <- get cur (i + 1) j 1 ;;
                      c3 <- get cur i (j - 1) 1 ;;
                      c4 <- get cur i (j + 1) 1 ;;
                      put cur i j 1 (rhs p0 c1 c2 c3 c4)) ) with (h0 := h)
    as (h' & Hrun & Hwf' & Hlen' & Hfr & Hold & Hnew); [| done | done |].
  { intros i j hm Hi Hj Hwfm Hlenm.
    rewrite !(bind_get g) by (done || grid_bounds).
    destruct (bind_put g hm cur i j 1
                (rhs (rd hm src i j 1) (rd hm cur (i - 1) j 1)
                   (rd hm cur (i + 1) j 1) (rd hm cur i (j - 1) 1)
                   (rd hm cur i (j + 1) 1)) ret)
      as (hm' & Hrun & Hwf' & Hlen' & Hfr & Hrd); try (done || grid_bounds).
    exists hm'. split.
    { unfold bind, ret in Hrun. by destruct (put _ _ _ _ _ hm) as [[[] ?] |]. }
    split; [done |]. split; [lia |]. split.
    - intros Y HY. apply Hfr. congruence.
    - intros Y a b c <-. apply Hrd. }
  exists h'. split; [done |]. split; [done |]. split; [done |].
  split; [intros Y HY; apply Hfr; congruence |].
  split; [intros i j k Hn; by apply Hold |].
  intros i j Hi Hj.
  destruct (Hnew i j Hi Hj) as (hm & Hwfm & Hlenm & Hfrm & Hrdm & Hval).
  rewrite (Hval cur eq_refl). f_equal.
  - destruct (decide (src = cur)) as [-> | Hne].
    + rewrite Hrdm by done. case_decide; [lia | done].
    + apply rd_frame, Hfrm. congruence.
  - rewrite Hrdm by done. case_decide; [done |].
    symmetry. apply Hold; [done |]. unfold active in *. lia.
  - rewrite Hrdm by done. case_decide; [lia | done].
  - rewrite Hrdm by done. case_decide; [done |].
    symmetry. apply Hold; [done |]. unfold active in *. lia.
  - rewrite Hrdm by done. case_decide; [lia | done].
Qed.

(** The fixed number of sweeps, each followed by a boundary fill. *)
Lemma sweeps_ok this (rhs : num → num → num → num → num → num) cur src mode_arg h :
  wf (grid this) h = true → (cur < length h)%nat → (src < length h)%nat →
  ∃ h', for_lt 0 N_SOLVER_ITERS (λ iter,
          for_le 1 (Nx (grid this)) (λ i, for_le 1 (Ny (grid this)) (λ j,
            p0 <- get src i j 1 ;;
            c1 <- get cur (i - 1) j 1 ;;
            c2 <- get cur (i + 1) j 1 ;;
            c3 <- get cur i (j - 1) 1 ;;
            c4 <- get cur i (j + 1) 1 ;;
            put cur i j 1 (rhs p0 c1 c2 c3 c4))) ;;;
          setBoundary this cur mode_arg) h = Some (tt, h') ∧
        wf (grid this) h' = true ∧ length h' = length h ∧
        (∀ Y, Y ≠ cur → h' !! Y = h !! Y) ∧
        iterated 20
          (λ h1 h3, ∃ h2, gauss_seidel_sweep (grid this) rhs cur src h1 h2 ∧
                          setBoundary this cur mode_arg h2 = Some (tt, h3))
          h h'.
Proof.
  intros Hwf Hcur Hsrc.
  set (R := λ h1 h3 : heap num,
         ∃ h2, gauss_seidel_sweep (grid this) rhs cur src h1 h2 ∧
               setBoundary this cur mode_arg h2 = Some (tt, h3)).
  set (body := λ iter : Z, _).
  assert (Hloop : hoare
            (λ h1, wf (grid this) h1 = true ∧ length h1 = length h ∧
                   (∀ Y, Y ≠ cur → h1 !! Y = h !! Y) ∧ iterated (Z.to_nat 0) R h h1)
            (for_lt 0 N_SOLVER_ITERS body)
            (λ _ h1, wf (grid this) h1 = true ∧ length h1 = length h ∧
                   (∀ Y, Y ≠ cur → h1 !! Y = h !! Y) ∧
                   iterated (Z.to_nat N_SOLVER_ITERS) R h h1)).
  { apply (hoare_for_lt (λ iter h1,
             wf (grid this) h1 = true ∧ length h1 = length h ∧
             (∀ Y, Y ≠ cur → h1 !! Y = h !! Y) ∧
             iterated (Z.to_nat iter) R h h1)); [done |].
    intros iter Hiter h1 (Hwf1 & Hlen1 & Hfr1 & Hit1). unfold body.
    destruct (sweep_ok (grid this) rhs cur src h1)
      as (h2 & Hrun2 & Hwf2 & Hsw); [done | lia | lia |].
    rewrite (bind_run _ _ _ _ _ Hrun2).
    pose proof Hsw as (Hlen2 & Hfr2 & _).
    destruct (setBoundary_fill this cur mode_arg h2)
      as (h3 & Hrun3 & Hwf3 & Hlen3 & Hfr3 & _); [done | lia |].
    exists tt, h3. split; [done |]. split; [done |]. split; [lia |]. split.
    - intros Y HY. rewrite Hfr3, Hfr2 by done. by apply Hfr1.
    - replace (Z.to_nat (iter + 1)) with (S (Z.to_nat iter)) by lia.
      eapply iterated_snoc; [done |]. by exists h2. }
  destruct (Hloop h) as ([] & h' & Hrun & Hpost); [done |].
  by exists h'.
Qed.

(** [diffuse] is the fixed number of sweeps with the right-hand side of
    the diffusion equation. *)
Lemma diffuse_ok this cur prev (k : num) bMode h :
  wf (grid this) h = true → (cur < length h)%nat → (prev < length h)%nat →
  ∃ h', diffuse this cur prev k bMode h = Some (tt, h') ∧
        wf (grid this) h' = true ∧ length h' = length h ∧
        (∀ Y, Y ≠ cur → h' !! Y = h !! Y) ∧
        iterated 20
          (λ h1 h3, ∃ h2,
             gauss_seidel_sweep (grid this) (diffuse_rhs (diffuse_coeff this k))
               cur prev h1 h2 ∧
             setBoundary this cur (Some bMode) h2 = Some (tt, h3))
          h h'.
Proof.
  intros Hwf Hcur Hprev. unfold diffuse. cbv zeta.
  by apply (sweeps_ok this (diffuse_rhs (diffuse_coeff this k))).
Qed.

End Sweeps.

(** ** Adding a source *)

Section AddSource.
Context {num : Type} `{Number num}.
Implicit Types (h : heap num) (X Y : loc) (i j k a b c : Z) (v : num).

(** [addSource] visits every allocated cell once; [dest] and [source] may
    be the same field. *)
Lemma addSource_ok (this : Simulator num) (dest source : loc) h :
  wf (grid this) h = true → (dest < length h)%nat → (source < length h)%nat →
  ∃ h', addSource this dest source h = Some (tt, h') ∧
    (∀ i j k, in_grid (Nx (grid this)) i → in_grid (Ny (grid this)) j →
              in_grid (Nz (grid this)) k →
       rd h' dest i j k = (rd h dest i j k + timeStep this * rd h source i j k)%num) ∧
    (∀ Y, Y ≠ dest → h' !! Y = h !! Y) ∧
    length h' = length h ∧ wf (grid this) h' = true.
Proof.
  intros Hwf Hdest Hsrc. pose proof (wf_grid _ _ Hwf) as (? & ? & ?).
  set (g := grid this) in *.
  set (Inv := λ i j k h',
    wf g h' = true ∧ length h' = length h ∧
    (∀ Y, Y ≠ dest → h' !! Y = h !! Y) ∧
    (∀ a b c, rd h' dest a b c =
       if decide (in_grid (Nx g) a ∧ in_grid (Ny g) b ∧ in_grid (Nz g) c ∧
                  (a < i ∨ a = i ∧ (b < j ∨ b = j ∧ c < k)))
       then (rd h dest a b c + timeStep this * rd h source a b c)%num
       else rd h dest a b c)).
  assert (Hloop : hoare (Inv 0 0 0) (addSource this dest source)
                    (λ _, Inv (Nx g + 2) 0 0)).
  { unfold addSource. fold g.
    apply (hoare_for_lt (λ i, Inv i 0 0)); [lia |]. intros i Hi.
    eapply hoare_conseq; [| | apply (hoare_for_lt (λ j, Inv i j 0))];
      [done | | lia |].
    { intros _ h' (Hwf' & Hlen' & Hfr' & Hrd'). repeat split; try done.
      intros a b c. rewrite Hrd'. unfold in_grid.
      repeat case_decide; (done || lia). }
    intros j Hj.
    eapply hoare_conseq; [| | apply (hoare_for_lt (λ k, Inv i j k))];
      [done | | lia |].
    { intros _ h' (Hwf' & Hlen' & Hfr' & Hrd'). repeat split; try done.
      intros a b c. rewrite Hrd'. unfold in_grid.
      repeat case_decide; (done || lia). }
    intros k Hk h1 (Hwf1 & Hlen1 & Hfr1 & Hrd1).
    rewrite !(bind_get g) by (done || lia || grid_bounds).
    destruct (put_ok g h1 dest i j k
                (rd h1 dest i j k + timeStep this * rd h1 source i j k)%num)
      as (h2 & Hrun & Hwf2 & Hlen2 & Hfr2 & Hnew2 & Hold2);
      try (done || lia || grid_bounds).
    exists tt, h2. split; [done |]. split; [done |]. split; [lia |].
    split; [intros Y HY; rewrite Hfr2 by done; by apply Hfr1 |].
    intros a b c.
    destruct (decide (a = i ∧ b = j ∧ c = k)) as [(-> & -> & ->) | Hne].
    - rewrite Hnew2. case_decide; [| grid_bounds].
      f_equal; [rewrite Hrd1; case_decide; [lia | done] |]. f_equal.
      destruct (decide (source = dest)) as [-> | Hsd].
      + rewrite Hrd1. case_decide; [lia | done].
      + by apply rd_frame, Hfr1.
    - rewrite Hold2 by lia. rewrite Hrd1. unfold in_grid.
      repeat case_decide; (done || lia). }
  destruct (Hloop h) as ([] & h' & Hrun & Hwf' & Hlen' & Hfr' & Hrd').
  { repeat split; try done. intros a b c. case_decide; [grid_bounds | done]. }
  exists h'. split; [done |]. repeat split; try done.
  intros i j k Hi Hj Hk. rewrite Hrd'. case_decide; [done | grid_bounds].
Qed.

End AddSource.

(** ** The order of the rationals *)

Section Clamp.
Implicit Types (n i j : Z) (x y u : Q).

Lemma Qltb_lt x y : Qltb x y = true ↔ (x < y)%Q.
Proof.
  unfold Qltb. rewrite Qlt_alt. destruct (x ?= y)%Q; intuition congruence.
Qed.

Lemma Qltb_ge x y : Qltb x y = false ↔ (y <= x)%Q.
Proof.
  rewrite <- not_true_iff_false, Qltb_lt. split; [apply Qnot_lt_le | apply Qle_not_lt].
Qed.

End Clamp.

(** ** Advection *)

Section Advect.
Context {num : Type} `{Number num}.
Implicit Types (h : heap num) (X Y : loc) (i j k a b c : Z).

(** [advect] returns when the floors of the clamped coordinates are
    indices of the grid, and it is then the loop described by [advected]
    followed by the boundary fill. The field [cur] may be one of the
    components of [vel], as it is in [vStep]: the velocity of a cell is
    read before the cell is written. *)
Lemma advect_run (this : Simulator num) cur prev vs velX velY bMode h :
  wf (grid this) h = true →
  idx vs X_DIM = Some velX → idx vs Y_DIM = Some velY →
  (cur < length h)%nat → (prev < length h)%nat →
  (velX < length h)%nat → (velY < length h)%nat →
  (∀ i j, active (Nx (grid this)) i → active (Ny (grid this)) j →
     0 ≤ nfloor (backtrack (Nx (grid this)) i (rd h velX i j 1)) ≤ Nx (grid this) ∧
     0 ≤ nfloor (backtrack (Ny (grid this)) j (rd h velY i j 1)) ≤ Ny (grid this)) →
  ∃ h1 h', advect this cur prev vs bMode h = Some (tt, h') ∧
           wf (grid this) h1 = true ∧
           (cur ≠ prev → advected (grid this) cur prev velX velY h h1) ∧
           setBoundary this cur (Some bMode) h1 = Some (tt, h') ∧
           wf (grid this) h' = true ∧ length h' = length h ∧
           (∀ Y, Y ≠ cur → h' !! Y = h !! Y).
Proof.
  intros Hwf HvX HvY Hcur Hprev HlX HlY Hrange.
  pose proof (wf_grid _ _ Hwf) as (? & ? & ?).
  unfold advect. cbv zeta. set (g := grid this) in *.
  assert (Hsame : ∀ V i j hm,
            (∀ Y, cur ≠ Y → hm !! Y = h !! Y) →
            (∀ Y a b c, cur = Y →
               ¬ (active (Nx g) a ∧ active (Ny g) b ∧ c = 1 ∧ (a < i ∨ a = i ∧ b < j)) →
               rd hm Y a b c = rd h Y a b c) →
            rd hm V i j 1 = rd h V i j 1).
  { intros V i j hm Hfrm Holdm. destruct (decide (cur = V)) as [HV | HV].
    - apply Holdm; [done | lia].
    - by apply rd_frame, Hfrm. }
  match goal with
  | |- context [for_le 1 _ (λ i, for_le 1 _ (λ j, @?body i j))] =>
      destruct (guarded_cells_loop g (length h) (eq cur)
        (λ _ i j hm,
           let x := backtrack (Nx g) i (rd hm velX i j 1) in
           let y := backtrack (Ny g) j (rd hm velY i j 1) in
           bilerp x y (nfloor x) (nfloor y)
             (rd hm prev (nfloor x) (nfloor y) 1)
             (rd hm prev (nfloor x) (nfloor y + 1) 1)
             (rd hm prev (nfloor x + 1) (nfloor y) 1)
             (rd hm prev (nfloor x + 1) (nfloor y + 1) 1))
        body h)
        as (h1 & Hrun & Hwf1 & Hlen1 & Hfr & Hold & Hnew); [| done | done |]
  end.
  { intros i j hm Hi Hj Hwfm Hlenm Hfrm Holdm.
    rewrite (bind_component vs X_DIM velX) by done.
    rewrite (bind_get g) by (done || lia || grid_bounds).
    rewrite (bind_component vs Y_DIM velY) by done.
    rewrite (bind_get g) by (done || lia || grid_bounds).
    destruct (Hrange i j Hi Hj) as [Hi0 Hj0].
    rewrite <- (Hsame velX i j hm Hfrm Holdm) in Hi0.
    rewrite <- (Hsame velY i j hm Hfrm Holdm) in Hj0.
    rewrite !(bind_get g) by (done || lia || grid_bounds).
    match goal with
    | |- context [put cur i j 1 ?v] =>
        destruct (put_ok g hm cur i j 1 v)
          as (hm' & Hrun & Hwf' & Hlen' & Hfr & Hnew & Hold);
          try (done || lia || grid_bounds)
    end.
    exists hm'. split; [done |]. split; [done |]. split; [lia |]. split.
    - intros Y HY. apply Hfr. congruence.
    - intros Y a b c <-. case_decide as Hc.
      + by destruct Hc as (-> & -> & ->).
      + apply Hold. lia. }
  rewrite (bind_run _ _ _ _ _ Hrun).
  destruct (setBoundary_fill this cur (Some bMode) h1)
    as (h' & Hrun' & Hwf' & Hlen' & Hfr' & _); [done | lia |].
  exists h1, h'. split; [done |]. split; [done |]. split; [| split; [done |]].
  - intros Hne.
    split; [done |]. split; [intros Y HY; apply Hfr; congruence |].
    split; [intros i j k Hn; by apply Hold |].
    intros i j Hi Hj. cbv zeta.
    destruct (Hnew i j Hi Hj) as (hm & Hwfm & Hlenm & Hfrm & Hrdm & Hval).
    rewrite (Hval cur eq_refl). cbv zeta.
    assert (EX : rd hm velX i j 1 = rd h velX i j 1).
    { destruct (decide (velX = cur)) as [-> | HX].
      - rewrite Hrdm by done. case_decide; [lia | done].
      - apply rd_frame, Hfrm. congruence. }
    assert (EY : rd hm velY i j 1 = rd h velY i j 1).
    { destruct (decide (velY = cur)) as [-> | HY].
      - rewrite Hrdm by done. case_decide; [lia | done].
      - apply rd_frame, Hfrm. congruence. }
    assert (EP : ∀ a b c, rd hm prev a b c = rd h prev a b c).
    { intros a b c. apply rd_frame, Hfrm. congruence. }
    by rewrite EX, EY, !EP.
  - split; [done |]. split; [lia |].
    intros Y HY. rewrite Hfr' by done. apply Hfr. congruence.
Qed.

(** *** What a run that returned has done *)

Lemma bind_Some {A B} (m : M num A) (f : A → M num B) h r :
  bind m f h = Some r → ∃ x h1, m h = Some (x, h1) ∧ f x h1 = Some r.
Proof.
  unfold bind. destruct (m h) as [[x h1] |]; [| done].
  intros Hr. by exists x, h1.
Qed.

Lemma get_Some X i j k h v h1 : get X i j k h = Some (v, h1) → h1 = h.
Proof.
  unfold get. destruct (h !! X) as [f |]; simpl; [| done].
  destruct (cell f i j k); simpl; [| done]. congruence.
Qed.

Lemma for_each_Some (I : heap num → Prop) (body : Z → M num unit) (l : list Z) :
  (∀ i h h1, i ∈ l → I h → body i h = Some (tt, h1) → I h1) →
  ∀ h h1, I h → for_each l body h = Some (tt, h1) → I h1.
Proof.
  induction l as [| i l IH]; intros Hbody h h1 HI; simpl.
  - unfold ret. by intros [= <-].
  - intros Hrun. apply bind_Some in Hrun as ([] & m & Hm & Hrun).
    apply (IH (λ i' h2 h3 Hin, Hbody i' h2 h3 (list_elem_of_further _ _ _ Hin))
              m h1); [| done].
    apply (Hbody i h m); [left | done | done].
Qed.

(** Whenever [advect] returns it has written [cur] only, whatever the
    numbers are. *)
Lemma advect_returned (this : Simulator num) cur prev vs velX velY bMode h h' :
  wf (grid this) h = true →
  idx vs X_DIM = Some velX → idx vs Y_DIM = Some velY →
  (cur < length h)%nat → (velX < length h)%nat → (velY < length h)%nat →
  advect this cur prev vs bMode h = Some (tt, h') →
  wf (grid this) h' = true ∧ length h' = length h ∧
  (∀ Y, Y ≠ cur → h' !! Y = h !! Y).
Proof.
  intros Hwf HvX HvY Hcur HlX HlY Hrun.
  pose proof (wf_grid _ _ Hwf) as (? & ? & ?).
  unfold advect in Hrun. cbv zeta in Hrun. set (g := grid this) in *.
  apply bind_Some in Hrun as ([] & h1 & Hloop & Hfill).
  set (I := λ m : heap num, wf g m = true ∧ length m = length h ∧
                            ∀ Y, Y ≠ cur → m !! Y = h !! Y).
  assert (I h1) as (Hwf1 & Hlen1 & Hfr1).
  { revert Hloop. unfold for_le. apply (for_each_Some I); [| done].
    intros i m m1 Hi HIm. apply (for_each_Some I); [| done].
    intros j m2 m3 Hj (Hwf2 & Hlen2 & Hfr2) Hbody.
    apply elem_of_seqZ in Hi, Hj.
    rewrite (bind_component vs X_DIM velX) in Hbody by done.
    rewrite (bind_get g) in Hbody by (done || lia || grid_bounds).
    rewrite (bind_component vs Y_DIM velY) in Hbody by done.
    rewrite (bind_get g) in Hbody by (done || lia || grid_bounds).
    do 4 (apply bind_Some in Hbody as (? & ? & ->%get_Some & Hbody)).
    match type of Hbody with
    | put cur i j 1 ?v _ = _ =>
        destruct (put_ok g m2 cur i j 1 v)
          as (m3' & Hput & Hwf3 & Hlen3 & Hfr3 & _);
          try (done || lia || grid_bounds)
    end.
    rewrite Hput in Hbody. injection Hbody as <-.
    split; [done |]. split; [lia |].
    intros Y HY. rewrite Hfr3 by done. by apply Hfr2. }
  destruct (setBoundary_fill this cur (Some bMode) h1)
    as (h2 & Hrun2 & Hwf2 & Hlen2 & Hfr2 & _); [done | lia |].
  rewrite Hrun2 in Hfill. injection Hfill as <-.
  split; [done |]. split; [lia |].
  intros Y HY. rewrite Hfr2 by done. by apply Hfr1.
Qed.

End Advect.

(** ** Finite numbers under the rounding laws *)

Section Rounding.
Context {num : Type} `{Number num}.
Variables (val : num → option value) (exact : Z).
Hypothesis laws : rounding_laws val exact.
Implicit Types (x y u : num) (p q r : Q) (n t : Z).

Lemma is_val_eq x p q : is_val val x p → (p == q)%Q → is_val val x q.
Proof. intros (r & Hr & Hrp) Hpq. exists r. split; [done |]. by rewrite Hrp. Qed.

Lemma is_val_same x p q : is_val val x p → is_val val x q → (p == q)%Q.
Proof.
  intros (r & Hr & Hrp) (r' & Hr' & Hrq). rewrite Hr in Hr'.
  injection Hr' as <-. by rewrite <- Hrp, <- Hrq.
Qed.

Lemma add_val x y p q r :
  is_val val x p → is_val val y q → representable val r → (p + q == r)%Q →
  is_val val (x + y)%num r.
Proof.
  intros Hx Hy [z Hz] Hr. apply (is_val_eq _ (p + q)); [| done].
  apply (law_add _ _ laws); [done | done |]. exists z.
  apply (is_val_eq _ r); [done | by symmetry].
Qed.

Lemma sub_val x y p q r :
  is_val val x p → is_val val y q → representable val r → (p - q == r)%Q →
  is_val val (x - y)%num r.
Proof.
  intros Hx Hy [z Hz] Hr. apply (is_val_eq _ (p - q)); [| done].
  apply (law_sub _ _ laws); [done | done |]. exists z.
  apply (is_val_eq _ r); [done | by symmetry].
Qed.

Lemma mul_val x y p q r :
  is_val val x p → is_val val y q → representable val r → (p * q == r)%Q →
  is_val val (x * y)%num r.
Proof.
  intros Hx Hy [z Hz] Hr. apply (is_val_eq _ (p * q)); [| done].
  apply (law_mul _ _ laws); [done | done |]. exists z.
  apply (is_val_eq _ r); [done | by symmetry].
Qed.

Lemma upper_val n :
  0 ≤ n ≤ exact → is_val val (of_Z n + half)%num (inject_Z n + (1 # 2)).
Proof.
  intros Hn. apply (add_val _ _ (inject_Z n) (1 # 2)).
  - apply (law_of_Z _ _ laws). lia.
  - apply (law_half _ _ laws).
  - by apply (law_half_integer _ _ laws).
  - reflexivity.
Qed.

(** The two [if] statements of [advect] clamp a finite coordinate into
    [0.5, n + 0.5]. *)
Lemma clamp_coord_val n x q :
  0 ≤ n ≤ exact → is_val val x q →
  ∃ c, is_val val (clamp_coord n x) c ∧
       ((1 # 2) <= c <= inject_Z n + (1 # 2))%Q ∧
       (((1 # 2) <= q <= inject_Z n + (1 # 2))%Q → clamp_coord n x = x ∧ (c == q)%Q) ∧
       ((q < 1 # 2)%Q → (c == 1 # 2)%Q) ∧
       ((inject_Z n + (1 # 2) < q)%Q → (c == inject_Z n + (1 # 2))%Q).
Proof.
  intros Hn Hx. assert (0 <= inject_Z n)%Q as Hn'.
  { change 0%Q with (inject_Z 0). rewrite <- Zle_Qle. lia. }
  pose proof (law_half _ _ laws) as Hhalf.
  pose proof (upper_val n Hn) as Hup.
  unfold clamp_coord. cbv zeta.
  rewrite (law_lt _ _ laws x half q (1 # 2) Hx Hhalf).
  destruct (Qltb q (1 # 2)) eqn:Hlo.
  - apply Qltb_lt in Hlo.
    rewrite (law_lt _ _ laws _ _ _ _ Hup Hhalf).
    destruct (Qltb (inject_Z n + (1 # 2)) (1 # 2)) eqn:Hhi;
      [apply Qltb_lt in Hhi; lra |].
    exists (1 # 2)%Q. split; [done |]. repeat split; intros; try lra; done.
  - apply Qltb_ge in Hlo.
    rewrite (law_lt _ _ laws _ _ _ _ Hup Hx).
    destruct (Qltb (inject_Z n + (1 # 2)) q) eqn:Hhi.
    + apply Qltb_lt in Hhi. exists (inject_Z n + (1 # 2))%Q.
      split; [done |]. repeat split; intros; try lra; done.
    + apply Qltb_ge in Hhi. exists q.
      split; [done |]. repeat split; intros; try lra; done.
Qed.

(** The two tests send minus infinity to 0.5 and plus infinity to
    [n + 0.5]. *)
Lemma clamp_coord_infinite n x :
  0 ≤ n ≤ exact →
  (val x = Some Minus_infinity → clamp_coord n x = half) ∧
  (val x = Some Plus_infinity → clamp_coord n x = (of_Z n + half)%num).
Proof.
  intros Hn. assert (0 <= inject_Z n)%Q as Hn'.
  { change 0%Q with (inject_Z 0). rewrite <- Zle_Qle. lia. }
  pose proof (law_half _ _ laws) as Hhalf.
  pose proof (upper_val n Hn) as Hup.
  unfold clamp_coord. cbv zeta. split; intros Hx.
  - rewrite (law_lt_minus _ _ laws x half _ Hx Hhalf).
    rewrite (law_lt _ _ laws _ _ _ _ Hup Hhalf).
    destruct (Qltb (inject_Z n + (1 # 2)) (1 # 2)) eqn:Hhi; [| done].
    apply Qltb_lt in Hhi. lra.
  - rewrite (law_plus_lt _ _ laws x half _ Hx Hhalf).
    by rewrite (law_lt_plus _ _ laws _ x _ Hup Hx).
Qed.

(** The clamped coordinate of a number is finite and lies in
    [0.5, n + 0.5]. *)
Lemma clamp_coord_number n x :
  0 ≤ n ≤ exact → is_number val x →
  ∃ c, is_val val (clamp_coord n x) c ∧
       ((1 # 2) <= c <= inject_Z n + (1 # 2))%Q ∧
       clamped_value n (val x) c.
Proof.
  intros Hn Hx. assert (0 <= inject_Z n)%Q as Hn'.
  { change 0%Q with (inject_Z 0). rewrite <- Zle_Qle. lia. }
  destruct (clamp_coord_infinite n x Hn) as [Hminus Hplus].
  unfold is_number in Hx. destruct (val x) as [[q | |] |] eqn:Hv; [| | | done].
  - assert (is_val val x q) as Hq by (exists q; by split).
    destruct (clamp_coord_val n x q Hn Hq) as (c & Hc & Hb & Hin & Hlo & Hhi).
    exists c. split; [done |]. split; [done |]. simpl.
    split; [done |]. split; [| done]. intros Hq'. by destruct (Hin Hq').
  - exists (1 # 2)%Q. rewrite Hminus by done.
    split; [apply (law_half _ _ laws) |]. split; [lra | done].
  - exists (inject_Z n + (1 # 2))%Q. rewrite Hplus by done.
    split; [by apply upper_val |]. split; [lra | done].
Qed.

(** The floor of the clamped coordinate of a number, and that floor plus
    one, are indices of allocated cells. *)
Lemma floor_clamped_val n x :
  0 ≤ n ≤ exact → is_number val x → 0 ≤ nfloor (clamp_coord n x) ≤ n.
Proof.
  intros Hn Hx.
  destruct (clamp_coord_number n x Hn Hx) as (c & Hc & [Hlo Hhi] & _).
  rewrite (law_floor _ _ laws _ _ Hc). split.
  - change 0 with (Qfloor (1 # 2)). by apply Qfloor_resp_le.
  - pose proof (Qfloor_le c) as Hfl.
    assert (inject_Z (Qfloor c) < inject_Z (n + 1))%Q as Hlt.
    { rewrite inject_Z_plus. change (inject_Z 1) with 1%Q. lra. }
    rewrite <- Zlt_Qlt in Hlt. lia.
Qed.

(** With a zero velocity the backtracked coordinate of an active cell is
    the coordinate of the cell. *)
Lemma backtrack_zero n t u :
  1 ≤ n ≤ exact → active n t → is_val val u 0 →
  is_val val (backtrack n t u) (inject_Z t) ∧ nfloor (backtrack n t u) = t.
Proof.
  intros Hn [Ht1 Ht2] Hu.
  assert (is_val val (of_Z t) (inject_Z t)) as Ht
    by (apply (law_of_Z _ _ laws); lia).
  assert (is_val val (of_Z n * u)%num 0) as Hm.
  { apply (mul_val _ _ (inject_Z n) 0); [| done | by exists u | ring].
    apply (law_of_Z _ _ laws). lia. }
  assert (is_val val (of_Z t - of_Z n * u)%num (inject_Z t)) as Hraw.
  { apply (sub_val _ _ (inject_Z t) 0); [done | done | by exists (of_Z t) | ring]. }
  rewrite Zle_Qle in Ht1, Ht2. change (inject_Z 1) with 1%Q in Ht1.
  destruct (clamp_coord_val n _ _ ltac:(lia) Hraw) as (c & Hc & _ & Hin & _).
  destruct Hin as [Heq Hcq]; [lra |].
  unfold backtrack. rewrite Heq. split; [done |].
  rewrite (law_floor _ _ laws _ _ Hraw). apply Qfloor_Z.
Qed.

(** The interpolation at the position of a cell returns the value of the
    cell, provided that the three other samples are finite: their weights
    are zero, and zero times a finite number is zero. *)
Lemma bilerp_at_cell x y i j (p00 p01 p10 p11 : num) a :
  1 ≤ exact → - exact ≤ i ≤ exact → - exact ≤ j ≤ exact →
  is_val val x (inject_Z i) → is_val val y (inject_Z j) →
  is_val val p00 a →
  is_finite val p01 → is_finite val p10 → is_finite val p11 →
  is_val val (bilerp x y i j p00 p01 p10 p11) a.
Proof.
  intros He Hi Hj Hx Hy H00 [b H01] [c H10] [d H11].
  assert (is_val val (of_Z 0) 0) as H0 by (apply (law_of_Z _ _ laws 0); lia).
  assert (is_val val (of_Z 1) 1) as H1 by (apply (law_of_Z _ _ laws 1); lia).
  assert (representable val 0) as R0 by (by exists (of_Z 0)).
  assert (representable val 1) as R1 by (by exists (of_Z 1)).
  assert (is_val val (x - of_Z i)%num 0) as Hs1.
  { apply (sub_val _ _ (inject_Z i) (inject_Z i)); [done | | done | ring].
    by apply (law_of_Z _ _ laws). }
  assert (is_val val (of_Z 1 - (x - of_Z i))%num 1) as Hs0
    by (apply (sub_val _ _ 1 0); [done | done | done | ring]).
  assert (is_val val (y - of_Z j)%num 0) as Ht1.
  { apply (sub_val _ _ (inject_Z j) (inject_Z j)); [done | | done | ring].
    by apply (law_of_Z _ _ laws). }
  assert (is_val val (of_Z 1 - (y - of_Z j))%num 1) as Ht0
    by (apply (sub_val _ _ 1 0); [done | done | done | ring]).
  unfold bilerp. cbv zeta.
  set (s1 := (x - of_Z i)%num) in *. set (s0 := (of_Z 1 - s1)%num) in *.
  set (t1 := (y - of_Z j)%num) in *. set (t0 := (of_Z 1 - t1)%num) in *.
  assert (is_val val (t0 * p00 + t1 * p01)%num a) as Hlow.
  { apply (add_val _ _ a 0); [| | by exists p00 | ring].
    - apply (mul_val _ _ 1 a); [done | done | by exists p00 | ring].
    - apply (mul_val _ _ 0 b); [done | done | done | ring]. }
  assert (is_val val (t0 * p10 + t1 * p11)%num c) as Hhigh.
  { apply (add_val _ _ c 0); [| | by exists p10 | ring].
    - apply (mul_val _ _ 1 c); [done | done | by exists p10 | ring].
    - apply (mul_val _ _ 0 d); [done | done | done | ring]. }
  apply (add_val _ _ a 0); [| | by exists p00 | ring].
  - apply (mul_val _ _ 1 a); [done | done | by exists p00 | ring].
  - apply (mul_val _ _ 0 c); [done | done | done | ring].
Qed.

(** The average of a finite number and its opposite is zero, and the
    average of a finite number with itself is the number when its double
    is a number. *)
Lemma average_opposite x p :
  0 ≤ exact → is_val val x p →
  is_val val (half * (x + - x))%num 0 ∧ is_val val (half * (- x + x))%num 0.
Proof.
  intros He Hx.
  assert (representable val 0) as R0
    by (exists (of_Z 0); apply (law_of_Z _ _ laws 0); lia).
  pose proof (law_neg _ _ laws _ _ Hx) as Hn.
  pose proof (law_half _ _ laws) as Hh.
  split; apply (mul_val _ _ (1 # 2) 0); try (done || ring).
  - apply (add_val _ _ p (- p)); (done || ring).
  - apply (add_val _ _ (- p) p); (done || ring).
Qed.

Lemma average_same x p :
  is_val val x p → representable val (p + p) →
  is_val val (half * (x + x))%num p.
Proof.
  intros Hx Hdouble. pose proof (law_half _ _ laws) as Hh.
  apply (mul_val _ _ (1 # 2) (p + p)); [done | | by exists x | field].
  by apply (add_val _ _ p p).
Qed.

End Rounding.

(** The rationals and the numbers without rounding obey the laws, for
    every bound. *)
Lemma Qltb_eq (p p' q q' : Q) : (p == p')%Q → (q == q')%Q → Qltb p q = Qltb p' q'.
Proof. intros Hp Hq. unfold Qltb. by rewrite Hp, Hq. Qed.

Lemma Q_rounding_laws (exact : Z) : rounding_laws Q_val exact.
Proof.
  assert (Hall : ∀ q : Q, representable Q_val q).
  { intros q. exists q, q. by split. }
  split; try done.
  - intros n _. exists (inject_Z n). by split.
  - exists (1 # 2)%Q. by split.
  - intros x y p q (? & [= <-] & Hp) (? & [= <-] & Hq) _.
    exists (x + y)%Q. split; [done |]. by rewrite Hp, Hq.
  - intros x y p q (? & [= <-] & Hp) (? & [= <-] & Hq) _.
    exists (x - y)%Q. split; [done |]. by rewrite Hp, Hq.
  - intros x y p q (? & [= <-] & Hp) (? & [= <-] & Hq) _.
    exists (x * y)%Q. split; [done |]. by rewrite Hp, Hq.
  - intros x p (? & [= <-] & Hp). exists (- x)%Q. split; [done |]. by rewrite Hp.
  - intros x y p q (? & [= <-] & Hp) (? & [= <-] & Hq). by apply Qltb_eq.
  - intros x q (? & [= <-] & Hq). simpl. by rewrite Hq.
Qed.

Lemma js_rounding_laws (exact : Z) : rounding_laws js_val exact.
Proof.
  assert (Hfin : ∀ x q, is_val js_val x q → ∃ r, x = Fin r ∧ (r == q)%Q).
  { intros [r | | |] q (r' & Hr & Hq); try done. injection Hr as <-. by exists r. }
  split.
  - intros n _. exists (inject_Z n). by split.
  - exists (1 # 2)%Q. by split.
  - intros n _. exists (Fin (inject_Z n + (1 # 2))), (inject_Z n + (1 # 2))%Q.
    by split.
  - intros x y p q (r & -> & Hp)%Hfin (r' & -> & Hq)%Hfin _.
    exists (Qred (r + r')). split; [done |]. by rewrite Qred_correct, Hp, Hq.
  - intros x y p q (r & -> & Hp)%Hfin (r' & -> & Hq)%Hfin _.
    exists (Qred (r + - r')). split; [done |]. rewrite Qred_correct, Hp, Hq. ring.
  - intros x y p q (r & -> & Hp)%Hfin (r' & -> & Hq)%Hfin _.
    exists (Qred (r * r')). split; [done |]. by rewrite Qred_correct, Hp, Hq.
  - intros x p (r & -> & Hp)%Hfin. exists (- r)%Q. split; [done |]. by rewrite Hp.
  - intros x y p q (r & -> & Hp)%Hfin (r' & -> & Hq)%Hfin. by apply Qltb_eq.
  - intros [r0 | | |] y q Hx (r & -> & Hq)%Hfin; done.
  - intros x [r0 | | |] p (r & -> & Hp)%Hfin Hy; done.
  - intros [r0 | | |] y q Hx (r & -> & Hq)%Hfin; done.
  - intros x q (r & -> & Hq)%Hfin. simpl. by rewrite Hq.
Qed.

(** ** Projection *)

Section Project.
Context {num : Type} `{Number num}.
Implicit Types (h : heap num) (g : Grid) (X Y : loc) (i j k a b c : Z) (v : num).

(** The divergence loop, lines 105-111. *)
Lemma divergence_ok g (Lx Ly : num) vs velX velY div p h :
  wf g h = true →
  idx vs X_DIM = Some velX → idx vs Y_DIM = Some velY →
  (velX < length h)%nat → (velY < length h)%nat →
  (div < length h)%nat → (p < length h)%nat →
  velX ≠ div → velX ≠ p → velY ≠ div → velY ≠ p → div ≠ p →
  ∃ h', for_le 1 (Nx g) (λ i, for_le 1 (Ny g) (λ j,
          velX <- component vs X_DIM ;;
          xr <- get velX (i + 1) j 1 ;;
          xl <- get velX (i - 1) j 1 ;;
          velY <- component vs Y_DIM ;;
          yu <- get velY i (j + 1) 1 ;;
          yd <- get velY i (j - 1) 1 ;;
          put div i j 1 (divergence_rhs Lx Ly xr xl yu yd) ;;;
          put p i j 1 (of_Z 0))) h = Some (tt, h') ∧
        wf g h' = true ∧
        divergence_computed g Lx Ly velX velY div p h h'.
Proof.
  intros Hwf HvX HvY HlX HlY Hld Hlp ? ? ? ? ?.
  pose proof (wf_grid _ _ Hwf) as (? & ? & ?).
  match goal with
  | |- context [for_le 1 _ (λ i, for_le 1 _ (λ j, @?body i j))] =>
      destruct (cells_loop g (length h) (λ Y, Y = div ∨ Y = p)
        (λ Y i j hm,
           if decide (Y = p) then of_Z 0
           else divergence_rhs Lx Ly
                  (rd hm velX (i + 1) j 1) (rd hm velX (i - 1) j 1)
                  (rd hm velY i (j + 1) 1) (rd hm velY i (j - 1) 1))
        body) with (h0 := h)
        as (h' & Hrun & Hwf' & Hlen' & Hfr & Hold & Hnew); [| done | done |]
  end.
  { intros i j hm Hi Hj Hwfm Hlenm.
    rewrite (bind_component vs X_DIM velX) by done.
    rewrite !(bind_get g) by (done || lia || grid_bounds).
    rewrite (bind_component vs Y_DIM velY) by done.
    rewrite !(bind_get g) by (done || lia || grid_bounds).
    match goal with
    | |- context [bind (put div i j 1 ?v) ?f hm] =>
        destruct (bind_put g hm div i j 1 v f)
          as (h1 & -> & Hwf1 & Hlen1 & Hfr1 & Hrd1);
          try (done || lia || grid_bounds)
    end.
    destruct (put_ok g h1 p i j 1 (of_Z 0))
      as (h2 & Hrun & Hwf2 & Hlen2 & Hfr2 & Hnew2 & Hold2);
      try (done || lia || grid_bounds).
    exists h2. split; [done |]. split; [done |]. split; [lia |]. split.
    - intros Y HY. rewrite Hfr2, Hfr1; [done | |]; intros ->; tauto.
    - intros Y a b c [-> | ->].
      + rewrite (rd_frame h1 h2) by (by apply Hfr2).
        rewrite Hrd1. by rewrite (decide_False (P := div = p)).
      + rewrite (decide_True (P := p = p)) by done.
        case_decide as Hc.
        * by destruct Hc as (-> & -> & ->).
        * rewrite Hold2 by lia. apply rd_frame, Hfr1. congruence. }
  exists h'. split; [done |]. split; [done |]. split; [done |].
  split; [intros Y ? ?; apply Hfr; tauto |].
  split; [intros i j k Hn; split; apply Hold; tauto |].
  intros i j Hi Hj.
  destruct (Hnew i j Hi Hj) as (hm & Hwfm & Hlenm & Hfrm & Hrdm & Hval).
  assert (EX : ∀ a b c, rd hm velX a b c = rd h velX a b c).
  { intros a b c. apply rd_frame, Hfrm. intros [-> | ->]; congruence. }
  assert (EY : ∀ a b c, rd hm velY a b c = rd h velY a b c).
  { intros a b c. apply rd_frame, Hfrm. intros [-> | ->]; congruence. }
  split.
  - rewrite (Hval div) by tauto. rewrite (decide_False (P := div = p)) by done.
    by rewrite !EX, !EY.
  - rewrite (Hval p) by tauto. by rewrite (decide_True (P := p = p)).
Qed.

(** The gradient loop, lines 127-132. *)
Lemma gradient_ok g (Lx Ly : num) vs velX velY p h :
  wf g h = true →
  idx vs X_DIM = Some velX → idx vs Y_DIM = Some velY →
  (velX < length h)%nat → (velY < length h)%nat → (p < length h)%nat →
  velX ≠ velY → velX ≠ p → velY ≠ p →
  ∃ h', for_le 1 (Nx g) (λ i, for_le 1 (Ny g) (λ j,
          velX <- component vs X_DIM ;;
          u <- get velX i j 1 ;;
          pr <- get p (i + 1) j 1 ;;
          pl <- get p (i - 1) j 1 ;;
          put velX i j 1 (gradient_rhs Lx u pr pl) ;;;
          velY <- component vs Y_DIM ;;
          v <- get velY i j 1 ;;
          pu <- get p i (j + 1) 1 ;;
          pd <- get p i (j - 1) 1 ;;
          put velY i j 1 (gradient_rhs Ly v pu pd))) h = Some (tt, h') ∧
        wf g h' = true ∧
        gradient_subtracted g Lx Ly velX velY p h h'.
Proof.
  intros Hwf HvX HvY HlX HlY Hlp ? ? ?.
  pose proof (wf_grid _ _ Hwf) as (? & ? & ?).
  match goal with
  | |- context [for_le 1 _ (λ i, for_le 1 _ (λ j, @?body i j))] =>
      destruct (cells_loop g (length h) (λ Y, Y = velX ∨ Y = velY)
        (λ Y i j hm,
           if decide (Y = velX)
           then gradient_rhs Lx (rd hm velX i j 1)
                  (rd hm p (i + 1) j 1) (rd hm p (i - 1) j 1)
           else gradient_rhs Ly (rd hm velY i j 1)
                  (rd hm p i (j + 1) 1) (rd hm p i (j - 1) 1))
        body) with (h0 := h)
        as (h' & Hrun & Hwf' & Hlen' & Hfr & Hold & Hnew); [| done | done |]
  end.
  { intros i j hm Hi Hj Hwfm Hlenm.
    rewrite (bind_component vs X_DIM velX) by done.
    rewrite !(bind_get g) by (done || lia || grid_bounds).
    match goal with
    | |- context [bind (put velX i j 1 ?v) ?f hm] =>
        destruct (bind_put g hm velX i j 1 v f)
          as (h1 & -> & Hwf1 & Hlen1 & Hfr1 & Hrd1);
          try (done || lia || grid_bounds)
    end.
    rewrite (bind_component vs Y_DIM velY) by done.
    rewrite !(bind_get g) by (done || lia || grid_bounds).
    match goal with
    | |- context [put velY i j 1 ?v] =>
        destruct (put_ok g h1 velY i j 1 v)
          as (h2 & Hrun & Hwf2 & Hlen2 & Hfr2 & Hnew2 & Hold2);
          try (done || lia || grid_bounds)
    end.
    exists h2. split; [done |]. split; [done |]. split; [lia |]. split.
    - intros Y HY. rewrite Hfr2, Hfr1; [done | |]; intros ->; tauto.
    - intros Y a b c [-> | ->].
      + rewrite (decide_True (P := velX = velX)) by done.
        rewrite (rd_frame h1 h2) by (by apply Hfr2). apply Hrd1.
      + rewrite (decide_False (P := velY = velX)) by done.
        case_decide as Hc.
        * destruct Hc as (-> & -> & ->). rewrite Hnew2.
          rewrite (rd_frame hm h1 velY) by (by apply Hfr1).
          by rewrite !(rd_frame hm h1 p) by (by apply Hfr1).
        * rewrite Hold2 by lia. apply rd_frame, Hfr1. congruence. }
  exists h'. split; [done |]. split; [done |]. split; [done |].
  split; [intros Y ? ?; apply Hfr; tauto |].
  split; [intros i j k Hn; split; apply Hold; tauto |].
  intros i j Hi Hj.
  destruct (Hnew i j Hi Hj) as (hm & Hwfm & Hlenm & Hfrm & Hrdm & Hval).
  assert (EP : ∀ a b c, rd hm p a b c = rd h p a b c).
  { intros a b c. apply rd_frame, Hfrm. intros [-> | ->]; congruence. }
  split.
  - rewrite (Hval velX) by tauto.
    rewrite (decide_True (P := velX = velX)) by done. rewrite !EP. f_equal.
    rewrite Hrdm by tauto. case_decide; [lia | done].
  - rewrite (Hval velY) by tauto.
    rewrite (decide_False (P := velY = velX)) by done. rewrite !EP. f_equal.
    rewrite Hrdm by tauto. case_decide; [lia | done].
Qed.

(** [project] is the divergence loop, two MIRROR fills, the twenty
    relaxation sweeps, the gradient loop and the two opposing fills, one
    after the other. *)
Lemma project_ok this vs bufs velX velY p div h :
  wf (grid this) h = true →
  idx vs X_DIM = Some velX → idx vs Y_DIM = Some velY →
  idx bufs X_DIM = Some p → idx bufs Y_DIM = Some div →
  (velX < length h)%nat → (velY < length h)%nat →
  (div < length h)%nat → (p < length h)%nat →
  velX ≠ velY → velX ≠ div → velX ≠ p → velY ≠ div → velY ≠ p → div ≠ p →
  ∃ h1 h2 h3 h4 h5 h6 h',
    project this vs bufs h = Some (tt, h') ∧
    let g := grid this in
    let Lx := (of_Z 1 / of_Z (Nx g))%num in
    let Ly := (of_Z 1 / of_Z (Ny g))%num in
    divergence_computed g Lx Ly velX velY div p h h1 ∧
    setBoundary this div (Some BOUNDARY_MIRROR) h1 = Some (tt, h2) ∧
    setBoundary this p (Some BOUNDARY_MIRROR) h2 = Some (tt, h3) ∧
    iterated 20
      (λ m1 m3, ∃ m2, gauss_seidel_sweep g relax_rhs p div m1 m2 ∧
                      setBoundary this p (Some BOUNDARY_MIRROR) m2 = Some (tt, m3))
      h3 h4 ∧
    gradient_subtracted g Lx Ly velX velY p h4 h5 ∧
    setBoundary this velX (Some BOUNDARY_OPPOSE_X) h5 = Some (tt, h6) ∧
    setBoundary this velY (Some BOUNDARY_OPPOSE_Y) h6 = Some (tt, h') ∧
    wf g h' = true ∧ length h' = length h.
Proof.
  intros Hwf HvX HvY Hp Hdiv HlX HlY Hld Hlp ? ? ? ? ? ?.
  unfold project. cbv zeta.
  rewrite (bind_component bufs X_DIM p) by done.
  rewrite (bind_component bufs Y_DIM div) by done.
  destruct (divergence_ok (grid this)
              (of_Z 1 / of_Z (Nx (grid this)))%num
              (of_Z 1 / of_Z (Ny (grid this)))%num vs velX velY div p h)
    as (h1 & Hrun1 & Hwf1 & Hdc); try done.
  rewrite (bind_run _ _ _ _ _ Hrun1). pose proof Hdc as (Hlen1 & _).
  destruct (setBoundary_fill this div None h1)
    as (h2 & Hrun2 & Hwf2 & Hlen2 & _); [done | lia |].
  rewrite (bind_run _ _ _ _ _ Hrun2).
  destruct (setBoundary_fill this p None h2)
    as (h3 & Hrun3 & Hwf3 & Hlen3 & _); [done | lia |].
  rewrite (bind_run _ _ _ _ _ Hrun3).
  destruct (sweeps_ok this relax_rhs p div None h3)
    as (h4 & Hrun4 & Hwf4 & Hlen4 & _ & Hit); [done | lia | lia |].
  rewrite (bind_run _ _ _ _ _ Hrun4).
  destruct (gradient_ok (grid this)
              (of_Z 1 / of_Z (Nx (grid this)))%num
              (of_Z 1 / of_Z (Ny (grid this)))%num vs velX velY p h4)
    as (h5 & Hrun5 & Hwf5 & Hgs); try (done || lia).
  rewrite (bind_run _ _ _ _ _ Hrun5). pose proof Hgs as (Hlen5 & _).
  rewrite (bind_component vs X_DIM velX) by done.
  destruct (setBoundary_fill this velX (Some BOUNDARY_OPPOSE_X) h5)
    as (h6 & Hrun6 & Hwf6 & Hlen6 & _); [done | lia |].
  rewrite (bind_run _ _ _ _ _ Hrun6).
  rewrite (bind_component vs Y_DIM velY) by done.
  destruct (setBoundary_fill this velY (Some BOUNDARY_OPPOSE_Y) h6)
    as (h7 & Hrun7 & Hwf7 & Hlen7 & _); [done | lia |].
  exists h1, h2, h3, h4, h5, h6, h7.
  split; [done |]. cbv zeta.
  split; [done |]. split; [done |]. split; [done |]. split; [exact Hit |].
  split; [done |]. split; [done |]. split; [done |]. split; [done | lia].
Qed.

End Project.

(** ** The velocity step *)

Section PerDimension.
Context {num : Type} `{Number num}.
Implicit Types (h : heap num) (d : Z).

(** A loop over the dimensions whose body keeps [P] performs the steps of
    its body in turn. *)
Lemma for_each_in_turn (P : heap num → Prop) (body : Z → M num unit)
    (step : Z → heap num → heap num → Prop) (ds : list Z) :
  (∀ d h, d ∈ ds → P h → ∃ h', body d h = Some (tt, h') ∧ P h' ∧ step d h h') →
  ∀ h, P h → ∃ h', for_each ds body h = Some (tt, h') ∧ P h' ∧ in_turn ds step h h'.
Proof.
  induction ds as [| d ds IH]; intros Hbody h HP; simpl.
  - by exists h.
  - destruct (Hbody d h) as (m & Hrun & HPm & Hstep); [left | done |].
    destruct (IH (λ d' h' Hin, Hbody d' h' (list_elem_of_further _ _ _ Hin)) m HPm)
      as (h' & Hrun' & HP' & Hturn).
    exists h'. rewrite (bind_run _ _ _ _ _ Hrun). split; [done |].
    split; [done |]. by exists m.
Qed.

Lemma for_lt_in_turn (P : heap num → Prop) (body : Z → M num unit)
    (step : Z → heap num → heap num → Prop) (n : Z) :
  (∀ d h, 0 ≤ d < n → P h → ∃ h', body d h = Some (tt, h') ∧ P h' ∧ step d h h') →
  ∀ h, P h → ∃ h', for_lt 0 n body h = Some (tt, h') ∧ P h' ∧
                   in_turn (seqZ 0 n) step h h'.
Proof.
  intros Hbody. unfold for_lt. rewrite Z.sub_0_r.
  apply for_each_in_turn. intros d h Hin. apply Hbody.
  apply elem_of_seqZ in Hin. lia.
Qed.

Lemma idx_elem_of {A} (l : list A) d :
  0 ≤ d < Z.of_nat (length l) → ∃ x, idx l d = Some x ∧ x ∈ l.
Proof.
  intros Hd. destruct (proj2 (idx_is_Some l d) Hd) as [x Hx]. exists x.
  split; [done |]. apply idx_Some in Hx as [_ Hx].
  eapply list_elem_of_lookup_2, Hx.
Qed.

Lemma idx_app_NoDup {A} (l1 l2 : list A) d1 d2 x y :
  NoDup (l1 ++ l2) →
  (idx l1 d1 = Some x ∧ idx l1 d2 = Some y ∧ d1 ≠ d2 ∨
   idx l1 d1 = Some x ∧ idx l2 d2 = Some y ∨
   idx l2 d1 = Some x ∧ idx l2 d2 = Some y ∧ d1 ≠ d2) →
  x ≠ y.
Proof.
  intros Hnd Hcases ->.
  destruct Hcases as [(H1 & H2 & Hne) | [(H1 & H2) | (H1 & H2 & Hne)]];
    apply idx_Some in H1 as [? H1]; apply idx_Some in H2 as [? H2].
  - pose proof (NoDup_lookup _ (Z.to_nat d1) (Z.to_nat d2) y Hnd
                  (lookup_app_l_Some _ _ _ _ H1) (lookup_app_l_Some _ _ _ _ H2)).
    lia.
  - pose proof (lookup_lt_Some _ _ _ H1).
    assert ((l1 ++ l2) !! (length l1 + Z.to_nat d2)%nat = Some y) as H2'.
    { by rewrite lookup_app_r, Nat.add_comm, Nat.add_sub by lia. }
    pose proof (NoDup_lookup _ _ _ y Hnd (lookup_app_l_Some _ _ _ _ H1) H2'). lia.
  - assert ((l1 ++ l2) !! (length l1 + Z.to_nat d1)%nat = Some y) as H1'.
    { by rewrite lookup_app_r, Nat.add_comm, Nat.add_sub by lia. }
    assert ((l1 ++ l2) !! (length l1 + Z.to_nat d2)%nat = Some y) as H2'.
    { by rewrite lookup_app_r, Nat.add_comm, Nat.add_sub by lia. }
    pose proof (NoDup_lookup _ _ _ y Hnd H1' H2'). lia.
Qed.

Lemma swap_twice (this : Simulator num) :
  with_grid (with_grid this (swapV (grid this)))
            (swapV (grid (with_grid this (swapV (grid this))))) = this.
Proof. by destruct this as [? ? ? [] ?]. Qed.

End PerDimension.

Section VelocityStep.
Context {num : Type} `{Number num}.
Implicit Types (h : heap num) (d : Z).

Lemma in_turn_keeps (P : heap num → Prop)
    (step : Z → heap num → heap num → Prop) (ds : list Z) :
  (∀ d m1 m2, d ∈ ds → P m1 → step d m1 m2 → P m2) →
  ∀ h h', P h → in_turn ds step h h' → P h'.
Proof.
  induction ds as [| d ds IH]; simpl; intros Hstep h h' HP.
  - by intros ->.
  - intros (m & Hm & Hrest).
    apply (IH (λ d' m1 m2 Hin, Hstep d' m1 m2 (list_elem_of_further _ _ _ Hin))
              m h'); [| done].
    apply (Hstep d h m); [left | done | done].
Qed.

Lemma in_turn_impl (step step' : Z → heap num → heap num → Prop) (ds : list Z) :
  (∀ d m1 m2, d ∈ ds → step d m1 m2 → step' d m1 m2) →
  ∀ h h', in_turn ds step h h' → in_turn ds step' h h'.
Proof.
  induction ds as [| d ds IH]; simpl; intros Himpl h h'; [done |].
  intros (m & Hm & Hrest). exists m. split.
  - apply Himpl; [left | done].
  - apply IH; [| done]. intros d' m1 m2 Hin. apply Himpl. by right.
Qed.

(** A loop returns exactly when the runs of its body return in turn. *)
Lemma for_each_returned (body : Z → M num unit) (l : list Z) h h' :
  for_each l body h = Some (tt, h') ↔
  in_turn l (λ d m1 m2, body d m1 = Some (tt, m2)) h h'.
Proof.
  revert h. induction l as [| d l IH]; simpl; intros h.
  - unfold ret. split; [by intros [= <-] | by intros ->].
  - split.
    + intros Hrun. apply bind_Some in Hrun as ([] & m & Hm & Hrun).
      exists m. split; [done |]. by apply IH.
    + intros (m & Hm & Hrest). rewrite (bind_run _ _ _ _ _ Hm). by apply IH.
Qed.

(** [project] leaves the divergence it computed in [buf[Y_DIM]] and
    writes nothing but the two components of [vel] and of [buf]. *)
Lemma project_scratch this vs bufs velX velY p div h :
  wf (grid this) h = true →
  idx vs X_DIM = Some velX → idx vs Y_DIM = Some velY →
  idx bufs X_DIM = Some p → idx bufs Y_DIM = Some div →
  (velX < length h)%nat → (velY < length h)%nat →
  (div < length h)%nat → (p < length h)%nat →
  velX ≠ velY → velX ≠ div → velX ≠ p → velY ≠ div → velY ≠ p → div ≠ p →
  ∃ h', project this vs bufs h = Some (tt, h') ∧
        wf (grid this) h' = true ∧ length h' = length h ∧
        (∀ Y, Y ≠ velX → Y ≠ velY → Y ≠ p → Y ≠ div → h' !! Y = h !! Y) ∧
        ∀ i j, active (Nx (grid this)) i → active (Ny (grid this)) j →
          rd h' div i j 1 =
            divergence_rhs (of_Z 1 / of_Z (Nx (grid this)))%num
                           (of_Z 1 / of_Z (Ny (grid this)))%num
              (rd h velX (i + 1) j 1) (rd h velX (i - 1) j 1)
              (rd h velY i (j + 1) 1) (rd h velY i (j - 1) 1).
Proof.
  intros Hwf HvX HvY Hp Hdiv HlX HlY Hld Hlp ? ? ? ? ? ?.
  unfold project. cbv zeta.
  rewrite (bind_component bufs X_DIM p) by done.
  rewrite (bind_component bufs Y_DIM div) by done.
  destruct (divergence_ok (grid this)
              (of_Z 1 / of_Z (Nx (grid this)))%num
              (of_Z 1 / of_Z (Ny (grid this)))%num vs velX velY div p h)
    as (h1 & Hrun1 & Hwf1 & Hlen1 & Hfr1 & _ & Hin1); try done.
  rewrite (bind_run _ _ _ _ _ Hrun1).
  destruct (setBoundary_interior this div None h1)
    as (h2 & Hrun2 & Hwf2 & Hlen2 & Hkeep2 & Hfr2); [done | lia |].
  rewrite (bind_run _ _ _ _ _ Hrun2).
  destruct (setBoundary_fill this p None h2)
    as (h3 & Hrun3 & Hwf3 & Hlen3 & Hfr3 & _); [done | lia |].
  rewrite (bind_run _ _ _ _ _ Hrun3).
  destruct (sweeps_ok this relax_rhs p div None h3)
    as (h4 & Hrun4 & Hwf4 & Hlen4 & Hfr4 & _); [done | lia | lia |].
  rewrite (bind_run _ _ _ _ _ Hrun4).
  destruct (gradient_ok (grid this)
              (of_Z 1 / of_Z (Nx (grid this)))%num
              (of_Z 1 / of_Z (Ny (grid this)))%num vs velX velY p h4)
    as (h5 & Hrun5 & Hwf5 & Hlen5 & Hfr5 & _); try (done || lia).
  rewrite (bind_run _ _ _ _ _ Hrun5).
  rewrite (bind_component vs X_DIM velX) by done.
  destruct (setBoundary_fill this velX (Some BOUNDARY_OPPOSE_X) h5)
    as (h6 & Hrun6 & Hwf6 & Hlen6 & Hfr6 & _); [done | lia |].
  rewrite (bind_run _ _ _ _ _ Hrun6).
  rewrite (bind_component vs Y_DIM velY) by done.
  destruct (setBoundary_fill this velY (Some BOUNDARY_OPPOSE_Y) h6)
    as (h7 & Hrun7 & Hwf7 & Hlen7 & Hfr7 & _); [done | lia |].
  exists h7. split; [done |]. split; [done |]. split; [lia |]. split.
  - intros Y ? ? ? ?.
    rewrite Hfr7, Hfr6, Hfr5, Hfr4, Hfr3, Hfr2, Hfr1 by done. done.
  - intros i j Hi Hj.
    rewrite (rd_frame h2 h7 div)
      by (rewrite Hfr7, Hfr6, Hfr5, Hfr4, Hfr3 by done; done).
    rewrite Hkeep2 by done. by destruct (Hin1 i j Hi Hj) as [-> _].
Qed.

(** The first three phases of [vStep] return on every well-formed state:
    the sources, the diffusion and the first projection; what remains is
    the advection and the second projection. *)
Lemma vStep_run (N_DIMS : Z) (this : Simulator num) h :
  wf (grid this) h = true →
  2 ≤ N_DIMS →
  N_DIMS ≤ Z.of_nat (length (vel (grid this))) →
  N_DIMS ≤ Z.of_nat (length (prev_vel (grid this))) →
  N_DIMS ≤ Z.of_nat (length (v_src this)) →
  Forall (λ l, l < length h)%nat
    (vel (grid this) ++ prev_vel (grid this) ++ v_src this) →
  NoDup (vel (grid this) ++ prev_vel (grid this)) →
  ∃ vX vY pX pY h1 h2 h3,
    let dims := seqZ 0 N_DIMS in
    let swapped := with_grid this (swapV (grid this)) in
    idx (vel (grid this)) X_DIM = Some vX ∧ idx (vel (grid this)) Y_DIM = Some vY ∧
    idx (prev_vel (grid this)) X_DIM = Some pX ∧
    idx (prev_vel (grid this)) Y_DIM = Some pY ∧
    in_turn dims
      (λ d m1 m3, ∃ v pv s m2,
         idx (vel (grid this)) d = Some v ∧
         idx (prev_vel (grid this)) d = Some pv ∧
         idx (v_src this) d = Some s ∧
         addSource this v pv m1 = Some (tt, m2) ∧
         addSource this v s m2 = Some (tt, m3))
      h h1 ∧
    in_turn dims
      (λ d m1 m2, ∃ v pv,
         idx (vel (grid swapped)) d = Some v ∧
         idx (prev_vel (grid swapped)) d = Some pv ∧
         diffuse swapped v pv (visc this) (d + 1) m1 = Some (tt, m2))
      h1 h2 ∧
    project swapped (vel (grid swapped)) (prev_vel (grid swapped)) h2 = Some (tt, h3) ∧
    wf (grid this) h3 = true ∧ length h3 = length h ∧
    (∀ Y, Y ∉ vel (grid this) → Y ∉ prev_vel (grid this) → h3 !! Y = h !! Y) ∧
    (∀ i j, active (Nx (grid this)) i → active (Ny (grid this)) j →
       rd h3 vY i j 1 =
         divergence_rhs (of_Z 1 / of_Z (Nx (grid this)))%num
                        (of_Z 1 / of_Z (Ny (grid this)))%num
           (rd h2 pX (i + 1) j 1) (rd h2 pX (i - 1) j 1)
           (rd h2 pY i (j + 1) 1) (rd h2 pY i (j - 1) 1)) ∧
    vStep N_DIMS this h =
      (for_lt 0 N_DIMS (λ dim,
         v <- component (vel (grid this)) dim ;;
         pv <- component (prev_vel (grid this)) dim ;;
         advect this v pv (vel (grid this)) (dim + 1)) ;;;
       project this (vel (grid this)) (prev_vel (grid this)) ;;;
       ret this) h3.
Proof.
  intros Hwf HN Hlv Hlpv Hls Hall Hnd.
  rewrite !Forall_app in Hall. destruct Hall as (Hav & Hapv & Has).
  rewrite Forall_forall in Hav, Hapv, Has.
  set (swapped := with_grid this (swapV (grid this))).
  set (P := λ m : heap num,
         wf (grid this) m = true ∧ length m = length h ∧
         ∀ Y, Y ∉ vel (grid this) → Y ∉ prev_vel (grid this) → m !! Y = h !! Y).
  (* the components named by the loops and by [project] *)
  assert (Hv : ∀ d, 0 ≤ d < N_DIMS →
            ∃ v, idx (vel (grid this)) d = Some v ∧ (v < length h)%nat ∧
                 v ∈ vel (grid this)).
  { intros d Hd. destruct (idx_elem_of (vel (grid this)) d) as (v & ? & ?); [lia |].
    exists v. auto. }
  assert (Hpv : ∀ d, 0 ≤ d < N_DIMS →
            ∃ v, idx (prev_vel (grid this)) d = Some v ∧ (v < length h)%nat ∧
                 v ∈ prev_vel (grid this)).
  { intros d Hd. destruct (idx_elem_of (prev_vel (grid this)) d) as (v & ? & ?); [lia |].
    exists v. auto. }
  assert (Hs : ∀ d, 0 ≤ d < N_DIMS →
            ∃ v, idx (v_src this) d = Some v ∧ (v < length h)%nat).
  { intros d Hd. destruct (idx_elem_of (v_src this) d) as (v & ? & ?); [lia |].
    exists v. auto. }
  destruct (Hv X_DIM) as (vX & HvX & HlvX & HinvX); [unfold X_DIM; lia |].
  destruct (Hv Y_DIM) as (vY & HvY & HlvY & HinvY); [unfold Y_DIM; lia |].
  destruct (Hpv X_DIM) as (pX & HpX & HlpX & HinpX); [unfold X_DIM; lia |].
  destruct (Hpv Y_DIM) as (pY & HpY & HlpY & HinpY); [unfold Y_DIM; lia |].
  assert (vX ≠ vY) by (eapply idx_app_NoDup; [exact Hnd | left; by repeat split]).
  assert (pX ≠ pY) by (eapply idx_app_NoDup; [exact Hnd | right; right; by repeat split]).
  assert (vX ≠ pX) by (eapply idx_app_NoDup; [exact Hnd | right; left; by split]).
  assert (vX ≠ pY) by (eapply idx_app_NoDup; [exact Hnd | right; left; by split]).
  assert (vY ≠ pX) by (eapply idx_app_NoDup; [exact Hnd | right; left; by split]).
  assert (vY ≠ pY) by (eapply idx_app_NoDup; [exact Hnd | right; left; by split]).
  assert (Hout : ∀ Y v, Y ∉ vel (grid this) → v ∈ vel (grid this) → Y ≠ v)
    by (intros Y v Hn Hin ->; done).
  assert (Hout' : ∀ Y v, Y ∉ prev_vel (grid this) → v ∈ prev_vel (grid this) → Y ≠ v)
    by (intros Y v Hn Hin ->; done).
  unfold vStep. cbv zeta. rewrite (swap_twice this). fold swapped.
  (* sources *)
  edestruct (for_lt_in_turn P) with (h := h)
    (step := λ d m1 m3, ∃ v pv s m2,
       idx (vel (grid this)) d = Some v ∧
       idx (prev_vel (grid this)) d = Some pv ∧
       idx (v_src this) d = Some s ∧
       addSource this v pv m1 = Some (tt, m2) ∧
       addSource this v s m2 = Some (tt, m3))
    as (h1 & Hrun1 & (Hwf1 & Hlen1 & Hfr1) & Hturn1);
    [| done | rewrite (bind_run _ _ _ _ _ Hrun1)].
  { intros d m Hd (Hwfm & Hlenm & Hfrm).
    destruct (Hv d Hd) as (v & Hvd & Hlvd & Hinv).
    destruct (Hpv d Hd) as (pv & Hpvd & Hlpvd & _).
    destruct (Hs d Hd) as (s & Hsd & Hlsd).
    rewrite (bind_component _ d v), (bind_component _ d pv) by done.
    destruct (addSource_ok this v pv m) as (m2 & Hrun2 & _ & Hfr2 & Hlen2 & Hwf2);
      [done | lia | lia |].
    rewrite (bind_run _ _ _ _ _ Hrun2).
    rewrite (bind_component _ d v), (bind_component _ d s) by done.
    destruct (addSource_ok this v s m2) as (m3 & Hrun3 & _ & Hfr3 & Hlen3 & Hwf3);
      [done | lia | lia |].
    exists m3. split; [done |]. split; [| by exists v, pv, s, m2].
    split; [done |]. split; [lia |]. intros Y HY HY'.
    rewrite Hfr3, Hfr2 by (by apply Hout). by apply Hfrm. }
  (* diffusion *)
  edestruct (for_lt_in_turn P) with (h := h1)
    (step := λ d m1 m2, ∃ v pv,
       idx (vel (grid swapped)) d = Some v ∧
       idx (prev_vel (grid swapped)) d = Some pv ∧
       diffuse swapped v pv (visc this) (d + 1) m1 = Some (tt, m2))
    as (h2 & Hrun2 & (Hwf2 & Hlen2 & Hfr2) & Hturn2);
    [| done | rewrite (bind_run _ _ _ _ _ Hrun2)].
  { intros d m Hd (Hwfm & Hlenm & Hfrm).
    destruct (Hv d Hd) as (v & Hvd & Hlvd & _).
    destruct (Hpv d Hd) as (pv & Hpvd & Hlpvd & Hinpv).
    rewrite (bind_component _ d pv), (bind_component _ d v) by done.
    destruct (diffuse_ok swapped pv v (visc swapped) (d + 1) m)
      as (m2 & Hrunm & Hwfm2 & Hlenm2 & Hfrm2 & _); [done | lia | lia |].
    exists m2. split; [done |]. split; [| by exists pv, v].
    split; [done |]. split; [lia |]. intros Y HY HY'.
    rewrite Hfrm2 by (by apply Hout'). by apply Hfrm. }
  (* first projection *)
  destruct (project_scratch swapped (vel (grid swapped)) (prev_vel (grid swapped))
              pX pY vX vY h2)
    as (h3 & Hrun3 & Hwf3 & Hlen3 & Hfr3 & Hdiv3);
    try (done || lia || congruence).
  rewrite (bind_run _ _ _ _ _ Hrun3).
  exists vX, vY, pX, pY, h1, h2, h3. cbv zeta.
  split; [done |]. split; [done |]. split; [done |]. split; [done |].
  split; [done |]. split; [done |]. split; [done |]. split; [done |].
  split; [lia |]. split; [| split; [exact Hdiv3 | done]].
  intros Y HY HY'. rewrite Hfr3 by first [by apply Hout' | by apply Hout].
  by apply Hfr2.
Qed.

(** The last two phases from a well-formed state: when the advections
    return the projection returns as well, and the whole returns only if
    the advections did. *)
Lemma vStep_rest (N_DIMS : Z) (this : Simulator num) h :
  wf (grid this) h = true →
  2 ≤ N_DIMS →
  N_DIMS ≤ Z.of_nat (length (vel (grid this))) →
  N_DIMS ≤ Z.of_nat (length (prev_vel (grid this))) →
  Forall (λ l, l < length h)%nat (vel (grid this) ++ prev_vel (grid this)) →
  NoDup (vel (grid this) ++ prev_vel (grid this)) →
  let rest :=
    (for_lt 0 N_DIMS (λ dim,
       v <- component (vel (grid this)) dim ;;
       pv <- component (prev_vel (grid this)) dim ;;
       advect this v pv (vel (grid this)) (dim + 1)) ;;;
     project this (vel (grid this)) (prev_vel (grid this)) ;;;
     ret this) in
  let advections :=
    in_turn (seqZ 0 N_DIMS)
      (λ d m1 m2, ∃ v pv,
         idx (vel (grid this)) d = Some v ∧
         idx (prev_vel (grid this)) d = Some pv ∧
         advect this v pv (vel (grid this)) (d + 1) m1 = Some (tt, m2)) in
  (∀ h4, advections h h4 →
     ∃ h', project this (vel (grid this)) (prev_vel (grid this)) h4 = Some (tt, h') ∧
           rest h = Some (this, h') ∧
           wf (grid this) h' = true ∧ length h' = length h ∧
           ∀ Y, Y ∉ vel (grid this) → Y ∉ prev_vel (grid this) → h' !! Y = h !! Y) ∧
  (∀ r, rest h = Some r → ∃ h4, advections h h4).
Proof.
  intros Hwf HN Hlv Hlpv Hall Hnd rest advections.
  rewrite !Forall_app in Hall. destruct Hall as (Hav & Hapv).
  rewrite Forall_forall in Hav, Hapv.
  assert (Hv : ∀ d, 0 ≤ d < N_DIMS →
            ∃ v, idx (vel (grid this)) d = Some v ∧ (v < length h)%nat ∧
                 v ∈ vel (grid this)).
  { intros d Hd. destruct (idx_elem_of (vel (grid this)) d) as (v & ? & ?); [lia |].
    exists v. auto. }
  assert (Hpv : ∀ d, 0 ≤ d < N_DIMS →
            ∃ v, idx (prev_vel (grid this)) d = Some v ∧ (v < length h)%nat ∧
                 v ∈ prev_vel (grid this)).
  { intros d Hd. destruct (idx_elem_of (prev_vel (grid this)) d) as (v & ? & ?); [lia |].
    exists v. auto. }
  destruct (Hv X_DIM) as (vX & HvX & HlvX & HinvX); [unfold X_DIM; lia |].
  destruct (Hv Y_DIM) as (vY & HvY & HlvY & HinvY); [unfold Y_DIM; lia |].
  destruct (Hpv X_DIM) as (pX & HpX & HlpX & HinpX); [unfold X_DIM; lia |].
  destruct (Hpv Y_DIM) as (pY & HpY & HlpY & HinpY); [unfold Y_DIM; lia |].
  assert (vX ≠ vY) by (eapply idx_app_NoDup; [exact Hnd | left; by repeat split]).
  assert (pX ≠ pY) by (eapply idx_app_NoDup; [exact Hnd | right; right; by repeat split]).
  assert (vX ≠ pX) by (eapply idx_app_NoDup; [exact Hnd | right; left; by split]).
  assert (vX ≠ pY) by (eapply idx_app_NoDup; [exact Hnd | right; left; by split]).
  assert (vY ≠ pX) by (eapply idx_app_NoDup; [exact Hnd | right; left; by split]).
  assert (vY ≠ pY) by (eapply idx_app_NoDup; [exact Hnd | right; left; by split]).
  assert (Hloop : ∀ h4,
    for_lt 0 N_DIMS (λ dim,
      v <- component (vel (grid this)) dim ;;
      pv <- component (prev_vel (grid this)) dim ;;
      advect this v pv (vel (grid this)) (dim + 1)) h = Some (tt, h4) ↔
    advections h h4).
  { intros h4. unfold for_lt. rewrite Z.sub_0_r, for_each_returned.
    unfold advections.
    split; apply in_turn_impl; intros d m1 m2 Hd%elem_of_seqZ.
    - destruct (Hv d) as (v & Hvd & _); [lia |].
      destruct (Hpv d) as (pv & Hpvd & _); [lia |].
      rewrite (bind_component _ d v), (bind_component _ d pv) by done.
      intros Hrun. by exists v, pv.
    - intros (v & pv & Hvd & Hpvd & Hrun).
      by rewrite (bind_component _ d v), (bind_component _ d pv). }
  split.
  - intros h4 Hadv.
    assert (wf (grid this) h4 = true ∧ length h4 = length h ∧
            ∀ Y, Y ∉ vel (grid this) → h4 !! Y = h !! Y) as (Hwf4 & Hlen4 & Hfr4).
    { revert Hadv. unfold advections.
      apply (in_turn_keeps (λ m, wf (grid this) m = true ∧ length m = length h ∧
                                 ∀ Y, Y ∉ vel (grid this) → m !! Y = h !! Y));
        [| done].
      intros d m1 m2 Hd%elem_of_seqZ (Hwf1 & Hlen1 & Hfr1) (v & pv & Hvd & Hpvd & Hrun).
      destruct (Hv d) as (v' & Hvd' & Hlv' & Hinv'); [lia |].
      rewrite Hvd in Hvd'. injection Hvd' as <-.
      destruct (advect_returned this v pv (vel (grid this)) vX vY (d + 1) m1 m2)
        as (Hwf2 & Hlen2 & Hfr2); try (done || lia).
      split; [done |]. split; [lia |]. intros Y HY.
      rewrite Hfr2 by (by intros ->). by apply Hfr1. }
    destruct (project_scratch this (vel (grid this)) (prev_vel (grid this))
                vX vY pX pY h4)
      as (h5 & Hrun5 & Hwf5 & Hlen5 & Hfr5 & _);
      try (done || lia || congruence).
    exists h5. split; [done |]. split; [| split; [done | split; [lia |]]].
    + unfold rest. apply Hloop in Hadv.
      rewrite (bind_run _ _ _ _ _ Hadv), (bind_run _ _ _ _ _ Hrun5). done.
    + intros Y HY HY'. rewrite Hfr5; [by apply Hfr4 | | | |];
        by intros ->.
  - intros r Hr. unfold rest in Hr.
    apply bind_Some in Hr as ([] & h4 & Hrun & _).
    exists h4. by apply Hloop.
Qed.

End VelocityStep.

(** ** Construction *)

Section Construction.
Context {num : Type} `{Number num}.
Implicit Types (h : heap num) (g : Grid).

Lemma shape_ok_zeros3d g :
  0 ≤ Nx g + 2 → 0 ≤ Ny g + 2 → 0 ≤ Nz g + 2 →
  shape_ok g (zeros3d (Nx g + 2) (Ny g + 2) (Nz g + 2)) = true.
Proof.
  intros. unfold shape_ok, zeros3d. rewrite length_replicate.
  apply andb_true_iff. split; [apply Z.eqb_eq; lia |].
  apply forallb_forall. intros r [-> _]%list_elem_of_In%elem_of_replicate.
  rewrite length_replicate. apply andb_true_iff. split; [apply Z.eqb_eq; lia |].
  apply forallb_forall. intros col [-> _]%list_elem_of_In%elem_of_replicate.
  rewrite length_replicate. apply Z.eqb_eq. lia.
Qed.

Lemma zeros4d_run n (a b c : Z) h :
  zeros4d n a b c h = Some (seq (length h) n, h ++ replicate n (zeros3d a b c)).
Proof.
  revert h. induction n as [| n IH]; intros h; simpl.
  - unfold ret. by rewrite app_nil_r.
  - unfold bind at 1. unfold alloc at 1. unfold bind at 1. rewrite IH.
    unfold ret. rewrite length_app. simpl.
    rewrite Nat.add_1_r, <- app_assoc. done.
Qed.

(** The constructor stores the three parameters as they are given: once
    the Grid exists and has room for the forcing cell [(5, 25)],
    construction succeeds. *)
Lemma new_Simulator_ok
    (new_Grid : Z → Z → Z → num → num → num → M num Grid)
    (N : Z) (width height visc0 diff0 timeStep0 : num) h g h1 :
  new_Grid N N 1 width height (of_Z 0) h = Some (g, h1) →
  4 ≤ Nx g → 24 ≤ Ny g → 0 ≤ Nz g →
  ∃ sim h', new_Simulator new_Grid N width height visc0 diff0 timeStep0 h
              = Some (sim, h') ∧
            visc sim = visc0 ∧ diff sim = diff0 ∧ timeStep sim = timeStep0 ∧
            grid sim = g.
Proof.
  intros Hgrid ? ? ?. unfold new_Simulator.
  rewrite (bind_run _ _ _ _ _ Hgrid).
  rewrite (bind_run _ _ _ _ _ (zeros4d_run 3 _ _ _ h1)).
  set (z := zeros3d (Nx g + 2) (Ny g + 2) (Nz g + 2)).
  rewrite (bind_component _ X_DIM (length h1)) by done.
  assert (shape_ok g z = true) as Hz by (apply shape_ok_zeros3d; lia).
  destruct (cell_upd_spec g z 5 25 1 (of_Z 500) Hz) as (z' & Hupd & _);
    try (unfold in_grid; lia).
  unfold bind, put. simpl replicate.
  rewrite list_lookup_middle by done. simpl. rewrite Hupd. simpl.
  by eexists _, _.
Qed.

End Construction.

(** ** Runs on the small simulator *)

Example demo_heap_wf : wf demo_grid demo_heap = true.
Proof. reflexivity. Qed.

Example demo_plane :
  plane 2 (Some (tt, demo_heap)) 0%nat =
  [[1; 5; 9; 13]; [17; 21; 25; 29]; [33; 37; 41; 45]; [49; 53; 57; 61]]%Q.
Proof. vm_compute. reflexivity. Qed.

Example setBoundary_oppose_x_run :
  plane 2 (setBoundary demo_sim 0%nat (Some BOUNDARY_OPPOSE_X) demo_heap) 0%nat =
  [[0; -21; -25; 0]; [21; 21; 25; 25]; [37; 37; 41; 41]; [0; -37; -41; 0]]%Q.
Proof. vm_compute. reflexivity. Qed.

Example setBoundary_default_run :
  plane 2 (setBoundary demo_sim 0%nat None demo_heap) 0%nat =
  [[21; 21; 25; 25]; [21; 21; 25; 25]; [37; 37; 41; 41]; [37; 37; 41; 41]]%Q.
Proof. vm_compute. reflexivity. Qed.

Example addSource_run :
  plane 2 (addSource demo_sim 0%nat 1%nat demo_heap) 0%nat =
  [[15 # 2; 119 # 10; 163 # 10; 207 # 10];
   [251 # 10; 59 # 2; 339 # 10; 383 # 10];
   [427 # 10; 471 # 10; 103 # 2; 559 # 10];
   [603 # 10; 647 # 10; 691 # 10; 147 # 2]]%Q.
Proof. vm_compute. reflexivity. Qed.

(** With the large velocities of the demo fields every backtracked
    coordinate is clamped to 0.5, and every active cell samples the four
    cells around (0.5, 0.5). *)
Example advect_clamped_run :
  plane 2 (advect demo_sim 0%nat 3%nat [1; 2]%nat BOUNDARY_MIRROR demo_heap) 0%nat =
  [[203; 203; 203; 203]; [203; 203; 203; 203];
   [203; 203; 203; 203]; [203; 203; 203; 203]]%Q.
Proof. vm_compute. reflexivity. Qed.

(** * The claims *)

(** The side conditions of the examples are closed by evaluation. *)
Ltac by_evaluation :=
  first [reflexivity | lia | simpl; lia | vm_compute; reflexivity | vm_compute; lia].

(** C1: [project], given a velocity field [vs] and a scratch buffer [bufs]
    whose four fields [velX], [velY], [p] and [div] are different arrays,
    (a) writes [-0.5 * (Lx * (velX[i+1][j] - velX[i-1][j]) +
    Ly * (velY[i][j+1] - velY[i][j-1]))], with [Lx = 1/Nx] and [Ly = 1/Ny],
    into every active cell of [div], (b) zeroes every active cell of [p],
    (c) applies the MIRROR fill to [div] and to [p], (d) runs exactly 20
    Gauss-Seidel sweeps of
    [p[i][j] = (div[i][j] + p[i-1][j] + p[i+1][j] + p[i][j-1] + p[i][j+1]) / 4],
    each followed by a MIRROR fill of [p], (e) subtracts
    [0.5 * (p[i+1][j] - p[i-1][j]) / Lx] from [velX[i][j]] and
    [0.5 * (p[i][j+1] - p[i][j-1]) / Ly] from [velY[i][j]] at every active
    cell, and (f) ends with an OPPOSE_X fill of [velX] and an OPPOSE_Y fill
    of [velY], in that order. *)
Theorem project_phases {num : Type} `{Number num}
    (this : Simulator num) (vs bufs : list loc) (velX velY p div : loc)
    (h : heap num) :
  wf (grid this) h = true →
  idx vs X_DIM = Some velX → idx vs Y_DIM = Some velY →
  idx bufs X_DIM = Some p → idx bufs Y_DIM = Some div →
  (velX < length h)%nat → (velY < length h)%nat →
  (div < length h)%nat → (p < length h)%nat →
  velX ≠ velY → velX ≠ div → velX ≠ p → velY ≠ div → velY ≠ p → div ≠ p →
  ∃ h1 h2 h3 h4 h5 h6 h',
    project this vs bufs h = Some (tt, h') ∧
    let g := grid this in
    let Lx := (of_Z 1 / of_Z (Nx g))%num in
    let Ly := (of_Z 1 / of_Z (Ny g))%num in
    (length h1 = length h ∧
     (∀ Y, Y ≠ div → Y ≠ p → h1 !! Y = h !! Y) ∧
     (∀ i j k, ¬ (active (Nx g) i ∧ active (Ny g) j ∧ k = 1) →
        rd h1 div i j k = rd h div i j k ∧ rd h1 p i j k = rd h p i j k) ∧
     (∀ i j, active (Nx g) i → active (Ny g) j →
        rd h1 div i j 1 =
          ((- half) * (Lx * (rd h velX (i + 1) j 1 - rd h velX (i - 1) j 1) +
                       Ly * (rd h velY i (j + 1) 1 - rd h velY i (j - 1) 1)))%num ∧
        rd h1 p i j 1 = of_Z 0)) ∧
    setBoundary this div (Some BOUNDARY_MIRROR) h1 = Some (tt, h2) ∧
    setBoundary this p (Some BOUNDARY_MIRROR) h2 = Some (tt, h3) ∧
    iterated 20
      (λ m1 m3, ∃ m2,
         gauss_seidel_sweep g
           (λ d p1 p2 p3 p4, ((d + p1 + p2 + p3 + p4) / of_Z 4)%num)
           p div m1 m2 ∧
         setBoundary this p (Some BOUNDARY_MIRROR) m2 = Some (tt, m3))
      h3 h4 ∧
    (length h5 = length h4 ∧
     (∀ Y, Y ≠ velX → Y ≠ velY → h5 !! Y = h4 !! Y) ∧
     (∀ i j k, ¬ (active (Nx g) i ∧ active (Ny g) j ∧ k = 1) →
        rd h5 velX i j k = rd h4 velX i j k ∧
        rd h5 velY i j k = rd h4 velY i j k) ∧
     (∀ i j, active (Nx g) i → active (Ny g) j →
        rd h5 velX i j 1 =
          (rd h4 velX i j 1
           - half * (rd h4 p (i + 1) j 1 - rd h4 p (i - 1) j 1) / Lx)%num ∧
        rd h5 velY i j 1 =
          (rd h4 velY i j 1
           - half * (rd h4 p i (j + 1) 1 - rd h4 p i (j - 1) 1) / Ly)%num)) ∧
    setBoundary this velX (Some BOUNDARY_OPPOSE_X) h5 = Some (tt, h6) ∧
    setBoundary this velY (Some BOUNDARY_OPPOSE_Y) h6 = Some (tt, h') ∧
    wf g h' = true ∧ length h' = length h.
Proof.
  intros. destruct (project_ok this vs bufs velX velY p div h)
    as (h1 & h2 & h3 & h4 & h5 & h6 & h' & Hrun & Hdiv & Hf1 & Hf2 & Hit &
        Hgrad & Hf3 & Hf4 & Hwf' & Hlen'); try done.
  exists h1, h2, h3, h4, h5, h6, h'. cbv zeta in *.
  split; [exact Hrun |]. split; [exact Hdiv |]. split; [exact Hf1 |].
  split; [exact Hf2 |]. split; [exact Hit |]. split; [exact Hgrad |].
  split; [exact Hf3 |]. split; [exact Hf4 |]. by split.
Qed.

Lemma project_phases_witness :
  ∃ h1 h', project demo_sim [0; 1; 2]%nat [3; 4; 5]%nat demo_heap = Some (tt, h') ∧
    rd h1 4%nat 1 1 1 =
      ((- (1 # 2)) * ((1 / 2) * (rd demo_heap 0%nat 2 1 1 - rd demo_heap 0%nat 0 1 1) +
                      (1 / 2) * (rd demo_heap 1%nat 1 2 1 - rd demo_heap 1%nat 1 0 1)))%Q.
Proof.
  destruct (project_phases demo_sim [0; 1; 2]%nat [3; 4; 5]%nat
              0%nat 1%nat 3%nat 4%nat demo_heap)
    as (h1 & _ & _ & _ & _ & _ & h' & Hrun & (_ & _ & _ & Hdiv) & _);
    [by_evaluation .. |].
  exists h1, h'. split; [exact Hrun |].
  apply (Hdiv 1 1); unfold active; simpl; lia.
Defined.

(** C2: [diffuse(cur, prev, k, bMode)] performs exactly 20 sweeps, with no
    test that could end the loop earlier; each sweep updates every active
    cell in place with
    [(prev[i][j] + a * (cur[i-1][j] + cur[i+1][j] + cur[i][j-1] + cur[i][j+1])) / (1 + 4a)],
    [a = timeStep * k * Nx * Ny], where the left and lower neighbours already
    hold the values of the same sweep, and each sweep is followed by the
    boundary fill with mode [bMode]. *)
Theorem diffuse_twenty_sweeps {num : Type} `{Number num}
    (this : Simulator num) (cur prev : loc) (k : num) (bMode : Z) (h : heap num) :
  wf (grid this) h = true → (cur < length h)%nat → (prev < length h)%nat →
  ∃ h', diffuse this cur prev k bMode h = Some (tt, h') ∧
    let g := grid this in
    let a := (timeStep this * k * of_Z (Nx g) * of_Z (Ny g))%num in
    iterated 20
      (λ h1 h3, ∃ h2,
         gauss_seidel_sweep g
           (λ p0 c1 c2 c3 c4,
              ((p0 + a * (c1 + c2 + c3 + c4)) / (of_Z 1 + of_Z 4 * a))%num)
           cur prev h1 h2 ∧
         setBoundary this cur (Some bMode) h2 = Some (tt, h3))
      h h' ∧
    wf g h' = true ∧ length h' = length h.
Proof.
  intros Hwf Hcur Hprev.
  destruct (diffuse_ok this cur prev k bMode h Hwf Hcur Hprev)
    as (h' & Hrun & Hwf' & Hlen' & _ & Hit).
  by exists h'.
Qed.

Lemma diffuse_twenty_sweeps_witness :
  ∃ h', diffuse demo_sim 0%nat 3%nat (visc demo_sim) 1 demo_heap = Some (tt, h').
Proof.
  destruct (diffuse_twenty_sweeps demo_sim 0%nat 3%nat (visc demo_sim) 1 demo_heap)
    as (h' & Hrun & _); [by_evaluation .. |].
  exists h'. exact Hrun.
Defined.

(** C3: [advect(cur, prev, vel, bMode)], for [cur] and [prev] different
    arrays and backtracked positions
    [(i - Nx * velX[i][j], j - Ny * velY[i][j])] that are not NaN,
    returns, and writes into every active cell [(i, j)] of [cur] the
    bilinear interpolation
    [s0 * (t0 * prev[i0][j0] + t1 * prev[i0][j1]) +
     s1 * (t0 * prev[i1][j0] + t1 * prev[i1][j1])]
    of [prev], where each coordinate is first put through the two tests
    that clamp it into [0.5, N + 0.5] on its axis, [i0] and [j0] are the
    floors of the clamped coordinates, [i1 = i0 + 1], [j1 = j0 + 1], and the
    weights are [s1 = x - i0], [s0 = 1 - s1], [t1 = y - j0], [t0 = 1 - t1];
    the boundary fill with mode [bMode] follows. The arithmetic is any
    interpretation that obeys the rounding laws. *)
Theorem advect_interpolates_backtracked {num : Type} `{Number num}
    (val : num → option value) (exact : Z)
    (this : Simulator num) (cur prev : loc) (vs : list loc) (velX velY : loc)
    (bMode : Z) (h : heap num) :
  rounding_laws val exact →
  Nx (grid this) ≤ exact → Ny (grid this) ≤ exact →
  wf (grid this) h = true →
  idx vs X_DIM = Some velX → idx vs Y_DIM = Some velY →
  (cur < length h)%nat → (prev < length h)%nat →
  (velX < length h)%nat → (velY < length h)%nat →
  cur ≠ prev →
  (∀ i j, active (Nx (grid this)) i → active (Ny (grid this)) j →
     is_number val (of_Z i - of_Z (Nx (grid this)) * rd h velX i j 1)%num ∧
     is_number val (of_Z j - of_Z (Ny (grid this)) * rd h velY i j 1)%num) →
  ∃ h1 h', advect this cur prev vs bMode h = Some (tt, h') ∧
    wf (grid this) h' = true ∧ length h' = length h ∧
    let g := grid this in
    length h1 = length h ∧
    (∀ Y, Y ≠ cur → h1 !! Y = h !! Y) ∧
    (∀ i j k, ¬ (active (Nx g) i ∧ active (Ny g) j ∧ k = 1) →
              rd h1 cur i j k = rd h cur i j k) ∧
    (∀ i j, active (Nx g) i → active (Ny g) j →
       let x0 := (of_Z i - of_Z (Nx g) * rd h velX i j 1)%num in
       let x1 := if (x0 <? half)%num then half else x0 in
       let x := if (x1 >? of_Z (Nx g) + half)%num
                then (of_Z (Nx g) + half)%num else x1 in
       let y0 := (of_Z j - of_Z (Ny g) * rd h velY i j 1)%num in
       let y1 := if (y0 <? half)%num then half else y0 in
       let y := if (y1 >? of_Z (Ny g) + half)%num
                then (of_Z (Ny g) + half)%num else y1 in
       let i0 := nfloor x in
       let j0 := nfloor y in
       let s1 := (x - of_Z i0)%num in
       let s0 := (of_Z 1 - s1)%num in
       let t1 := (y - of_Z j0)%num in
       let t0 := (of_Z 1 - t1)%num in
       rd h1 cur i j 1 =
         (s0 * (t0 * rd h prev i0 j0 1 + t1 * rd h prev i0 (j0 + 1) 1) +
          s1 * (t0 * rd h prev (i0 + 1) j0 1
                + t1 * rd h prev (i0 + 1) (j0 + 1) 1))%num ∧
       (∃ cx, is_val val x cx ∧ clamped_value (Nx g) (val x0) cx ∧
              i0 = Qfloor cx) ∧
       (∃ cy, is_val val y cy ∧ clamped_value (Ny g) (val y0) cy ∧
              j0 = Qfloor cy)) ∧
    setBoundary this cur (Some bMode) h1 = Some (tt, h').
Proof.
  intros Hlaws HNx HNy Hwf HvX HvY Hcur Hprev HlX HlY Hne Hfin.
  pose proof (wf_grid _ _ Hwf) as (? & ? & ?).
  destruct (advect_run this cur prev vs velX velY bMode h)
    as (h1 & h' & Hrun & _ & Hadv & Hfill & Hwf' & Hlen' & _); try done.
  { intros i j Hi Hj. destruct (Hfin i j Hi Hj) as [Hx Hy].
    split; apply (floor_clamped_val val exact Hlaws); (done || lia). }
  destruct (Hadv Hne) as (Hlen1 & Hfr1 & Hold1 & Hcells).
  exists h1, h'. split; [done |]. split; [done |]. split; [done |]. cbv zeta.
  split; [done |]. split; [done |]. split; [done |]. split; [| done].
  intros i j Hi Hj. split; [exact (Hcells i j Hi Hj) |].
  destruct (Hfin i j Hi Hj) as [Hx Hy].
  destruct (clamp_coord_number val exact Hlaws (Nx (grid this)) _ ltac:(lia) Hx)
    as (cx & Hcx & _ & Hclx).
  destruct (clamp_coord_number val exact Hlaws (Ny (grid this)) _ ltac:(lia) Hy)
    as (cy & Hcy & _ & Hcly).
  split.
  - exists cx. split; [exact Hcx |]. split; [exact Hclx |].
    exact (law_floor _ _ Hlaws _ _ Hcx).
  - exists cy. split; [exact Hcy |]. split; [exact Hcly |].
    exact (law_floor _ _ Hlaws _ _ Hcy).
Qed.

Lemma advect_interpolates_backtracked_witness :
  wf (grid demo_sim) demo_heap = true ∧
  ∃ h1 h', advect demo_sim 0%nat 3%nat [1; 2]%nat 2 demo_heap = Some (tt, h') ∧
    rd h1 0%nat 1 1 1 =
      (((1 - ((1 # 2) - 0)) * ((1 - ((1 # 2) - 0)) * rd demo_heap 3%nat 0 0 1
                               + ((1 # 2) - 0) * rd demo_heap 3%nat 0 1 1)
        + ((1 # 2) - 0) * ((1 - ((1 # 2) - 0)) * rd demo_heap 3%nat 1 0 1
                           + ((1 # 2) - 0) * rd demo_heap 3%nat 1 1 1)))%Q.
Proof.
  split; [reflexivity |].
  destruct (advect_interpolates_backtracked Q_val 1000 demo_sim 0%nat 3%nat
              [1; 2]%nat 1%nat 2%nat 2 demo_heap (Q_rounding_laws 1000))
    as (h1 & h' & Hrun & _ & _ & _ & _ & _ & Hcells & _); [by_evaluation .. | |].
  - intros i j _ _. split; discriminate.
  - exists h1, h'. split; [exact Hrun |].
    destruct (Hcells 1 1) as [Hcell _]; [unfold active; simpl; lia .. |].
    exact Hcell.
Defined.

(** A velocity whose Y component is NaN at the last active cell: the
    backtracked position of that cell is not a number, nothing is
    interpolated for it and [advect] stops with an error, so that no
    boundary fill follows. *)
Lemma advect_NaN_position_throws :
  wf (grid js_sim) js_heap_NaN_last = true ∧
  rd js_heap_NaN_last 1%nat 2 2 1 = NaN ∧
  (of_Z 2 - of_Z 2 * rd js_heap_NaN_last 1%nat 2 2 1)%num = NaN ∧
  advect js_sim 6%nat 7%nat [0; 1; 2]%nat BOUNDARY_MIRROR js_heap_NaN_last = None.
Proof. repeat split; reflexivity. Qed.

(** C8: in [advect], for every backtracked coordinate that is not NaN, the
    floor of the clamped coordinate and that floor plus one lie between 0
    and N + 1 on their axis; when no backtracked coordinate of an active
    cell is NaN, [advect] reads and writes allocated cells only and
    returns. *)
Theorem advect_samples_in_range {num : Type} `{Number num}
    (val : num → option value) (exact : Z)
    (this : Simulator num) (cur prev : loc) (vs : list loc) (velX velY : loc)
    (bMode : Z) (h : heap num) :
  rounding_laws val exact →
  Nx (grid this) ≤ exact → Ny (grid this) ≤ exact →
  wf (grid this) h = true →
  idx vs X_DIM = Some velX → idx vs Y_DIM = Some velY →
  (cur < length h)%nat → (prev < length h)%nat →
  (velX < length h)%nat → (velY < length h)%nat →
  (∀ n (x0 : num), 0 ≤ n ≤ exact → is_number val x0 →
     let x1 := if (x0 <? half)%num then half else x0 in
     let x := if (x1 >? of_Z n + half)%num then (of_Z n + half)%num else x1 in
     in_grid n (nfloor x) ∧ in_grid n (nfloor x + 1)) ∧
  ((∀ i j, active (Nx (grid this)) i → active (Ny (grid this)) j →
      is_number val (of_Z i - of_Z (Nx (grid this)) * rd h velX i j 1)%num ∧
      is_number val (of_Z j - of_Z (Ny (grid this)) * rd h velY i j 1)%num) →
   ∃ h', advect this cur prev vs bMode h = Some (tt, h') ∧
         wf (grid this) h' = true ∧ length h' = length h).
Proof.
  intros Hlaws HNx HNy Hwf HvX HvY Hcur Hprev HlX HlY.
  pose proof (wf_grid _ _ Hwf) as (? & ? & ?). split.
  - intros n x0 Hn Hx0. cbv zeta.
    pose proof (floor_clamped_val val exact Hlaws n x0 Hn Hx0) as Hfl.
    unfold clamp_coord in Hfl. cbv zeta in Hfl. unfold in_grid. lia.
  - intros Hfin.
    destruct (advect_run this cur prev vs velX velY bMode h)
      as (_ & h' & Hrun & _ & _ & _ & Hwf' & Hlen' & _); try done.
    + intros i j Hi Hj. destruct (Hfin i j Hi Hj) as [Hx Hy].
      split; apply (floor_clamped_val val exact Hlaws); (done || lia).
    + by exists h'.
Qed.

Lemma advect_samples_in_range_witness :
  wf (grid js_sim) js_heap_infinite = true ∧
  rd js_heap_infinite 0%nat 1 1 1 = PInf ∧
  ∃ h', advect js_sim 6%nat 7%nat [0; 1; 2]%nat BOUNDARY_MIRROR js_heap_infinite
          = Some (tt, h').
Proof.
  split; [reflexivity |]. split; [reflexivity |].
  destruct (advect_samples_in_range js_val 1000 js_sim 6%nat 7%nat [0; 1; 2]%nat
              0%nat 1%nat BOUNDARY_MIRROR js_heap_infinite (js_rounding_laws 1000))
    as (_ & Hreturns); [by_evaluation .. |].
  destruct Hreturns as (h' & Hrun & _); [| by exists h'].
  intros i j [Hi1 Hi2] [Hj1 Hj2]. simpl in Hi2, Hj2.
  assert (i = 1 ∨ i = 2) as [-> | ->] by lia;
    (assert (j = 1 ∨ j = 2) as [-> | ->] by lia);
    split; by vm_compute.
Defined.

(** A velocity that is NaN: the backtracked coordinate is NaN, both tests
    of the clamp fail, the floor is no index of the grid, and [advect]
    stops with an error at its first read of [prev]. *)
Lemma advect_NaN_velocity_throws :
  wf (grid js_sim) js_heap_NaN = true ∧
  rd js_heap_NaN 0%nat 1 1 1 = NaN ∧
  ((of_Z 1 - of_Z 2 * NaN)%num <? half)%num = false ∧
  ((of_Z 1 - of_Z 2 * NaN)%num >? of_Z 2 + half)%num = false ∧
  ¬ in_grid 2 (nfloor (of_Z 1 - of_Z 2 * NaN)%num) ∧
  advect js_sim 6%nat 7%nat [0; 1; 2]%nat BOUNDARY_MIRROR js_heap_NaN = None.
Proof.
  split; [reflexivity |]. split; [reflexivity |]. split; [reflexivity |].
  split; [reflexivity |]. split; [| reflexivity].
  unfold in_grid. vm_compute. intros [Hlo _]. by apply Hlo.
Qed.

(** C9: for every boundary mode and every field [prev] (a different array
    from [cur]) that holds finite numbers, [advect] with a velocity that is
    zero at every active cell gives [cur[i][j]] the value of [prev[i][j]]
    at every active cell. The arithmetic is any interpretation that obeys
    the rounding laws. *)
Theorem advect_zero_velocity_is_identity {num : Type} `{Number num}
    (val : num → option value) (exact : Z)
    (this : Simulator num) (cur prev : loc) (vs : list loc) (velX velY : loc)
    (bMode : Z) (h : heap num) :
  rounding_laws val exact →
  Nx (grid this) ≤ exact → Ny (grid this) ≤ exact →
  wf (grid this) h = true →
  idx vs X_DIM = Some velX → idx vs Y_DIM = Some velY →
  (cur < length h)%nat → (prev < length h)%nat →
  (velX < length h)%nat → (velY < length h)%nat →
  cur ≠ prev →
  (∀ i j, active (Nx (grid this)) i → active (Ny (grid this)) j →
          is_val val (rd h velX i j 1) 0 ∧ is_val val (rd h velY i j 1) 0) →
  (∀ a b, 1 ≤ a ≤ Nx (grid this) + 1 → 1 ≤ b ≤ Ny (grid this) + 1 →
          is_finite val (rd h prev a b 1)) →
  ∃ h', advect this cur prev vs bMode h = Some (tt, h') ∧
    wf (grid this) h' = true ∧ length h' = length h ∧
    ∀ i j, active (Nx (grid this)) i → active (Ny (grid this)) j →
      ∃ q, is_val val (rd h prev i j 1) q ∧ is_val val (rd h' cur i j 1) q.
Proof.
  intros Hlaws HNx HNy Hwf HvX HvY Hcur Hprev HlX HlY Hne Hzero Hfin.
  pose proof (wf_grid _ _ Hwf) as (? & ? & ?).
  assert (Hback : ∀ i j, active (Nx (grid this)) i → active (Ny (grid this)) j →
    (is_val val (backtrack (Nx (grid this)) i (rd h velX i j 1)) (inject_Z i) ∧
     nfloor (backtrack (Nx (grid this)) i (rd h velX i j 1)) = i) ∧
    (is_val val (backtrack (Ny (grid this)) j (rd h velY i j 1)) (inject_Z j) ∧
     nfloor (backtrack (Ny (grid this)) j (rd h velY i j 1)) = j)).
  { intros i j Hi Hj. destruct (Hzero i j Hi Hj) as [Hu Hv].
    split; apply (backtrack_zero val exact Hlaws); (done || lia). }
  destruct (advect_run this cur prev vs velX velY bMode h)
    as (h1 & h' & Hrun & Hwf1 & Hadv & Hfill & Hwf' & Hlen' & _); try done.
  { intros i j Hi Hj. destruct (Hback i j Hi Hj) as [[_ ->] [_ ->]].
    unfold active in *. lia. }
  destruct (Hadv Hne) as (Hlen1 & _ & _ & Hcells).
  destruct (setBoundary_interior this cur (Some bMode) h1)
    as (h'' & Hfill' & _ & _ & Hkeep & _); [done | lia |].
  rewrite Hfill in Hfill'. injection Hfill' as <-.
  exists h'. split; [done |]. split; [done |]. split; [done |]. intros i j Hi Hj.
  destruct (Hfin i j) as [q Hq]; [unfold active in *; lia .. |].
  exists q. split; [done |].
  rewrite Hkeep by done. rewrite (Hcells i j Hi Hj). cbv zeta.
  destruct (Hback i j Hi Hj) as [[Hx ->] [Hy ->]].
  unfold active in Hi, Hj.
  apply (bilerp_at_cell val exact Hlaws); try (done || lia);
    apply Hfin; lia.
Qed.

Lemma advect_zero_velocity_is_identity_witness :
  wf (grid demo_sim) demo_heap = true ∧
  ∃ h', advect demo_sim 0%nat 3%nat [11; 12]%nat 0
          (demo_heap ++ [zeros3d 4 4 3; zeros3d 4 4 3]) = Some (tt, h') ∧
        (rd h' 0%nat 1 1 1 == rd demo_heap 3%nat 1 1 1)%Q.
Proof.
  split; [reflexivity |].
  destruct (advect_zero_velocity_is_identity Q_val 1000 demo_sim 0%nat 3%nat
              [11; 12]%nat 11%nat 12%nat 0
              (demo_heap ++ [zeros3d 4 4 3; zeros3d 4 4 3]) (Q_rounding_laws 1000))
    as (h' & Hrun & _ & _ & Hid); [by_evaluation .. | | |].
  - intros i j [Hi1 Hi2] [Hj1 Hj2]. simpl in Hi2, Hj2.
    assert (i = 1 ∨ i = 2) as [-> | ->] by lia;
      (assert (j = 1 ∨ j = 2) as [-> | ->] by lia);
      split; eexists; (split; [reflexivity | reflexivity]).
  - intros a b _ _. eexists. eexists. split; reflexivity.
  - exists h'. split; [exact Hrun |].
    destruct (Hid 1 1) as (q & (r & Hr & Hrq) & (r' & Hr' & Hrq'));
      [unfold active; simpl; lia .. |].
    injection Hr as <-. injection Hr' as <-. by rewrite Hrq, Hrq'.
Defined.

(** A field [prev] with NaN beside the sampled cell: the velocity is zero
    and [prev[1][1]] is 7, but the weight 0 of [prev[1][2]] gives NaN and
    [cur[1][1]] is NaN after [advect]. *)
Lemma advect_zero_velocity_beside_NaN :
  wf (grid js_sim) js_heap_NaN_beside = true ∧
  js_heap_NaN_beside !! 0%nat = Some (zeros3d 4 4 3) ∧
  js_heap_NaN_beside !! 1%nat = Some (zeros3d 4 4 3) ∧
  rd js_heap_NaN_beside 7%nat 1 1 1 = Fin 7 ∧
  rd js_heap_NaN_beside 7%nat 1 2 1 = NaN ∧
  ∃ h', advect js_sim 6%nat 7%nat [0; 1; 2]%nat BOUNDARY_MIRROR js_heap_NaN_beside
          = Some (tt, h') ∧
        rd h' 6%nat 1 1 1 = NaN.
Proof.
  split; [reflexivity |]. split; [reflexivity |]. split; [reflexivity |].
  split; [reflexivity |]. split; [reflexivity |].
  destruct (advect js_sim 6%nat 7%nat [0; 1; 2]%nat BOUNDARY_MIRROR
              js_heap_NaN_beside) as [[[] h'] |] eqn:Hrun;
    [| by vm_compute in Hrun].
  exists h'. split; [reflexivity |].
  change (rd h' 6%nat 1 1 1) with
    (match Some (tt, h') with Some (_, m) => rd m 6%nat 1 1 1 | None => NaN end).
  rewrite <- Hrun. vm_compute. reflexivity.
Qed.

(** The edges and a corner of the first field of the small simulator after
    a fill with mode OPPOSE_X. *)
Lemma setBoundary_edges_and_corners_witness :
  wf (grid demo_sim) demo_heap = true ∧
  ∃ h', setBoundary demo_sim 0%nat (Some BOUNDARY_OPPOSE_X) demo_heap = Some (tt, h') ∧
        rd h' 0%nat 0 1 1 = (- rd h' 0%nat 1 1 1)%Q ∧
        rd h' 0%nat 0 0 1 = ((1 # 2) * (rd h' 0%nat 1 0 1 + rd h' 0%nat 0 1 1))%Q.
Proof.
  split; [reflexivity |].
  destruct (setBoundary_edges_and_corners demo_sim 0%nat (Some BOUNDARY_OPPOSE_X)
              demo_heap)
    as (h' & Hrun & _ & _ & Hcols & _ & Hcorner & _); [by_evaluation .. |].
  exists h'. split; [exact Hrun |]. split; [| exact Hcorner].
  apply (Hcols 1). unfold active. simpl. lia.
Defined.

(** C5: [vStep()] performs, in this order: for each dimension, the
    addition of the previous velocity and then of the persistent source to
    the current velocity; the swap of current and previous velocity; for
    each dimension, the diffusion of the component against the viscosity
    with boundary mode [dim + 1] (OPPOSE_X for the X component, OPPOSE_Y
    for the Y component); a projection; the swap back. These phases return
    in every arithmetic. The projection has used the arrays of [grid.vel]
    as its buffer, the X component for the pressure and the Y component
    for the divergence, so that the Y component now holds
    [-0.5 * (Lx * (velX[i+1][j] - velX[i-1][j]) + Ly * (velY[i][j+1] - velY[i][j-1]))]
    of the diffused field at every active cell;
    what remains is, for each dimension, the advection of the component
    from [grid.prev_vel] into [grid.vel] with the same boundary mode, with
    these arrays of [grid.vel] as the velocity argument, and a second
    projection, which returns whenever the advections have returned; and
    [vStep()] returns only if they have. *)
Theorem vStep_order (N_DIMS : Z) {num : Type} `{Number num}
    (this : Simulator num) (h : heap num) :
  wf (grid this) h = true →
  2 ≤ N_DIMS →
  N_DIMS ≤ Z.of_nat (length (vel (grid this))) →
  N_DIMS ≤ Z.of_nat (length (prev_vel (grid this))) →
  N_DIMS ≤ Z.of_nat (length (v_src this)) →
  Forall (λ l, l < length h)%nat
    (vel (grid this) ++ prev_vel (grid this) ++ v_src this) →
  NoDup (vel (grid this) ++ prev_vel (grid this)) →
  ∃ vX vY pX pY h1 h2 h3,
    let dims := seqZ 0 N_DIMS in
    let swapped := with_grid this (swapV (grid this)) in
    let g := grid this in
    let Lx := (of_Z 1 / of_Z (Nx g))%num in
    let Ly := (of_Z 1 / of_Z (Ny g))%num in
    let advections :=
      in_turn dims
        (λ d m1 m2, ∃ v pv,
           idx (vel g) d = Some v ∧ idx (prev_vel g) d = Some pv ∧
           advect this v pv (vel g) (d + 1) m1 = Some (tt, m2)) in
    idx (vel g) X_DIM = Some vX ∧ idx (vel g) Y_DIM = Some vY ∧
    idx (prev_vel g) X_DIM = Some pX ∧ idx (prev_vel g) Y_DIM = Some pY ∧
    in_turn dims
      (λ d m1 m3, ∃ v pv s m2,
         idx (vel g) d = Some v ∧
         idx (prev_vel g) d = Some pv ∧
         idx (v_src this) d = Some s ∧
         addSource this v pv m1 = Some (tt, m2) ∧
         addSource this v s m2 = Some (tt, m3))
      h h1 ∧
    vel (grid swapped) = prev_vel g ∧
    prev_vel (grid swapped) = vel g ∧
    in_turn dims
      (λ d m1 m2, ∃ v pv,
         idx (vel (grid swapped)) d = Some v ∧
         idx (prev_vel (grid swapped)) d = Some pv ∧
         diffuse swapped v pv (visc this) (d + 1) m1 = Some (tt, m2))
      h1 h2 ∧
    X_DIM + 1 = BOUNDARY_OPPOSE_X ∧ Y_DIM + 1 = BOUNDARY_OPPOSE_Y ∧
    project swapped (vel (grid swapped)) (prev_vel (grid swapped)) h2 = Some (tt, h3) ∧
    (∀ i j, active (Nx g) i → active (Ny g) j →
       rd h3 vY i j 1 =
         ((- half) * (Lx * (rd h2 pX (i + 1) j 1 - rd h2 pX (i - 1) j 1) +
                      Ly * (rd h2 pY i (j + 1) 1 - rd h2 pY i (j - 1) 1)))%num) ∧
    vStep N_DIMS this h =
      (for_lt 0 N_DIMS (λ dim,
         v <- component (vel g) dim ;;
         pv <- component (prev_vel g) dim ;;
         advect this v pv (vel g) (dim + 1)) ;;;
       project this (vel g) (prev_vel g) ;;;
       ret this) h3 ∧
    (∀ h4, advections h3 h4 →
       ∃ h', project this (vel g) (prev_vel g) h4 = Some (tt, h') ∧
             vStep N_DIMS this h = Some (this, h') ∧
             wf g h' = true ∧ length h' = length h) ∧
    (∀ r, vStep N_DIMS this h = Some r → ∃ h4, advections h3 h4).
Proof.
  intros Hwf HN Hlv Hlpv Hls Hall Hnd.
  destruct (vStep_run N_DIMS this h Hwf HN Hlv Hlpv Hls Hall Hnd)
    as (vX & vY & pX & pY & h1 & h2 & h3 & HvX & HvY & HpX & HpY & Hadd & Hdiff
        & Hproj & Hwf3 & Hlen3 & _ & Hdiv & Hrun).
  destruct (vStep_rest N_DIMS this h3) as [Hdone Honly]; try done.
  { rewrite Hlen3. rewrite !Forall_app in Hall. rewrite Forall_app. tauto. }
  exists vX, vY, pX, pY, h1, h2, h3. cbv zeta in *.
  split; [done |]. split; [done |]. split; [done |]. split; [done |].
  split; [done |]. split; [done |]. split; [done |]. split; [done |].
  split; [done |]. split; [done |]. split; [done |]. split; [exact Hdiv |].
  split; [done |]. split.
  - intros h4 Hadv. destruct (Hdone h4 Hadv) as (h' & Hp' & Hrest & Hwf' & Hlen' & _).
    exists h'. split; [done |]. split; [by rewrite Hrun |]. split; [done | lia].
  - intros r Hr. rewrite Hrun in Hr. by apply (Honly r).
Qed.

Lemma vStep_order_witness :
  wf (grid js_sim) js_heap = true ∧
  ∃ h3,
    project (with_grid js_sim (swapV (grid js_sim))) [3; 4; 5]%nat [0; 1; 2]%nat js_heap
      = Some (tt, h3) ∧
    vStep 2 js_sim js_heap =
      (for_lt 0 2 (λ dim,
         v <- component [0; 1; 2]%nat dim ;;
         pv <- component [3; 4; 5]%nat dim ;;
         advect js_sim v pv [0; 1; 2]%nat (dim + 1)) ;;;
       project js_sim [0; 1; 2]%nat [3; 4; 5]%nat ;;;
       ret js_sim) h3.
Proof.
  split; [reflexivity |].
  destruct (vStep_order 2 js_sim js_heap)
    as (_ & _ & _ & _ & h1 & h2 & h3 & _ & _ & _ & _ & Hadd & _ & _ & Hdiff & _ & _
        & Hproj & _ & Hrun & _).
  - reflexivity.
  - lia.
  - simpl. lia.
  - simpl. lia.
  - simpl. lia.
  - repeat constructor; vm_compute; lia.
  - apply (bool_decide_unpack _). vm_compute. exact I.
  - exists h3. split; [| exact Hrun].
    assert (h2 = js_heap) as <-; [| exact Hproj].
    assert (h1 = js_heap) as Hh1.
    { simpl in Hadd.
      destruct Hadd as (m1 & (? & ? & ? & m0 & [= <-] & [= <-] & [= <-] & Ha & Hb) & Hadd).
      destruct Hadd as (m2 & (? & ? & ? & m3 & [= <-] & [= <-] & [= <-] & Hc & Hd) & ->).
      vm_compute in Ha. injection Ha as <-. vm_compute in Hb. injection Hb as <-.
      vm_compute in Hc. injection Hc as <-. vm_compute in Hd. by injection Hd as <-. }
    subst h1. simpl in Hdiff.
    destruct Hdiff as (m1 & (? & ? & [= <-] & [= <-] & Ha) & Hdiff).
    destruct Hdiff as (m2 & (? & ? & [= <-] & [= <-] & Hb) & ->).
    vm_compute in Ha. injection Ha as <-. vm_compute in Hb. by injection Hb as <-.
Defined.

(** A velocity that holds NaN in one cell: the sources, the diffusion and
    the projection spread it, the first advection backtracks to a position
    that is NaN, and [vStep()] stops there with an error, before the second
    projection. *)
Lemma vStep_NaN_velocity_throws :
  wf (grid js_sim) js_heap_NaN = true ∧
  NoDup (vel (grid js_sim) ++ prev_vel (grid js_sim)) ∧
  Forall (λ l, l < length js_heap_NaN)%nat
    (vel (grid js_sim) ++ prev_vel (grid js_sim) ++ v_src js_sim) ∧
  vStep 2 js_sim js_heap_NaN = None.
Proof.
  split; [reflexivity |]. split; [| split; [| reflexivity]].
  - apply (bool_decide_unpack _). vm_compute. exact I.
  - repeat constructor; vm_compute; lia.
Qed.

(** C6: [addSource(dest, source)] adds [timeStep] times the source value
    to every cell of [dest], the boundary cells (indices 0 and N+1 on each
    axis) included, and changes no other field. *)
Theorem addSource_adds_everywhere {num : Type} `{Number num}
    (this : Simulator num) (dest source : loc) (h : heap num) :
  wf (grid this) h = true → (dest < length h)%nat → (source < length h)%nat →
  ∃ h', addSource this dest source h = Some (tt, h') ∧
    (∀ i j k, in_grid (Nx (grid this)) i → in_grid (Ny (grid this)) j →
              in_grid (Nz (grid this)) k →
       rd h' dest i j k = (rd h dest i j k + timeStep this * rd h source i j k)%num) ∧
    (∀ Y, Y ≠ dest → h' !! Y = h !! Y) ∧
    length h' = length h ∧ wf (grid this) h' = true.
Proof.
  intros Hwf Hdest Hsrc.
  destruct (addSource_ok this dest source h Hwf Hdest Hsrc) as (h' & Hpost).
  by exists h'.
Qed.

Lemma addSource_adds_everywhere_witness :
  wf (grid demo_sim) demo_heap = true ∧
  ∃ h', addSource demo_sim 0%nat 3%nat demo_heap = Some (tt, h') ∧
        rd h' 0%nat 0 3 2 =
          (rd demo_heap 0%nat 0 3 2 + (1 # 10) * rd demo_heap 3%nat 0 3 2)%Q.
Proof.
  split; [reflexivity |].
  destruct (addSource_adds_everywhere demo_sim 0%nat 3%nat demo_heap)
    as (h' & Hrun & Hcells & _); [by_evaluation .. |].
  exists h'. split; [exact Hrun |].
  apply (Hcells 0 3 2); unfold in_grid; simpl; lia.
Defined.

(** C7, as the code has it: the constructor does not validate its
    arguments. Whenever the Grid is constructed and has room for the
    forcing cell [(5, 25)], construction succeeds and stores the viscosity,
    the diffusion and the time step exactly as they are given, whatever
    their sign. *)
Theorem new_Simulator_accepts_any_parameters {num : Type} `{Number num}
    (new_Grid : Z → Z → Z → num → num → num → M num Grid)
    (N : Z) (width height visc0 diff0 timeStep0 : num) (h : heap num)
    (g : Grid) (h1 : heap num) :
  new_Grid N N 1 width height (of_Z 0) h = Some (g, h1) →
  4 ≤ Nx g → 24 ≤ Ny g → 0 ≤ Nz g →
  ∃ sim h', new_Simulator new_Grid N width height visc0 diff0 timeStep0 h
              = Some (sim, h') ∧
            visc sim = visc0 ∧ diff sim = diff0 ∧ timeStep sim = timeStep0 ∧
            grid sim = g.
Proof. apply new_Simulator_ok. Qed.

Lemma new_Simulator_accepts_any_parameters_witness :
  ∃ sim h', new_Simulator Grid_alloc 24 1%Q 1%Q (-2)%Q (-3)%Q (-1)%Q [] = Some (sim, h') ∧
            visc sim = (-2)%Q ∧ diff sim = (-3)%Q ∧ timeStep sim = (-1)%Q.
Proof.
  edestruct (new_Simulator_accepts_any_parameters Grid_alloc 24 1%Q 1%Q
               (-2)%Q (-3)%Q (-1)%Q [])
    as (sim & h' & Hrun & Hv & Hd & Ht & _);
    [vm_compute; reflexivity | simpl; lia .. |].
  exists sim, h'. repeat split; assumption.
Defined.

(** C7, as the specification states it, fails: a configuration with a
    time step of zero and a negative viscosity and diffusion is invalid,
    and its construction returns a simulator that holds these values. *)
Lemma invalid_config_is_accepted :
  invalid_config 24 (-1)%Q (-1)%Q 0%Q ∧
  ∃ sim h', new_Simulator Grid_alloc 24 1%Q 1%Q (-1)%Q (-1)%Q 0%Q [] = Some (sim, h') ∧
            visc sim = (-1)%Q ∧ diff sim = (-1)%Q ∧ timeStep sim = 0%Q.
Proof.
  split.
  - right. left. apply Qle_refl.
  - destruct (new_Simulator Grid_alloc 24 1%Q 1%Q (-1)%Q (-1)%Q 0%Q [])
      as [[sim h'] |] eqn:Hrun; [| by vm_compute in Hrun].
    exists sim, h'. split; [done |].
    assert (Some (visc sim, diff sim, timeStep sim) = Some ((-1)%Q, (-1)%Q, 0%Q)) as Hpar.
    { change (Some (visc sim, diff sim, timeStep sim))
        with (match Some (sim, h') with
              | Some (s, _) => Some (visc s, diff s, timeStep s)
              | None => None
              end).
      rewrite <- Hrun. vm_compute. reflexivity. }
    injection Hpar as -> -> ->. done.
Qed.

(** The hard-wired forcing cell [(5, 25)] makes the construction of a
    grid of 4 x 4 active cells stop with an error. *)
Example new_Simulator_small_grid :
  new_Simulator Grid_alloc 4 1%Q 1%Q (1 # 10)%Q (1 # 10)%Q (1 # 10)%Q [] = None.
Proof. vm_compute. reflexivity. Qed.

(** C10: [setBoundary(field, mode)] writes boundary cells only: every
    active cell [(i, j)] keeps its value, on every plane, and so does every
    other field. *)
Theorem setBoundary_keeps_active_cells {num : Type} `{Number num}
    (this : Simulator num) (X : loc) (mode_arg : option Z) (h : heap num) :
  wf (grid this) h = true → (X < length h)%nat →
  ∃ h', setBoundary this X mode_arg h = Some (tt, h') ∧
    wf (grid this) h' = true ∧ length h' = length h ∧
    (∀ i j k, active (Nx (grid this)) i → active (Ny (grid this)) j →
              rd h' X i j k = rd h X i j k) ∧
    (∀ Y, Y ≠ X → h' !! Y = h !! Y).
Proof.
  intros Hwf HX.
  destruct (setBoundary_interior this X mode_arg h Hwf HX) as (h' & Hpost).
  by exists h'.
Qed.

Lemma setBoundary_keeps_active_cells_witness :
  wf (grid demo_sim) demo_heap = true ∧
  ∃ h', setBoundary demo_sim 0%nat (Some BOUNDARY_OPPOSE_Y) demo_heap = Some (tt, h') ∧
        rd h' 0%nat 2 1 1 = rd demo_heap 0%nat 2 1 1.
Proof.
  split; [reflexivity |].
  destruct (setBoundary_keeps_active_cells demo_sim 0%nat (Some BOUNDARY_OPPOSE_Y)
              demo_heap)
    as (h' & Hrun & _ & _ & Hkeep & _); [by_evaluation .. |].
  exists h'. split; [exact Hrun |].
  apply Hkeep; unfold active; simpl; lia.
Defined.

(** * Further properties of the code *)

(** ** Heaps are determined by their cells *)

Section Extensionality.
Context {num : Type} `{Number num}.
Implicit Types (h : heap num) (g : Grid) (X Y : loc) (i j k a b c : Z).

Lemma list_idx_ext {A} (l1 l2 : list A) :
  length l1 = length l2 →
  (∀ i, 0 ≤ i < Z.of_nat (length l1) → idx l1 i = idx l2 i) →
  l1 = l2.
Proof.
  intros Hlen Hidx. apply list_eq. intros n.
  destruct (decide (n < length l1)%nat) as [Hn | Hn].
  - specialize (Hidx (Z.of_nat n) ltac:(lia)). unfold idx in Hidx.
    destruct (Z.ltb_spec (Z.of_nat n) 0); [lia |].
    by rewrite Nat2Z.id in Hidx.
  - rewrite !lookup_ge_None_2 by lia. done.
Qed.

Lemma field_ext g (f1 f2 : field num) :
  shape_ok g f1 = true → shape_ok g f2 = true →
  (∀ i j k, in_grid (Nx g) i → in_grid (Ny g) j → in_grid (Nz g) k →
            cell f1 i j k = cell f2 i j k) →
  f1 = f2.
Proof.
  intros Hs1 Hs2 Hcells.
  pose proof (shape_ok_length _ _ Hs1). pose proof (shape_ok_length _ _ Hs2).
  apply list_idx_ext; [lia |]. intros i Hi.
  destruct (proj2 (idx_is_Some f1 i)) as [r1 Hr1]; [lia |].
  destruct (proj2 (idx_is_Some f2 i)) as [r2 Hr2]; [lia |].
  rewrite Hr1, Hr2. f_equal.
  destruct (shape_ok_rows _ _ _ _ Hs1 Hr1) as [Hl1 _].
  destruct (shape_ok_rows _ _ _ _ Hs2 Hr2) as [Hl2 _].
  apply list_idx_ext; [lia |]. intros j Hj.
  destruct (proj2 (idx_is_Some r1 j)) as [c1 Hc1]; [lia |].
  destruct (proj2 (idx_is_Some r2 j)) as [c2 Hc2]; [lia |].
  rewrite Hc1, Hc2. f_equal.
  pose proof (shape_ok_cols _ _ _ _ _ _ Hs1 Hr1 Hc1).
  pose proof (shape_ok_cols _ _ _ _ _ _ Hs2 Hr2 Hc2).
  apply list_idx_ext; [lia |]. intros k Hk.
  specialize (Hcells i j k). unfold cell, in_grid in Hcells.
  rewrite Hr1, Hr2 in Hcells. simpl in Hcells. rewrite Hc1, Hc2 in Hcells.
  apply Hcells; lia.
Qed.

(** Two well-formed heaps of the same size whose allocated cells hold the
    same values are the same heap. *)
Lemma heap_ext g h1 h2 :
  wf g h1 = true → wf g h2 = true → length h1 = length h2 →
  (∀ Y i j k, (Y < length h1)%nat →
     in_grid (Nx g) i → in_grid (Ny g) j → in_grid (Nz g) k →
     rd h1 Y i j k = rd h2 Y i j k) →
  h1 = h2.
Proof.
  intros Hwf1 Hwf2 Hlen Hrd. apply list_eq. intros Y.
  destruct (decide (Y < length h1)%nat) as [HY | HY];
    [| by rewrite !lookup_ge_None_2 by lia].
  destruct (wf_lookup _ _ _ Hwf1 HY) as (f1 & Hf1 & Hs1).
  destruct (wf_lookup g h2 Y Hwf2 ltac:(lia)) as (f2 & Hf2 & Hs2).
  rewrite Hf1, Hf2. f_equal. apply (field_ext g); [done | done |].
  intros i j k Hi Hj Hk. specialize (Hrd Y i j k HY Hi Hj Hk).
  unfold rd in Hrd. rewrite Hf1, Hf2 in Hrd. simpl in Hrd.
  destruct (cell_in_grid _ _ _ _ _ Hs1 Hi Hj Hk) as [v1 Hv1].
  destruct (cell_in_grid _ _ _ _ _ Hs2 Hi Hj Hk) as [v2 Hv2].
  rewrite Hv1, Hv2 in Hrd |- *. simpl in Hrd. by rewrite Hrd.
Qed.

(** The closed form of the fill reads the active cells only. *)
Lemma boundary_filled_ext g mode (old1 old2 : Z → Z → num) :
  1 ≤ Nx g → 1 ≤ Ny g →
  (∀ a b, active (Nx g) a → active (Ny g) b → old1 a b = old2 a b) →
  ∀ a b, in_grid (Nx g) a → in_grid (Ny g) b →
         boundary_filled g mode old1 a b = boundary_filled g mode old2 a b.
Proof.
  intros ? ? Hext a b Ha Hb.
  assert (Hedge : ∀ a' b', in_grid (Nx g) a' → in_grid (Ny g) b' →
            ¬ ((a' = 0 ∨ a' = Nx g + 1) ∧ (b' = 0 ∨ b' = Ny g + 1)) →
            edges_filled g mode old1 a' b' = edges_filled g mode old2 a' b').
  { intros a' b' Ha' Hb' Hnc. unfold edges_filled, in_grid in *.
    repeat case_decide; try lia; try f_equal; apply Hext; unfold active; lia. }
  unfold boundary_filled. cbv zeta. unfold in_grid in *.
  repeat case_decide; try (do 2 f_equal; apply Hedge; unfold in_grid; lia).
  apply Hedge; unfold in_grid; lia.
Qed.

End Extensionality.

(** ** More about the boundary fill *)

(** X1: [setBoundary] is idempotent: a second fill with the same mode
    returns the heap that the first one produced. *)
Theorem setBoundary_idempotent {num : Type} `{Number num}
    (this : Simulator num) (X : loc) (mode_arg : option Z) (h : heap num) :
  wf (grid this) h = true → (X < length h)%nat →
  ∃ h', setBoundary this X mode_arg h = Some (tt, h') ∧
        setBoundary this X mode_arg h' = Some (tt, h').
Proof.
  intros Hwf HX. pose proof (wf_grid _ _ Hwf) as (? & ? & ?).
  destruct (setBoundary_fill this X mode_arg h Hwf HX)
    as (h1 & Hrun1 & Hwf1 & Hlen1 & Hfr1 & Hrd1).
  destruct (setBoundary_fill this X mode_arg h1 Hwf1 ltac:(lia))
    as (h2 & Hrun2 & Hwf2 & Hlen2 & Hfr2 & Hrd2).
  exists h1. split; [done |]. rewrite Hrun2. do 2 f_equal.
  apply (heap_ext (grid this)); [done | done | done |].
  intros Y i j k HY Hi Hj Hk.
  destruct (decide (Y = X)) as [-> | HYX]; [| by apply rd_frame, Hfr2].
  rewrite Hrd2, Hrd1. case_decide; [| done].
  apply boundary_filled_ext; try done.
  intros a b Ha Hb. rewrite Hrd1. case_decide; [| done]. fill_cases.
Qed.

Lemma setBoundary_idempotent_witness :
  wf (grid demo_sim) demo_heap = true ∧
  ∃ h', setBoundary demo_sim 0%nat (Some BOUNDARY_OPPOSE_X) demo_heap = Some (tt, h') ∧
        setBoundary demo_sim 0%nat (Some BOUNDARY_OPPOSE_X) h' = Some (tt, h').
Proof.
  split; [reflexivity |].
  apply (setBoundary_idempotent demo_sim 0%nat (Some BOUNDARY_OPPOSE_X) demo_heap);
    by_evaluation.
Defined.

(** X2: the border ring that [setBoundary] produces is a function of the
    active cells: whatever the border held before is overwritten, so two
    heaps that agree on the active cells of the plane [k = 1] of [X] agree
    on the whole plane after the fill. *)
Theorem setBoundary_overwrites_border {num : Type} `{Number num}
    (this : Simulator num) (X : loc) (mode_arg : option Z) (h1 h2 : heap num) :
  wf (grid this) h1 = true → (X < length h1)%nat →
  wf (grid this) h2 = true → (X < length h2)%nat →
  (∀ i j, active (Nx (grid this)) i → active (Ny (grid this)) j →
          rd h1 X i j 1 = rd h2 X i j 1) →
  ∃ h1' h2', setBoundary this X mode_arg h1 = Some (tt, h1') ∧
             setBoundary this X mode_arg h2 = Some (tt, h2') ∧
             ∀ i j, in_grid (Nx (grid this)) i → in_grid (Ny (grid this)) j →
                    rd h1' X i j 1 = rd h2' X i j 1.
Proof.
  intros Hwf1 HX1 Hwf2 HX2 Hagree. pose proof (wf_grid _ _ Hwf1) as (? & ? & ?).
  destruct (setBoundary_fill this X mode_arg h1 Hwf1 HX1)
    as (h1' & Hrun1 & _ & _ & _ & Hrd1).
  destruct (setBoundary_fill this X mode_arg h2 Hwf2 HX2)
    as (h2' & Hrun2 & _ & _ & _ & Hrd2).
  exists h1', h2'. split; [done |]. split; [done |].
  intros i j Hi Hj. rewrite Hrd1, Hrd2. case_decide; [| done].
  by apply boundary_filled_ext.
Qed.

Lemma setBoundary_overwrites_border_witness :
  rd demo_heap 0%nat 0 0 1 ≠ rd demo_heap_border 0%nat 0 0 1 ∧
  ∃ h1' h2',
    setBoundary demo_sim 0%nat None demo_heap = Some (tt, h1') ∧
    setBoundary demo_sim 0%nat None demo_heap_border = Some (tt, h2') ∧
    ∀ i j, in_grid 2 i → in_grid 2 j → rd h1' 0%nat i j 1 = rd h2' 0%nat i j 1.
Proof.
  split; [by vm_compute |].
  apply (setBoundary_overwrites_border demo_sim 0%nat None demo_heap demo_heap_border);
    [by_evaluation .. |].
  intros i j [Hi1 Hi2] [Hj1 Hj2]. simpl in Hi2, Hj2.
  assert (i = 1 ∨ i = 2) as [-> | ->] by lia;
    (assert (j = 1 ∨ j = 2) as [-> | ->] by lia); reflexivity.
Defined.

(** X3: a mode other than OPPOSE_X and OPPOSE_Y is treated as MIRROR, by
    [setBoundary] and therefore by [diffuse] and [advect]; this is the case
    of the mode [dim + 1 = 3] that [vStep] passes for a third dimension. *)
Theorem unnamed_mode_is_mirror {num : Type} `{Number num}
    (this : Simulator num) (mode : Z) :
  mode ≠ BOUNDARY_OPPOSE_X → mode ≠ BOUNDARY_OPPOSE_Y →
  (∀ X, setBoundary this X (Some mode) = setBoundary this X None) ∧
  (∀ cur prev k, diffuse this cur prev k mode =
                 diffuse this cur prev k BOUNDARY_MIRROR) ∧
  (∀ cur prev vs, advect this cur prev vs mode =
                  advect this cur prev vs BOUNDARY_MIRROR).
Proof.
  intros HX HY.
  assert (Hfill : ∀ X, setBoundary this X (Some mode) = setBoundary this X None).
  { intros X. unfold setBoundary. simpl default.
    replace (mode =? BOUNDARY_OPPOSE_X) with false by (symmetry; by apply Z.eqb_neq).
    replace (mode =? BOUNDARY_OPPOSE_Y) with false by (symmetry; by apply Z.eqb_neq).
    reflexivity. }
  split; [done |]. split.
  - intros cur prev k. unfold diffuse. by rewrite Hfill.
  - intros cur prev vs. unfold advect. by rewrite Hfill.
Qed.

Lemma unnamed_mode_is_mirror_witness :
  diffuse demo_sim 2%nat 5%nat (visc demo_sim) (Z_DIM + 1) =
  diffuse demo_sim 2%nat 5%nat (visc demo_sim) BOUNDARY_MIRROR.
Proof.
  apply (unnamed_mode_is_mirror demo_sim (Z_DIM + 1)); by vm_compute.
Defined.

(** X4: the corners after a fill, for a field whose four active corner
    cells are finite, in every arithmetic that obeys the rounding laws:
    with the mode OPPOSE_X or OPPOSE_Y each corner is zero, since the two
    edge cells beside it are opposite; with another mode each corner has
    the value of the active cell diagonally next to it, provided that the
    double of that value is a number (the sum does not overflow). *)
Theorem corners_after_fill {num : Type} `{Number num}
    (val : num → option value) (exact : Z)
    (this : Simulator num) (X : loc) (mode_arg : option Z) (h : heap num) :
  rounding_laws val exact → 0 ≤ exact →
  wf (grid this) h = true → (X < length h)%nat →
  ∃ h', setBoundary this X mode_arg h = Some (tt, h') ∧
    let mode := default BOUNDARY_MIRROR mode_arg in
    let lastX := Nx (grid this) in
    let lastY := Ny (grid this) in
    let edgeX := lastX + 1 in
    let edgeY := lastY + 1 in
    ∀ a b a' b',
      (a, b, a', b') ∈ [(0, 0, 1, 1); (0, edgeY, 1, lastY);
                        (edgeX, 0, lastX, 1); (edgeX, edgeY, lastX, lastY)] →
      ∀ p, is_val val (rd h X a' b' 1) p →
        (mode = BOUNDARY_OPPOSE_X ∨ mode = BOUNDARY_OPPOSE_Y →
         is_val val (rd h' X a b 1) 0) ∧
        (mode ≠ BOUNDARY_OPPOSE_X → mode ≠ BOUNDARY_OPPOSE_Y →
         representable val (p + p) → is_val val (rd h' X a b 1) p).
Proof.
  intros Hlaws He Hwf HX. pose proof (wf_grid _ _ Hwf) as (? & ? & ?).
  destruct (setBoundary_fill this X mode_arg h Hwf HX)
    as (h' & Hrun & _ & _ & _ & Hrd).
  exists h'. split; [done |]. cbv zeta.
  set (mode := default BOUNDARY_MIRROR mode_arg) in *.
  assert (Hplane : ∀ a b, rd h' X a b 1 =
            boundary_filled (grid this) mode (λ a' b', rd h X a' b' 1) a b).
  { intros a b. rewrite Hrd. by case_decide. }
  assert (Hcorner : ∀ a b a' b',
    (a, b, a', b') ∈ [(0, 0, 1, 1); (0, Ny (grid this) + 1, 1, Ny (grid this));
                      (Nx (grid this) + 1, 0, Nx (grid this), 1);
                      (Nx (grid this) + 1, Ny (grid this) + 1,
                       Nx (grid this), Ny (grid this))] →
    rd h' X a b 1 =
      (half * (edge_value mode BOUNDARY_OPPOSE_Y (rd h X a' b' 1)
               + edge_value mode BOUNDARY_OPPOSE_X (rd h X a' b' 1)))%num).
  { intros a b a' b' Hin. rewrite Hplane.
    repeat (apply elem_of_cons in Hin as [[= -> -> -> ->] | Hin]);
      [| | | | by apply elem_of_nil in Hin];
      unfold boundary_filled, edges_filled; cbv zeta;
      repeat (case_decide; try lia); done. }
  intros a b a' b' Hin p Hp. rewrite (Hcorner a b a' b' Hin). unfold edge_value.
  destruct (average_opposite val exact Hlaws _ _ He Hp) as [Hxy Hyx].
  split.
  - intros [-> | ->]; simpl; done.
  - intros HmX HmY Hdouble.
    destruct (Z.eqb_spec mode BOUNDARY_OPPOSE_Y); [done |].
    destruct (Z.eqb_spec mode BOUNDARY_OPPOSE_X); [done |].
    by apply (average_same val exact Hlaws).
Qed.

Lemma corners_after_fill_witness :
  wf (grid demo_sim) demo_heap = true ∧
  ∃ h', setBoundary demo_sim 0%nat (Some BOUNDARY_OPPOSE_Y) demo_heap = Some (tt, h') ∧
        (rd h' 0%nat 0 0 1 == 0)%Q.
Proof.
  split; [reflexivity |].
  destruct (corners_after_fill Q_val 1000 demo_sim 0%nat (Some BOUNDARY_OPPOSE_Y)
              demo_heap (Q_rounding_laws 1000))
    as (h' & Hrun & Hcorners); [by_evaluation .. |].
  exists h'. split; [exact Hrun |].
  destruct (Hcorners 0 0 1 1 ltac:(left) (rd demo_heap 0%nat 1 1 1))
    as [Hzero _]; [eexists; split; reflexivity |].
  destruct Hzero as (r & Hr & Hr0); [by right |].
  injection Hr as <-. exact Hr0.
Defined.

(** ** Invariants of the relaxation loop *)

Section SweepInvariants.
Context {num : Type} `{Number num}.
Implicit Types (h : heap num) (g : Grid) (X Y : loc) (i j k a b c : Z).

(** The loop of [diffuse] and [project] with an invariant [I] indexed by
    the number of sweeps performed: it is enough that one sweep followed by
    one fill, described by their closed forms, takes [I n] to [I (n + 1)]. *)
Lemma sweeps_invariant this (rhs : num → num → num → num → num → num)
    cur src mode_arg (I : Z → heap num → Prop) h :
  wf (grid this) h = true → (cur < length h)%nat → (src < length h)%nat →
  I 0 h →
  (∀ n h1 h2 h3,
     0 ≤ n < N_SOLVER_ITERS →
     wf (grid this) h1 = true → length h1 = length h → I n h1 →
     wf (grid this) h2 = true →
     gauss_seidel_sweep (grid this) rhs cur src h1 h2 →
     wf (grid this) h3 = true → length h3 = length h2 →
     (∀ Y, Y ≠ cur → h3 !! Y = h2 !! Y) →
     (∀ a b c, rd h3 cur a b c =
        if decide (c = 1)
        then boundary_filled (grid this) (default BOUNDARY_MIRROR mode_arg)
               (λ a' b', rd h2 cur a' b' 1) a b
        else rd h2 cur a b c) →
     I (n + 1) h3) →
  ∃ h', for_lt 0 N_SOLVER_ITERS (λ iter,
          for_le 1 (Nx (grid this)) (λ i, for_le 1 (Ny (grid this)) (λ j,
            p0 <- get src i j 1 ;;
            c1 <- get cur (i - 1) j 1 ;;
            c2 <- get cur (i + 1) j 1 ;;
            c3 <- get cur i (j - 1) 1 ;;
            c4 <- get cur i (j + 1) 1 ;;
            put cur i j 1 (rhs p0 c1 c2 c3 c4))) ;;;
          setBoundary this cur mode_arg) h = Some (tt, h') ∧
        wf (grid this) h' = true ∧ length h' = length h ∧
        I N_SOLVER_ITERS h'.
Proof.
  intros Hwf Hcur Hsrc HI0 Hstep.
  set (body := λ iter : Z, _).
  assert (Hloop : hoare
            (λ h1, wf (grid this) h1 = true ∧ length h1 = length h ∧ I 0 h1)
            (for_lt 0 N_SOLVER_ITERS body)
            (λ _ h1, wf (grid this) h1 = true ∧ length h1 = length h ∧
                     I N_SOLVER_ITERS h1)).
  { apply (hoare_for_lt (λ iter h1,
             wf (grid this) h1 = true ∧ length h1 = length h ∧ I iter h1));
      [done |].
    intros iter Hiter h1 (Hwf1 & Hlen1 & HI1). unfold body.
    destruct (sweep_ok (grid this) rhs cur src h1)
      as (h2 & Hrun2 & Hwf2 & Hsw); [done | lia | lia |].
    rewrite (bind_run _ _ _ _ _ Hrun2).
    pose proof Hsw as (Hlen2 & _).
    destruct (setBoundary_fill this cur mode_arg h2)
      as (h3 & Hrun3 & Hwf3 & Hlen3 & Hfr3 & Hrd3); [done | lia |].
    exists tt, h3. split; [done |]. split; [done |]. split; [lia |].
    by apply (Hstep iter h1 h2 h3). }
  destruct (Hloop h) as ([] & h' & Hrun & Hpost); [done |].
  by exists h'.
Qed.

End SweepInvariants.

(** ** Bounds over the rationals *)

Section Bounds.
Implicit Types (h : heap Q) (g : Grid) (X Y : loc) (i j k a b c : Z) (M lo hi : Q).

(** A fill keeps a bound on the absolute values: the edges are copies or
    opposites of active cells and the corners are averages of edges. *)
Lemma boundary_filled_within g mode (old : Z → Z → Q) M :
  1 ≤ Nx g → 1 ≤ Ny g →
  (∀ a b, active (Nx g) a → active (Ny g) b → (- M <= old a b <= M)%Q) →
  ∀ a b, in_grid (Nx g) a → in_grid (Ny g) b →
         (- M <= boundary_filled g mode old a b <= M)%Q.
Proof.
  intros ? ? Hold a b Ha Hb.
  assert (Hedge : ∀ a' b', in_grid (Nx g) a' → in_grid (Ny g) b' →
            ¬ ((a' = 0 ∨ a' = Nx g + 1) ∧ (b' = 0 ∨ b' = Ny g + 1)) →
            (- M <= edges_filled g mode old a' b' <= M)%Q).
  { intros a' b' Ha' Hb' Hnc. unfold edges_filled, edge_value, in_grid in *.
    repeat case_decide; try lia;
      try destruct (mode =? _); cbn [nneg Q_Number];
      match goal with
      | |- context [old ?x ?y] =>
          pose proof (Hold x y ltac:(unfold active; lia) ltac:(unfold active; lia))
      end; lra. }
  unfold boundary_filled. cbv zeta. unfold in_grid in *.
  repeat case_decide;
    try (cbn [nadd nmul half Q_Number];
         match goal with
         | |- context [(edges_filled g mode old ?x1 ?y1 + edges_filled g mode old ?x2 ?y2)%Q] =>
             pose proof (Hedge x1 y1 ltac:(unfold in_grid; lia)
                           ltac:(unfold in_grid; lia) ltac:(lia));
             pose proof (Hedge x2 y2 ltac:(unfold in_grid; lia)
                           ltac:(unfold in_grid; lia) ltac:(lia))
         end; lra).
  apply Hedge; unfold in_grid; lia.
Qed.

End Bounds.

(** ** What the operators leave alone *)

Section Frames.
Context {num : Type} `{Number num}.
Implicit Types (h : heap num) (g : Grid) (X Y : loc) (i j k a b c : Z).

(** [project] writes the two velocity components and the two buffers, and
    nothing else. *)
Lemma project_frame this vs bufs velX velY p div h :
  wf (grid this) h = true →
  idx vs X_DIM = Some velX → idx vs Y_DIM = Some velY →
  idx bufs X_DIM = Some p → idx bufs Y_DIM = Some div →
  (velX < length h)%nat → (velY < length h)%nat →
  (div < length h)%nat → (p < length h)%nat →
  velX ≠ velY → velX ≠ div → velX ≠ p → velY ≠ div → velY ≠ p → div ≠ p →
  ∃ h', project this vs bufs h = Some (tt, h') ∧
        wf (grid this) h' = true ∧ length h' = length h ∧
        (∀ Y, Y ≠ velX → Y ≠ velY → Y ≠ p → Y ≠ div → h' !! Y = h !! Y).
Proof.
  intros Hwf HvX HvY Hp Hdiv HlX HlY Hld Hlp ? ? ? ? ? ?.
  unfold project. cbv zeta.
  rewrite (bind_component bufs X_DIM p) by done.
  rewrite (bind_component bufs Y_DIM div) by done.
  destruct (divergence_ok (grid this)
              (of_Z 1 / of_Z (Nx (grid this)))%num
              (of_Z 1 / of_Z (Ny (grid this)))%num vs velX velY div p h)
    as (h1 & Hrun1 & Hwf1 & Hlen1 & Hfr1 & _); try done.
  rewrite (bind_run _ _ _ _ _ Hrun1).
  destruct (setBoundary_fill this div None h1)
    as (h2 & Hrun2 & Hwf2 & Hlen2 & Hfr2 & _); [done | lia |].
  rewrite (bind_run _ _ _ _ _ Hrun2).
  destruct (setBoundary_fill this p None h2)
    as (h3 & Hrun3 & Hwf3 & Hlen3 & Hfr3 & _); [done | lia |].
  rewrite (bind_run _ _ _ _ _ Hrun3).
  destruct (sweeps_ok this relax_rhs p div None h3)
    as (h4 & Hrun4 & Hwf4 & Hlen4 & Hfr4 & _); [done | lia | lia |].
  rewrite (bind_run _ _ _ _ _ Hrun4).
  destruct (gradient_ok (grid this)
              (of_Z 1 / of_Z (Nx (grid this)))%num
              (of_Z 1 / of_Z (Ny (grid this)))%num vs velX velY p h4)
    as (h5 & Hrun5 & Hwf5 & Hlen5 & Hfr5 & _); try (done || lia).
  rewrite (bind_run _ _ _ _ _ Hrun5).
  rewrite (bind_component vs X_DIM velX) by done.
  destruct (setBoundary_fill this velX (Some BOUNDARY_OPPOSE_X) h5)
    as (h6 & Hrun6 & Hwf6 & Hlen6 & Hfr6 & _); [done | lia |].
  rewrite (bind_run _ _ _ _ _ Hrun6).
  rewrite (bind_component vs Y_DIM velY) by done.
  destruct (setBoundary_fill this velY (Some BOUNDARY_OPPOSE_Y) h6)
    as (h7 & Hrun7 & Hwf7 & Hlen7 & Hfr7 & _); [done | lia |].
  exists h7. split; [done |]. split; [done |]. split; [lia |].
  intros Y ? ? ? ?.
  rewrite Hfr7, Hfr6, Hfr5, Hfr4, Hfr3, Hfr2, Hfr1 by done. done.
Qed.

End Frames.

(** X8: [diffuse] writes [cur] only: every other field of the heap, [prev]
    among them, is the same array with the same contents afterwards, and
    no field is resized. *)
Theorem diffuse_writes_cur_only {num : Type} `{Number num}
    (this : Simulator num) (cur prev : loc) (k : num) (bMode : Z) (h : heap num) :
  wf (grid this) h = true → (cur < length h)%nat → (prev < length h)%nat →
  ∃ h', diffuse this cur prev k bMode h = Some (tt, h') ∧
        (∀ Y, Y ≠ cur → h' !! Y = h !! Y) ∧
        length h' = length h ∧ wf (grid this) h' = true.
Proof.
  intros Hwf Hcur Hprev.
  destruct (diffuse_ok this cur prev k bMode h Hwf Hcur Hprev)
    as (h' & Hrun & Hwf' & Hlen' & Hfr & _).
  by exists h'.
Qed.

Lemma diffuse_writes_cur_only_witness :
  ∃ h', diffuse demo_sim 0%nat 3%nat (visc demo_sim) 1 demo_heap = Some (tt, h') ∧
        h' !! 3%nat = demo_heap !! 3%nat.
Proof.
  destruct (diffuse_writes_cur_only demo_sim 0%nat 3%nat (visc demo_sim) 1 demo_heap)
    as (h' & Hrun & Hfr & _); [by_evaluation .. |].
  exists h'. split; [exact Hrun |]. apply Hfr. lia.
Defined.

(** X9: [advect] writes [cur] only: whenever it returns, [prev], the
    velocity components other than [cur] and every other field are
    unchanged; and it returns whenever the floors of the clamped
    coordinates are indices of the grid, in every arithmetic. *)
Theorem advect_writes_cur_only {num : Type} `{Number num}
    (this : Simulator num) (cur prev : loc) (vs : list loc) (velX velY : loc)
    (bMode : Z) (h : heap num) :
  wf (grid this) h = true →
  idx vs X_DIM = Some velX → idx vs Y_DIM = Some velY →
  (cur < length h)%nat → (prev < length h)%nat →
  (velX < length h)%nat → (velY < length h)%nat →
  (∀ h', advect this cur prev vs bMode h = Some (tt, h') →
         (∀ Y, Y ≠ cur → h' !! Y = h !! Y) ∧
         length h' = length h ∧ wf (grid this) h' = true) ∧
  (samples_in_grid (grid this) h velX velY →
   ∃ h', advect this cur prev vs bMode h = Some (tt, h')).
Proof.
  intros Hwf HvX HvY Hcur Hprev HlX HlY. split.
  - intros h' Hrun.
    destruct (advect_returned this cur prev vs velX velY bMode h h')
      as (Hwf' & Hlen' & Hfr); done.
  - intros Hrange.
    destruct (advect_run this cur prev vs velX velY bMode h)
      as (_ & h' & Hrun & _); try done.
    by exists h'.
Qed.

Lemma advect_writes_cur_only_witness :
  ∃ h', advect demo_sim 0%nat 3%nat [1; 2]%nat 0 demo_heap = Some (tt, h') ∧
        h' !! 1%nat = demo_heap !! 1%nat.
Proof.
  destruct (advect_writes_cur_only demo_sim 0%nat 3%nat [1; 2]%nat 1%nat 2%nat 0
              demo_heap) as [Hframe Hreturns]; [by_evaluation .. |].
  destruct Hreturns as [h' Hrun].
  { intros i j [Hi1 Hi2] [Hj1 Hj2]. simpl in Hi2, Hj2.
    assert (i = 1 ∨ i = 2) as [-> | ->] by lia;
      (assert (j = 1 ∨ j = 2) as [-> | ->] by lia);
      repeat split; by vm_compute. }
  exists h'. split; [exact Hrun |].
  destruct (Hframe h' Hrun) as [Hfr _]. apply Hfr. lia.
Defined.

(** X10: [project] writes the X and Y components of [vel] and of [buf]
    and nothing else; in particular it overwrites the first two fields of
    the buffer it is given. *)
Theorem project_writes_four_fields_only {num : Type} `{Number num}
    (this : Simulator num) (vs bufs : list loc) (velX velY p div : loc)
    (h : heap num) :
  wf (grid this) h = true →
  idx vs X_DIM = Some velX → idx vs Y_DIM = Some velY →
  idx bufs X_DIM = Some p → idx bufs Y_DIM = Some div →
  (velX < length h)%nat → (velY < length h)%nat →
  (div < length h)%nat → (p < length h)%nat →
  velX ≠ velY → velX ≠ div → velX ≠ p → velY ≠ div → velY ≠ p → div ≠ p →
  ∃ h', project this vs bufs h = Some (tt, h') ∧
        (∀ Y, Y ≠ velX → Y ≠ velY → Y ≠ p → Y ≠ div → h' !! Y = h !! Y) ∧
        length h' = length h ∧ wf (grid this) h' = true.
Proof.
  intros. destruct (project_frame this vs bufs velX velY p div h)
    as (h' & Hrun & Hwf' & Hlen' & Hfr); try done.
  by exists h'.
Qed.

Lemma project_writes_four_fields_only_witness :
  ∃ h', project demo_sim [0; 1; 2]%nat [3; 4; 5]%nat demo_heap = Some (tt, h') ∧
        h' !! 2%nat = demo_heap !! 2%nat ∧ h' !! 5%nat = demo_heap !! 5%nat.
Proof.
  destruct (project_writes_four_fields_only demo_sim [0; 1; 2]%nat [3; 4; 5]%nat
              0%nat 1%nat 3%nat 4%nat demo_heap)
    as (h' & Hrun & Hfr & _); [by_evaluation .. |].
  exists h'. split; [exact Hrun |]. split; apply Hfr; lia.
Defined.

(** ** The density step and the frame of the velocity step *)

Section Steps.
Context {num : Type} `{Number num}.
Implicit Types (h : heap num) (X Y : loc) (i j k : Z) (d : Z).

Lemma swapD_twice (this : Simulator num) :
  with_grid (with_grid this (swapD (grid this)))
            (swapD (grid (with_grid this (swapD (grid this))))) = this.
Proof. by destruct this as [? ? ? [] ?]. Qed.

(** X11: when the floors of the clamped coordinates that the velocity
    gives are indices of the grid, [dStep()] returns; it adds the previous
    density to the current one, diffuses the sum into the buffer that held
    the previous density, and advects that buffer back into the current
    density; it writes the two density fields only, so the velocity is
    untouched. The velocity components are arrays other than the two
    densities. *)
Theorem dStep_phases (this : Simulator num) (velX velY : loc) (h : heap num) :
  wf (grid this) h = true →
  (dens (grid this) < length h)%nat → (prev_dens (grid this) < length h)%nat →
  idx (vel (grid this)) X_DIM = Some velX →
  idx (vel (grid this)) Y_DIM = Some velY →
  (velX < length h)%nat → (velY < length h)%nat →
  velX ≠ dens (grid this) → velX ≠ prev_dens (grid this) →
  velY ≠ dens (grid this) → velY ≠ prev_dens (grid this) →
  samples_in_grid (grid this) h velX velY →
  ∃ h1 h2 h',
    let g := grid this in
    dStep this h = Some (this, h') ∧
    addSource this (dens g) (prev_dens g) h = Some (tt, h1) ∧
    diffuse this (prev_dens g) (dens g) (diff this) BOUNDARY_MIRROR h1
      = Some (tt, h2) ∧
    advect this (dens g) (prev_dens g) (vel g) BOUNDARY_MIRROR h2 = Some (tt, h') ∧
    (∀ Y, Y ≠ dens g → Y ≠ prev_dens g → h' !! Y = h !! Y) ∧
    wf g h' = true ∧ length h' = length h.
Proof.
  intros Hwf Hd Hpd HvX HvY HlX HlY ? ? ? ? Hrange.
  unfold dStep. cbv zeta. rewrite (swapD_twice this).
  set (g := grid this) in *.
  destruct (addSource_ok this (dens g) (prev_dens g) h)
    as (h1 & Hrun1 & _ & Hfr1 & Hlen1 & Hwf1); [done | done | done |].
  rewrite (bind_run _ _ _ _ _ Hrun1).
  destruct (diffuse_ok this (prev_dens g) (dens g) (diff this) BOUNDARY_MIRROR h1)
    as (h2 & Hrun2 & Hwf2 & Hlen2 & Hfr2 & _); [done | lia | lia |].
  change (diffuse (with_grid this (swapD (grid this)))
            (dens (grid (with_grid this (swapD (grid this)))))
            (prev_dens (grid (with_grid this (swapD (grid this)))))
            (diff (with_grid this (swapD (grid this)))) BOUNDARY_MIRROR)
    with (diffuse this (prev_dens g) (dens g) (diff this) BOUNDARY_MIRROR).
  rewrite (bind_run _ _ _ _ _ Hrun2).
  destruct (advect_run this (dens g) (prev_dens g) (vel g) velX velY
              BOUNDARY_MIRROR h2)
    as (_ & h3 & Hrun3 & _ & _ & _ & Hwf3 & Hlen3 & Hfr3); try (done || lia).
  { intros i j Hi Hj.
    rewrite (rd_frame h h2 velX), (rd_frame h h2 velY);
      [exact (Hrange i j Hi Hj) | |]; rewrite Hfr2, Hfr1 by done; done. }
  fold g. rewrite (bind_run _ _ _ _ _ Hrun3).
  exists h1, h2, h3. cbv zeta.
  split; [done |]. split; [done |]. split; [done |]. split; [done |].
  split; [| split; [done | lia]].
  intros Y ? ?. rewrite Hfr3, Hfr2, Hfr1 by done. done.
Qed.


End Steps.

Lemma dStep_phases_witness :
  wf (grid demo_sim) demo_heap = true ∧
  ∃ h', dStep demo_sim demo_heap = Some (demo_sim, h') ∧
        h' !! 0%nat = demo_heap !! 0%nat.
Proof.
  split; [reflexivity |].
  destruct (dStep_phases demo_sim 0%nat 1%nat demo_heap)
    as (_ & _ & h' & Hrun & _ & _ & _ & Hfr & _); [by_evaluation .. | |].
  - intros i j [Hi1 Hi2] [Hj1 Hj2]. simpl in Hi2, Hj2.
    assert (i = 1 ∨ i = 2) as [-> | ->] by lia;
      (assert (j = 1 ∨ j = 2) as [-> | ->] by lia);
      repeat split; by vm_compute.
  - exists h'. split; [exact Hrun |]. apply Hfr; simpl; lia.
Defined.


(** ** More about construction *)

Section ConstructionBounds.
Context {num : Type} `{Number num}.
Implicit Types (h : heap num) (g : Grid).

Lemma idx_replicate {A} (n : nat) (x : A) (i : Z) :
  idx (replicate n x) i = if decide (0 ≤ i < Z.of_nat n) then Some x else None.
Proof.
  unfold idx. destruct (Z.ltb_spec i 0).
  - rewrite decide_False by lia. done.
  - case_decide.
    + apply lookup_replicate_2. lia.
    + apply lookup_ge_None_2. rewrite length_replicate. lia.
Qed.

Lemma cell_zeros3d (n1 n2 n3 i j k : Z) :
  cell (zeros3d n1 n2 n3) i j k =
  if decide ((0 ≤ i < n1 ∧ 0 ≤ j < n2) ∧ 0 ≤ k < n3) then Some (of_Z 0) else None.
Proof.
  unfold cell, zeros3d. rewrite idx_replicate.
  destruct (decide (0 ≤ i < Z.of_nat (Z.to_nat n1))); simpl;
    [| by rewrite decide_False by lia].
  rewrite idx_replicate.
  destruct (decide (0 ≤ j < Z.of_nat (Z.to_nat n2))); simpl;
    [| by rewrite decide_False by lia].
  rewrite idx_replicate. repeat case_decide; (done || lia).
Qed.

Lemma cell_upd_None (f : field num) i j k (v : num) :
  cell f i j k = None → cell_upd f i j k v = None.
Proof.
  unfold cell, cell_upd. destruct (idx f i) as [r |]; simpl; [| done].
  destruct (idx r j) as [col |]; simpl; [| done].
  by intros ->.
Qed.

(** X14: once the Grid is constructed, with a Z axis that is not negative,
    construction stops with an error exactly when the grid has no cell
    [(5, 25)] for the hard-wired forcing term: fewer than 4 active cells on
    the X axis or fewer than 24 on the Y axis. *)
Theorem new_Simulator_fails_iff
    (new_Grid : Z → Z → Z → num → num → num → M num Grid)
    (N : Z) (width height visc0 diff0 timeStep0 : num) (h : heap num)
    (g : Grid) (h1 : heap num) :
  new_Grid N N 1 width height (of_Z 0) h = Some (g, h1) →
  0 ≤ Nz g →
  new_Simulator new_Grid N width height visc0 diff0 timeStep0 h = None ↔
  Nx g < 4 ∨ Ny g < 24.
Proof.
  intros Hgrid Hz. unfold new_Simulator.
  rewrite (bind_run _ _ _ _ _ Hgrid).
  rewrite (bind_run _ _ _ _ _ (zeros4d_run 3 _ _ _ h1)).
  rewrite (bind_component _ X_DIM (length h1)) by done.
  unfold bind at 1. unfold put. simpl replicate.
  rewrite list_lookup_middle by done. simpl.
  destruct (decide (4 ≤ Nx g ∧ 24 ≤ Ny g)) as [Hroom | Hroom].
  - assert (shape_ok g (zeros3d (Nx g + 2) (Ny g + 2) (Nz g + 2)) = true) as Hs
      by (apply shape_ok_zeros3d; lia).
    destruct (cell_upd_spec g _ 5 25 1 (of_Z 500) Hs) as (z' & -> & _);
      try (unfold in_grid; lia).
    simpl. split; [done | lia].
  - rewrite cell_upd_None; simpl.
    + split; [lia | done].
    + rewrite cell_zeros3d. rewrite decide_False by lia. done.
Qed.

(** X15: when construction succeeds, the three fields of the persistent
    source are new arrays behind the fields the Grid allocated, which are
    unchanged; they hold 500 in the cell [(5, 25, 1)] of the X component
    and zero in every other cell; and a well-formed heap stays so. *)
Theorem new_Simulator_forcing_term
    (new_Grid : Z → Z → Z → num → num → num → M num Grid)
    (N : Z) (width height visc0 diff0 timeStep0 : num) (h : heap num)
    (g : Grid) (h1 : heap num) (sim : Simulator num) (h' : heap num) :
  new_Grid N N 1 width height (of_Z 0) h = Some (g, h1) →
  new_Simulator new_Grid N width height visc0 diff0 timeStep0 h = Some (sim, h') →
  v_src sim = [length h1; S (length h1); S (S (length h1))] ∧
  length h' = (length h1 + 3)%nat ∧
  (∀ Y, (Y < length h1)%nat → h' !! Y = h1 !! Y) ∧
  (∀ d i j k, (d < 3)%nat →
     in_grid (Nx g) i → in_grid (Ny g) j → in_grid (Nz g) k →
     rd h' (length h1 + d)%nat i j k =
       if decide (d = 0%nat ∧ i = 5 ∧ j = 25 ∧ k = 1) then of_Z 500 else of_Z 0) ∧
  (wf g h1 = true → wf g h' = true).
Proof.
  intros Hgrid Hrun. unfold new_Simulator in Hrun.
  rewrite (bind_run _ _ _ _ _ Hgrid) in Hrun.
  rewrite (bind_run _ _ _ _ _ (zeros4d_run 3 _ _ _ h1)) in Hrun.
  rewrite (bind_component _ X_DIM (length h1)) in Hrun by done.
  unfold bind at 1 in Hrun. unfold put in Hrun. simpl replicate in Hrun.
  rewrite list_lookup_middle in Hrun by done. simpl in Hrun.
  set (z := zeros3d (Nx g + 2) (Ny g + 2) (Nz g + 2)) in *.
  destruct (cell_upd z 5 25 1 (of_Z 500)) as [z' |] eqn:Hupd; [| done].
  simpl in Hrun. unfold ret in Hrun. injection Hrun as <- <-.
  (* the forcing cell exists, so the grid has room for it *)
  assert (4 ≤ Nx g ∧ 24 ≤ Ny g ∧ 0 ≤ Nz g) as (? & ? & ?).
  { destruct (cell z 5 25 1) as [w |] eqn:Hcell;
      [| by rewrite (cell_upd_None _ _ _ _ _ Hcell) in Hupd].
    unfold z in Hcell. rewrite cell_zeros3d in Hcell.
    case_decide; [lia | done]. }
  assert (shape_ok g z = true) as Hz by (apply shape_ok_zeros3d; lia).
  destruct (cell_upd_spec g z 5 25 1 (of_Z 500) Hz)
    as (z'' & Hupd' & Hz' & Hnew & Hold); try (unfold in_grid; lia).
  rewrite Hupd in Hupd'. injection Hupd' as <-.
  assert (Hzero : ∀ i j k, in_grid (Nx g) i → in_grid (Ny g) j → in_grid (Nz g) k →
            cell z i j k = Some (of_Z 0)).
  { intros i j k Hi Hj Hk. unfold z. rewrite cell_zeros3d.
    unfold in_grid in *. rewrite decide_True by lia. done. }
  assert (Hl0 : (<[length h1 := z']> (h1 ++ [z; z; z])) !! length h1 = Some z').
  { apply list_lookup_insert_eq. rewrite length_app. simpl. lia. }
  split; [done |]. split; [by rewrite length_insert, length_app |].
  split; [| split].
  - intros Y HY. rewrite list_lookup_insert_ne by lia. by apply lookup_app_l.
  - intros d i j k Hd Hi Hj Hk. unfold rd.
    destruct d as [| [| [| d]]]; [| | | lia].
    + rewrite Nat.add_0_r, Hl0. simpl. case_decide as Hc.
      * destruct Hc as (_ & -> & -> & ->). by rewrite Hnew.
      * rewrite Hold by lia. by rewrite Hzero.
    + rewrite list_lookup_insert_ne by lia.
      rewrite lookup_app_r by lia.
      replace (length h1 + 1 - length h1)%nat with 1%nat by lia. simpl.
      rewrite Hzero by done. simpl. first [done | case_decide; [lia | done]].
    + rewrite list_lookup_insert_ne by lia.
      rewrite lookup_app_r by lia.
      replace (length h1 + 2 - length h1)%nat with 2%nat by lia. simpl.
      rewrite Hzero by done. simpl. first [done | case_decide; [lia | done]].
  - intros Hwf. apply wf_insert; [| done].
    unfold wf in *. rewrite !andb_true_iff in *. destruct Hwf as [Hg Hall].
    split; [done |]. rewrite forallb_app, Hall. simpl. by rewrite Hz.
Qed.

End ConstructionBounds.

Lemma new_Simulator_fails_iff_witness :
  new_Simulator Grid_alloc 3 1%Q 1%Q (1 # 10)%Q (1 # 10)%Q (1 # 100)%Q [] = None.
Proof.
  destruct (Grid_alloc 3 3 1 1%Q 1%Q 0%Q []) as [[g h1] |] eqn:Hgrid;
    [| by vm_compute in Hgrid].
  pose proof Hgrid as Hg. vm_compute in Hg. injection Hg as Hg _.
  destruct (new_Simulator_fails_iff Grid_alloc 3 1%Q 1%Q (1 # 10)%Q (1 # 10)%Q
              (1 # 100)%Q [] g h1 Hgrid) as [_ Hfails].
  - rewrite <- Hg. simpl. lia.
  - apply Hfails. left. rewrite <- Hg. simpl. lia.
Defined.

Lemma new_Simulator_forcing_term_witness :
  ∃ g h1 sim h',
    Grid_alloc 24 24 1 1%Q 1%Q 0%Q [] = Some (g, h1) ∧
    new_Simulator Grid_alloc 24 1%Q 1%Q (1 # 10)%Q (1 # 10)%Q (1 # 100)%Q []
      = Some (sim, h') ∧
    rd h' (length h1 + 0)%nat 5 25 1 = (500 # 1)%Q ∧
    rd h' (length h1 + 1)%nat 5 25 1 = 0%Q.
Proof.
  destruct (Grid_alloc 24 24 1 1%Q 1%Q 0%Q []) as [[g h1] |] eqn:Hgrid;
    [| by vm_compute in Hgrid].
  destruct (new_Simulator Grid_alloc 24 1%Q 1%Q (1 # 10)%Q (1 # 10)%Q (1 # 100)%Q [])
    as [[sim h'] |] eqn:Hrun; [| by vm_compute in Hrun].
  exists g, h1, sim, h'. split; [reflexivity |]. split; [reflexivity |].
  assert (Some g = Some {| Nx := 24; Ny := 24; Nz := 1;
                           vel := [0; 1; 2]%nat; prev_vel := [3; 4; 5]%nat;
                           dens := 6%nat; prev_dens := 7%nat |}) as Hg.
  { change (Some g) with (fst <$> Some (g, h1)). rewrite <- Hgrid.
    vm_compute. reflexivity. }
  injection Hg as Hg.
  destruct (new_Simulator_forcing_term Grid_alloc 24 1%Q 1%Q (1 # 10)%Q (1 # 10)%Q
              (1 # 100)%Q [] g h1 sim h' Hgrid Hrun)
    as (_ & _ & _ & Hcells & _).
  split.
  - apply (Hcells 0%nat 5 25 1); rewrite ?Hg; unfold in_grid; simpl; lia.
  - apply (Hcells 1%nat 5 25 1); rewrite ?Hg; unfold in_grid; simpl; lia.
Defined.

(** ** The mouse state of the UI object *)

Section Mouse.
Implicit Types (ui : UI) (a : MouseAction) (actions : list MouseAction).

Lemma held_snoc actions a (before : bool) :
  held (actions ++ [a]) before =
  match a with
  | Down _ => true
  | Up _ => false
  | Move _ => held actions before
  end.
Proof.
  revert before. induction actions as [| a' actions IH]; intros before; simpl.
  - by destruct a.
  - destruct a'; apply IH.
Qed.

(** X16: after any sequence of mouse events on a new UI object,
    [getSource()] returns [null] unless the last button event was a press,
    and then it returns the canvas position of the most recent event; it
    never returns the unset [source] of a new object. *)
Theorem getSource_follows_the_button actions :
  mouse_dragging (handle_all UI_new actions) = held actions false ∧
  getSource (handle_all UI_new actions) =
    (if held actions false then
       match last actions with
       | Some a => Source (Position (fst (getPositionOnCanvas (event_of a)))
                                    (snd (getPositionOnCanvas (event_of a))))
       | None => Null
       end
     else Null) ∧
  getSource (handle_all UI_new actions) ≠ Source Unset.
Proof.
  assert (Hmain : mouse_dragging (handle_all UI_new actions) = held actions false ∧
    getSource (handle_all UI_new actions) =
      (if held actions false then
         match last actions with
         | Some a => Source (Position (fst (getPositionOnCanvas (event_of a)))
                                      (snd (getPositionOnCanvas (event_of a))))
         | None => Null
         end
       else Null)).
  { induction actions as [| a actions [IHd IHs]] using rev_ind; [done |].
    unfold handle_all in *. rewrite fold_left_app. simpl fold_left.
    rewrite held_snoc, last_snoc.
    set (ui := fold_left handle actions UI_new) in *.
    destruct a as [e | e | e]; simpl.
    - done.
    - done.
    - unfold mousemove, getSource. rewrite IHd.
      destruct (held actions false); simpl; [done |].
      by rewrite IHd. }
  destruct Hmain as [Hd Hs]. split; [done |]. split; [done |].
  rewrite Hs. destruct (held actions false); [| done].
  by destruct (last actions).
Qed.

End Mouse.

(** ** Adding two sources *)

(** X17: two calls of [addSource] on the same destination accumulate: the
    second reads its source as it was before the first, since only [dest]
    is written, and every cell of [dest] ends as
    [(dest + timeStep * s1) + timeStep * s2]. This is the first loop of
    [vStep], which adds the previous velocity and then the persistent
    source. *)
Theorem addSource_accumulates {num : Type} `{Number num}
    (this : Simulator num) (dest s1 s2 : loc) (h : heap num) :
  wf (grid this) h = true →
  (dest < length h)%nat → (s1 < length h)%nat → (s2 < length h)%nat →
  s2 ≠ dest →
  ∃ h', (addSource this dest s1 ;;; addSource this dest s2) h = Some (tt, h') ∧
    (∀ Y, Y ≠ dest → h' !! Y = h !! Y) ∧
    ∀ i j k, in_grid (Nx (grid this)) i → in_grid (Ny (grid this)) j →
             in_grid (Nz (grid this)) k →
      rd h' dest i j k =
        ((rd h dest i j k + timeStep this * rd h s1 i j k)
         + timeStep this * rd h s2 i j k)%num.
Proof.
  intros Hwf Hd Hs1 Hs2 Hne.
  destruct (addSource_ok this dest s1 h) as (ha & Hra & Hca & Hfa & Hla & Hwa);
    [done | done | done |].
  destruct (addSource_ok this dest s2 ha) as (hab & Hrab & Hcab & Hfab & _);
    [done | lia | lia |].
  exists hab.
  split; [by rewrite (bind_run _ _ _ _ _ Hra) |].
  split; [intros Y HY; rewrite Hfab, Hfa by done; done |].
  intros i j k Hi Hj Hk.
  rewrite (Hcab i j k), (Hca i j k) by done.
  by rewrite (rd_frame h ha s2) by (by apply Hfa).
Qed.

Lemma addSource_accumulates_witness :
  ∃ h', (addSource demo_sim 0%nat 3%nat ;;; addSource demo_sim 0%nat 8%nat) demo_heap
          = Some (tt, h') ∧
        rd h' 0%nat 0 0 0 =
          ((rd demo_heap 0%nat 0 0 0 + (1 # 10) * rd demo_heap 3%nat 0 0 0)
           + (1 # 10) * rd demo_heap 8%nat 0 0 0)%Q.
Proof.
  destruct (addSource_accumulates demo_sim 0%nat 3%nat 8%nat demo_heap)
    as (h' & Hrun & _ & Hcells); [by_evaluation .. |].
  exists h'. split; [exact Hrun |].
  apply (Hcells 0 0 0); unfold in_grid; simpl; lia.
Defined.

(** ** A fluid at rest *)

Section RestState.
Implicit Types (h : heap Q) (g : Grid) (X Y : loc) (i j k a b c : Z).

(** A fill of a plane whose active cells are zero gives a zero plane. *)
Lemma boundary_filled_zero g mode (old : Z → Z → Q) :
  1 ≤ Nx g → 1 ≤ Ny g →
  (∀ a b, active (Nx g) a → active (Ny g) b → (old a b == 0)%Q) →
  ∀ a b, in_grid (Nx g) a → in_grid (Ny g) b →
         (boundary_filled g mode old a b == 0)%Q.
Proof.
  intros ? ? Hold a b Ha Hb.
  assert (- 0 <= boundary_filled g mode old a b <= 0)%Q as Hw.
  { apply boundary_filled_within; [done | done | | done | done].
    intros a' b' Ha' Hb'. rewrite (Hold a' b' Ha' Hb'). lra. }
  lra.
Qed.

Lemma filled_plane_zero g mode X h2 h3 :
  1 ≤ Nx g → 1 ≤ Ny g →
  (∀ a b c, rd h3 X a b c =
     if decide (c = 1)
     then boundary_filled g mode (λ a' b', rd h2 X a' b' 1) a b
     else rd h2 X a b c) →
  (∀ a b, active (Nx g) a → active (Ny g) b → (rd h2 X a b 1 == 0)%Q) →
  plane_zero g h3 X.
Proof.
  intros ? ? Hrd Hact a b Ha Hb. rewrite Hrd. rewrite decide_True by done.
  by apply boundary_filled_zero.
Qed.

(** A relaxation sweep with a zero divergence keeps a zero pressure. *)
Lemma relax_sweep_zero g p div h1 h2 :
  gauss_seidel_sweep g relax_rhs p div h1 h2 →
  plane_zero g h1 p →
  (∀ a b, active (Nx g) a → active (Ny g) b → (rd h1 div a b 1 == 0)%Q) →
  plane_zero g h2 p.
Proof.
  intros (_ & _ & Hold & Hnew) Hp Hdiv.
  assert (Hcells : ∀ n m : nat,
            in_grid (Nx g) (Z.of_nat n) → in_grid (Ny g) (Z.of_nat m) →
            (rd h2 p (Z.of_nat n) (Z.of_nat m) 1 == 0)%Q).
  { induction n as [n IHn] using lt_wf_ind.
    induction m as [m IHm] using lt_wf_ind. intros Hn Hm.
    destruct (decide (active (Nx g) (Z.of_nat n) ∧ active (Ny g) (Z.of_nat m)))
      as [[Han Ham] | Hna].
    - rewrite (Hnew _ _ Han Ham).
      pose proof (Hdiv _ _ Han Ham) as E0.
      unfold active, in_grid in *.
      assert (rd h2 p (Z.of_nat n - 1) (Z.of_nat m) 1 == 0)%Q as E1.
      { replace (Z.of_nat n - 1) with (Z.of_nat (n - 1)) by lia.
        apply IHn; unfold in_grid; lia. }
      assert (rd h1 p (Z.of_nat n + 1) (Z.of_nat m) 1 == 0)%Q as E2
        by (apply Hp; unfold in_grid; lia).
      assert (rd h2 p (Z.of_nat n) (Z.of_nat m - 1) 1 == 0)%Q as E3.
      { replace (Z.of_nat m - 1) with (Z.of_nat (m - 1)) by lia.
        apply IHm; unfold in_grid; lia. }
      assert (rd h1 p (Z.of_nat n) (Z.of_nat m + 1) 1 == 0)%Q as E4
        by (apply Hp; unfold in_grid; lia).
      unfold relax_rhs. cbn [nadd ndiv of_Z Q_Number].
      rewrite E0, E1, E2, E3, E4. by vm_compute.
    - rewrite Hold by tauto. by apply Hp. }
  intros a b Ha Hb. unfold in_grid in *.
  replace a with (Z.of_nat (Z.to_nat a)) by lia.
  replace b with (Z.of_nat (Z.to_nat b)) by lia.
  apply Hcells; unfold in_grid; lia.
Qed.

End RestState.

(** X18: a fluid at rest stays at rest under [project]: when both velocity
    components are zero on the whole plane, [project] succeeds and leaves
    them zero, and the pressure and the divergence it computes in the two
    buffers are zero as well, up to numeric equality. *)
Theorem project_keeps_rest (this : Simulator Q) (vs bufs : list loc)
    (velX velY p div : loc) (h : heap Q) :
  wf (grid this) h = true →
  idx vs X_DIM = Some velX → idx vs Y_DIM = Some velY →
  idx bufs X_DIM = Some p → idx bufs Y_DIM = Some div →
  (velX < length h)%nat → (velY < length h)%nat →
  (div < length h)%nat → (p < length h)%nat →
  velX ≠ velY → velX ≠ div → velX ≠ p → velY ≠ div → velY ≠ p → div ≠ p →
  plane_zero (grid this) h velX → plane_zero (grid this) h velY →
  ∃ h', project this vs bufs h = Some (tt, h') ∧
        plane_zero (grid this) h' velX ∧ plane_zero (grid this) h' velY ∧
        plane_zero (grid this) h' p ∧ plane_zero (grid this) h' div.
Proof.
  intros Hwf HvX HvY Hp Hdiv HlX HlY Hld Hlp ? ? ? ? ? ? HzX HzY.
  pose proof (wf_grid _ _ Hwf) as (? & ? & ?).
  unfold project. cbv zeta.
  rewrite (bind_component bufs X_DIM p) by done.
  rewrite (bind_component bufs Y_DIM div) by done.
  destruct (divergence_ok (grid this)
              (of_Z 1 / of_Z (Nx (grid this)))%num
              (of_Z 1 / of_Z (Ny (grid this)))%num vs velX velY div p h)
    as (h1 & Hrun1 & Hwf1 & Hlen1 & Hfr1 & _ & Hin1); try done.
  rewrite (bind_run _ _ _ _ _ Hrun1).
  destruct (setBoundary_fill this div None h1)
    as (h2 & Hrun2 & Hwf2 & Hlen2 & Hfr2 & Hrd2); [done | lia |].
  rewrite (bind_run _ _ _ _ _ Hrun2).
  destruct (setBoundary_fill this p None h2)
    as (h3 & Hrun3 & Hwf3 & Hlen3 & Hfr3 & Hrd3); [done | lia |].
  rewrite (bind_run _ _ _ _ _ Hrun3).
  assert (Hd3 : plane_zero (grid this) h3 div).
  { intros a b Ha Hb. rewrite (rd_frame h2 h3 div) by (by apply Hfr3).
    revert a b Ha Hb.
    apply (filled_plane_zero (grid this) BOUNDARY_MIRROR div h1 h2);
      [done | done | exact Hrd2 |].
    intros a b Ha Hb. destruct (Hin1 a b Ha Hb) as [-> _].
    unfold active in Ha, Hb.
    pose proof (HzX (a + 1) b ltac:(unfold in_grid; lia) ltac:(unfold in_grid; lia)) as E1.
    pose proof (HzX (a - 1) b ltac:(unfold in_grid; lia) ltac:(unfold in_grid; lia)) as E2.
    pose proof (HzY a (b + 1) ltac:(unfold in_grid; lia) ltac:(unfold in_grid; lia)) as E3.
    pose proof (HzY a (b - 1) ltac:(unfold in_grid; lia) ltac:(unfold in_grid; lia)) as E4.
    unfold divergence_rhs. cbn [nadd nsub nmul nneg half Q_Number].
    rewrite E1, E2, E3, E4. ring. }
  assert (Hp3 : plane_zero (grid this) h3 p).
  { apply (filled_plane_zero (grid this) BOUNDARY_MIRROR p h2 h3);
      [done | done | exact Hrd3 |].
    intros a b Ha Hb. rewrite (rd_frame h1 h2 p) by (by apply Hfr2).
    destruct (Hin1 a b Ha Hb) as [_ ->]. by vm_compute. }
  destruct (sweeps_invariant this relax_rhs p div None
              (λ n m, (∀ Y, Y ≠ p → m !! Y = h3 !! Y) ∧
                      plane_zero (grid this) m p) h3)
    as (h4 & Hrun4 & Hwf4 & Hlen4 & Hfr4 & Hp4); [done | lia | lia | done | |].
  { intros n m1 m2 m3 _ _ _ [Hf1 Hz1] _ Hsw _ _ Hfm Hrdm.
    pose proof Hsw as (_ & Hfrs & _ & _).
    split; [intros Y HY; rewrite Hfm, Hfrs by done; by apply Hf1 |].
    apply (filled_plane_zero (grid this) BOUNDARY_MIRROR p m2 m3);
      [done | done | exact Hrdm |].
    intros a b Ha Hb.
    apply (relax_sweep_zero (grid this) p div m1 m2);
      [done | done | | unfold active, in_grid in *; lia ..].
    intros a' b' Ha' Hb'. rewrite (rd_frame h3 m1 div) by (by apply Hf1).
    apply Hd3; unfold active, in_grid in *; lia. }
  rewrite (bind_run _ _ _ _ _ Hrun4).
  destruct (gradient_ok (grid this)
              (of_Z 1 / of_Z (Nx (grid this)))%num
              (of_Z 1 / of_Z (Ny (grid this)))%num vs velX velY p h4)
    as (h5 & Hrun5 & Hwf5 & Hlen5 & Hfr5 & _ & Hin5); try (done || lia).
  rewrite (bind_run _ _ _ _ _ Hrun5).
  rewrite (bind_component vs X_DIM velX) by done.
  destruct (setBoundary_fill this velX (Some BOUNDARY_OPPOSE_X) h5)
    as (h6 & Hrun6 & Hwf6 & Hlen6 & Hfr6 & Hrd6); [done | lia |].
  rewrite (bind_run _ _ _ _ _ Hrun6).
  rewrite (bind_component vs Y_DIM velY) by done.
  destruct (setBoundary_fill this velY (Some BOUNDARY_OPPOSE_Y) h6)
    as (h7 & Hrun7 & Hwf7 & Hlen7 & Hfr7 & Hrd7); [done | lia |].
  assert (HX4 : h4 !! velX = h !! velX)
    by (rewrite Hfr4, Hfr3, Hfr2, Hfr1 by done; done).
  assert (HY4 : h4 !! velY = h !! velY)
    by (rewrite Hfr4, Hfr3, Hfr2, Hfr1 by done; done).
  assert (Hgrad : ∀ a b, active (Nx (grid this)) a → active (Ny (grid this)) b →
            (rd h5 velX a b 1 == 0)%Q ∧ (rd h5 velY a b 1 == 0)%Q).
  { intros a b Ha Hb. destruct (Hin5 a b Ha Hb) as [-> ->].
    rewrite (rd_frame h h4 velX), (rd_frame h h4 velY) by done.
    unfold active in Ha, Hb.
    pose proof (HzX a b ltac:(unfold in_grid; lia) ltac:(unfold in_grid; lia)) as E0.
    pose proof (HzY a b ltac:(unfold in_grid; lia) ltac:(unfold in_grid; lia)) as E0'.
    pose proof (Hp4 (a + 1) b ltac:(unfold in_grid; lia) ltac:(unfold in_grid; lia)) as E1.
    pose proof (Hp4 (a - 1) b ltac:(unfold in_grid; lia) ltac:(unfold in_grid; lia)) as E2.
    pose proof (Hp4 a (b + 1) ltac:(unfold in_grid; lia) ltac:(unfold in_grid; lia)) as E3.
    pose proof (Hp4 a (b - 1) ltac:(unfold in_grid; lia) ltac:(unfold in_grid; lia)) as E4.
    unfold gradient_rhs. cbn [nsub nmul ndiv half Q_Number].
    rewrite E0, E0', E1, E2, E3, E4. unfold Qdiv. split; ring. }
  exists h7. split; [done |].
  split; [| split; [| split]].
  - intros a b Ha Hb. rewrite (rd_frame h6 h7 velX) by (by apply Hfr7).
    revert a b Ha Hb.
    apply (filled_plane_zero (grid this) BOUNDARY_OPPOSE_X velX h5 h6);
      [done | done | exact Hrd6 |].
    intros a b Ha Hb. by apply Hgrad.
  - apply (filled_plane_zero (grid this) BOUNDARY_OPPOSE_Y velY h6 h7);
      [done | done | exact Hrd7 |].
    intros a b Ha Hb. rewrite (rd_frame h5 h6 velY) by (by apply Hfr6).
    by apply Hgrad.
  - intros a b Ha Hb.
    rewrite (rd_frame h4 h7 p) by (rewrite Hfr7, Hfr6, Hfr5 by done; done).
    by apply Hp4.
  - intros a b Ha Hb.
    rewrite (rd_frame h3 h7 div)
      by (rewrite Hfr7, Hfr6, Hfr5, Hfr4 by done; done).
    by apply Hd3.
Qed.

Lemma project_keeps_rest_witness :
  ∃ h', project demo_sim [0; 1; 2]%nat [3; 4; 5]%nat demo_heap_at_rest
          = Some (tt, h') ∧
        (rd h' 0%nat 1 2 1 == 0)%Q ∧ (rd h' 3%nat 0 0 1 == 0)%Q.
Proof.
  assert (Hrest : ∀ X, (X < 2)%nat → plane_zero demo_grid demo_heap_at_rest X).
  { intros X HX a b [Ha1 Ha2] [Hb1 Hb2]. simpl in Ha2, Hb2.
    assert (X = 0 ∨ X = 1)%nat as [-> | ->] by lia;
      (assert (a = 0 ∨ a = 1 ∨ a = 2 ∨ a = 3) as [-> | [-> | [-> | ->]]] by lia);
      (assert (b = 0 ∨ b = 1 ∨ b = 2 ∨ b = 3) as [-> | [-> | [-> | ->]]] by lia);
      reflexivity. }
  destruct (project_keeps_rest demo_sim [0; 1; 2]%nat [3; 4; 5]%nat
              0%nat 1%nat 3%nat 4%nat demo_heap_at_rest)
    as (h' & Hrun & HzX & _ & Hzp & _);
    [by_evaluation .. | apply Hrest; lia | apply Hrest; lia |].
  exists h'. split; [exact Hrun |].
  split; [apply HzX | apply Hzp]; unfold in_grid; simpl; lia.
Defined.
